(** * save-converter: byte-order detection, header normalisation, title
      extraction, content hash and save-file transformation

    A shallow embedding of the Go program (package [main]) and a proof of
    the properties its specification states.

    - [[]byte] is [list byte] ([Byte.byte], 256 constructors), Go strings
      that hold text are [string]; unsigned machine integers are [Z] with
      the truncation written out.
    - The file system is a finite map from files to their contents; a
      function that touches files takes the file system and returns the
      new one next to its Go result. The paths of the command line are
      resolved to files by the system of the run, which also has the
      directories.
    - A Go [error] is a value of [error], one constructor per
      [fmt.Errorf] site; a run-time panic is [Panic]. *)

From Stdlib Require Import ZArith List Lia Strings.Byte Ascii String.
From Equations Require Import Equations.
From stdpp Require Import base option list gmap strings.
Import ListNotations.

Local Open Scope Z_scope.

(** ** Bytes *)

(** [uintN(b)]: the value of a byte as an unsigned integer. *)
Definition u8 (b : byte) : Z := Z.of_N (Byte.to_N b).

(** [byte(v)]: conversion of an unsigned integer to a byte keeps the low
    eight bits. *)
Definition byte_of_Z (v : Z) : byte :=
  default x00 (Byte.of_N (Z.to_N (v mod 256))).

#[global] Instance byte_eq_dec : EqDecision byte := Byte.byte_eq_dec.

(** ** [encoding/binary]

    The four functions of Go's [encoding/binary] the program calls, on
    slices of the length the callers pass; [at_ b i] is [b[i]] as an
    unsigned integer. *)

Definition at_ (b : list byte) (i : nat) : Z := u8 (nth i b x00).

(** [binary.BigEndian.Uint32(b)]:
    [uint32(b[3]) | uint32(b[2])<<8 | uint32(b[1])<<16 | uint32(b[0])<<24]. *)
Definition BigEndian_Uint32 (b : list byte) : Z :=
  Z.lor (Z.lor (Z.lor (at_ b 3) (Z.shiftl (at_ b 2) 8))
               (Z.shiftl (at_ b 1) 16))
        (Z.shiftl (at_ b 0) 24).

(** [binary.LittleEndian.Uint32(b)]:
    [uint32(b[0]) | uint32(b[1])<<8 | uint32(b[2])<<16 | uint32(b[3])<<24]. *)
Definition LittleEndian_Uint32 (b : list byte) : Z :=
  Z.lor (Z.lor (Z.lor (at_ b 0) (Z.shiftl (at_ b 1) 8))
               (Z.shiftl (at_ b 2) 16))
        (Z.shiftl (at_ b 3) 24).

(** [binary.LittleEndian.Uint16(b)]: [uint16(b[0]) | uint16(b[1])<<8]. *)
Definition LittleEndian_Uint16 (b : list byte) : Z :=
  Z.lor (at_ b 0) (Z.shiftl (at_ b 1) 8).

(** [binary.BigEndian.PutUint32(b, v)]: the four bytes written,
    [byte(v>>24), byte(v>>16), byte(v>>8), byte(v)]. *)
Definition BigEndian_PutUint32 (v : Z) : list byte :=
  [byte_of_Z (Z.shiftr v 24); byte_of_Z (Z.shiftr v 16);
   byte_of_Z (Z.shiftr v 8); byte_of_Z v].

(** [binary.LittleEndian.PutUint32(b, v)]:
    [byte(v), byte(v>>8), byte(v>>16), byte(v>>24)]. *)
Definition LittleEndian_PutUint32 (v : Z) : list byte :=
  [byte_of_Z v; byte_of_Z (Z.shiftr v 8);
   byte_of_Z (Z.shiftr v 16); byte_of_Z (Z.shiftr v 24)].

(** [binary.BigEndian.PutUint16(b, v)]: [byte(v>>8), byte(v)]. *)
Definition BigEndian_PutUint16 (v : Z) : list byte :=
  [byte_of_Z (Z.shiftr v 8); byte_of_Z v].

(** [binary.BigEndian.PutUint64(b, v)]: the eight bytes written. *)
Definition BigEndian_PutUint64 (v : Z) : list byte :=
  [byte_of_Z (Z.shiftr v 56); byte_of_Z (Z.shiftr v 48);
   byte_of_Z (Z.shiftr v 40); byte_of_Z (Z.shiftr v 32);
   byte_of_Z (Z.shiftr v 24); byte_of_Z (Z.shiftr v 16);
   byte_of_Z (Z.shiftr v 8); byte_of_Z v].

(** ** Errors and results *)

(** The two sentinel errors of package [io] the program can meet. *)
Inductive io_error :=
| io_EOF             (* io.EOF *)
| io_ErrUnexpectedEOF. (* io.ErrUnexpectedEOF *)

(** One constructor per [fmt.Errorf] site that the functions below can
    reach, with the site's message. They are given files that the system
    lets them create, write and sync, so the sites that only wrap such a
    failure have no constructor; a creation that the system refuses is
    an outcome of [main]. *)
Inductive error :=
| ErrOpenRom                                (* "Error opening ROM file: %w" *)
| ErrReadRomHeader (cause : io_error)       (* "Error reading ROM header: %w" *)
| ErrUnsupportedRomFormat (magicBytes : list byte)
    (* "Error unsupported ROM format based on magic bytes: %x" *)
| ErrOpenRomForHashing          (* "Error opening ROM file for hashing: %w" *)
| ErrOpenSave                               (* "Error opening save file: %w" *)
| ErrReadSave (cause : io_error)            (* "Error reading save file: %w" *)
| ErrUnexpectedReadSize (n : nat)
    (* "Error unexpected read size from save file: got %d bytes, expected 4" *)
| ErrNotMultipleOf4        (* "save file size is not a multiple of 4 bytes" *)
| ErrOpenSource                           (* "Error opening source file: %w" *)
| ErrSourceEmpty.                           (* "Error source file is empty" *)

(** What a call does: return a value, return a non-nil error, or panic. *)
Inductive result (A : Type) :=
| Ok (a : A)
| Err (e : error)
| Panic.
Arguments Ok {A} a.
Arguments Err {A} e.
Arguments Panic {A}.

#[global] Instance result_ret : MRet result := fun _ a => Ok a.
#[global] Instance result_bind : MBind result := fun _ _ f m =>
  match m with
  | Ok a => f a
  | Err e => Err e
  | Panic => Panic
  end.

(** ** Files and package [io] *)

(** The file system: the regular files, each with its content. A key
    stands for the file and not for one of the paths that lead to it:
    two keys are two files, and where the functions below take [src] and
    [dst] they are given the files that the two paths name. What file a
    path names is settled where paths come in, in [main]. *)
Abbreviation filesystem := (gmap string (list byte)).

(** An open file being read is the bytes that are still ahead of its
    offset. *)

(** [r.Read(buf)] on a regular file with [len(buf) = n]: the next [n]
    bytes, or what is left of the file; [io.EOF] with no byte at the end. *)
Definition Read (r : list byte) (n : nat)
  : list byte * option io_error * list byte :=
  match r with
  | [] => ([], Some io_EOF, [])
  | _ => (take n r, None, drop n r)
  end.

(** [io.ReadFull(r, buf)] with [len(buf) = n]: exactly [n] bytes and no
    error; [io.EOF] if no byte was read; [io.ErrUnexpectedEOF] if the file
    ended after some but not all bytes. Returns the bytes read, the error
    and the reader after the call. *)
Definition io_ReadFull (r : list byte) (n : nat)
  : list byte * option io_error * list byte :=
  if decide (length r = 0%nat) then ([], Some io_EOF, r)
  else if decide (length r < n)%nat then (r, Some io_ErrUnexpectedEOF, [])
  else (take n r, None, drop n r).

(** Case analysis on the value of a call that keeps the equation, for a
    loop whose next turn depends on what the call returned. *)
Definition inspect {A} (a : A) : {b | a = b} := exist _ a eq_refl.

(** [io.Writer]: what the program writes to, a hash or a file. *)
Class Writer (W : Type) := Write : W -> list byte -> W.

(** A file being written is its content so far; [Write] appends. *)
#[global] Instance file_Writer : Writer (list byte) := fun out p => out ++ p.

(** The copy loop of [io.Copy] and [io.CopyBuffer]: read up to [S k]
    bytes, write them, until the source is at its end. *)
Equations? copyBuffer {W} `{Writer W} (dst : W) (src : list byte) (k : nat)
  : W by wf (length src) lt :=
  copyBuffer dst [] k := dst;
  copyBuffer dst (b :: r) k :=
    copyBuffer (Write dst (take (S k) (b :: r))) (drop (S k) (b :: r)) k.
Proof. simpl. rewrite length_drop. lia. Qed.

(** [io.Copy] allocates a buffer of 32 KiB. *)
Definition io_Copy {W} `{Writer W} (dst : W) (src : list byte) : W :=
  copyBuffer dst src (Z.to_nat 32767).

(** [io.CopyBuffer(dst, src, buf)] with [len(buf) = S k]. *)
Definition io_CopyBuffer {W} `{Writer W} (dst : W) (src : list byte) (k : nat)
  : W :=
  copyBuffer dst src k.

(** [io.ReadAll(r)]: everything up to the end of the file. *)
Definition io_ReadAll (r : list byte) : list byte := r.

(** ** Package [unicode/utf8] and [range] over a string *)

Module utf8.

Definition RuneError : Z := 0xFFFD.
Definition RuneSelf : Z := 0x80.
Definition MaxRune : Z := 0x10FFFF.
Definition surrogateMin : Z := 0xD800.
Definition surrogateMax : Z := 0xDFFF.
Definition rune1Max : Z := 0x7F.
Definition rune2Max : Z := 0x7FF.
Definition rune3Max : Z := 0xFFFF.
Definition maskx : Z := 0x3F.
Definition mask2 : Z := 0x1F.
Definition mask3 : Z := 0x0F.
Definition mask4 : Z := 0x07.
Definition locb : Z := 0x80.
Definition hicb : Z := 0xBF.

(** The table [first] with [acceptRanges] folded in: what the first
    byte of a sequence announces. *)
Inductive lead :=
| ascii_               (* as: a one-byte rune *)
| invalid              (* xx: not a first byte *)
| seq_ (size : nat) (lo hi : Z).
    (* size of the sequence and the accepted range of its second byte *)

Definition first (s0 : Z) : lead :=
  if s0 <? 0x80 then ascii_
  else if s0 <? 0xC2 then invalid
  else if s0 <? 0xE0 then seq_ 2 locb hicb
  else if s0 =? 0xE0 then seq_ 3 0xA0 hicb
  else if s0 <? 0xED then seq_ 3 locb hicb
  else if s0 =? 0xED then seq_ 3 locb 0x9F
  else if s0 <? 0xF0 then seq_ 3 locb hicb
  else if s0 =? 0xF0 then seq_ 4 0x90 hicb
  else if s0 <? 0xF4 then seq_ 4 locb hicb
  else if s0 =? 0xF4 then seq_ 4 locb 0x8F
  else invalid.

(** [utf8.DecodeRuneInString(s)]: the rune at the start of [s] and its
    width in bytes; [(RuneError, 1)] for an invalid sequence. *)
Definition DecodeRuneInString (s : list byte) : Z * nat :=
  match s with
  | [] => (RuneError, 0%nat)
  | b0 :: _ =>
    let s0 := u8 b0 in
    match first s0 with
    | ascii_ => (s0, 1%nat)
    | invalid => (RuneError, 1%nat)
    | seq_ sz lo hi =>
      if (length s <? sz)%nat then (RuneError, 1%nat) else
      let s1 := at_ s 1 in
      if (s1 <? lo) || (hi <? s1) then (RuneError, 1%nat) else
      if (sz <=? 2)%nat then
        (Z.lor (Z.shiftl (Z.land s0 mask2) 6) (Z.land s1 maskx), 2%nat)
      else
      let s2 := at_ s 2 in
      if (s2 <? locb) || (hicb <? s2) then (RuneError, 1%nat) else
      if (sz <=? 3)%nat then
        (Z.lor (Z.lor (Z.shiftl (Z.land s0 mask3) 12)
                      (Z.shiftl (Z.land s1 maskx) 6))
               (Z.land s2 maskx), 3%nat)
      else
      let s3 := at_ s 3 in
      if (s3 <? locb) || (hicb <? s3) then (RuneError, 1%nat) else
        (Z.lor (Z.lor (Z.lor (Z.shiftl (Z.land s0 mask4) 18)
                             (Z.shiftl (Z.land s1 maskx) 12))
                      (Z.shiftl (Z.land s2 maskx) 6))
               (Z.land s3 maskx), 4%nat)
    end
  end.

(** [utf8.AppendRune(p, r)], which [strings.Builder.WriteRune] calls. *)
Definition AppendRune (p : list byte) (r : Z) : list byte :=
  if (0 <=? r) && (r <=? rune1Max) then p ++ [byte_of_Z r]
  else if (0 <=? r) && (r <=? rune2Max) then
    p ++ [byte_of_Z (Z.lor 0xC0 (Z.shiftr r 6));
          byte_of_Z (Z.lor 0x80 (Z.land r maskx))]
  else if (r <? 0) || (MaxRune <? r)
          || ((surrogateMin <=? r) && (r <=? surrogateMax)) then
    p ++ [xef; xbf; xbd]
  else if r <=? rune3Max then
    p ++ [byte_of_Z (Z.lor 0xE0 (Z.shiftr r 12));
          byte_of_Z (Z.lor 0x80 (Z.land (Z.shiftr r 6) maskx));
          byte_of_Z (Z.lor 0x80 (Z.land r maskx))]
  else
    p ++ [byte_of_Z (Z.lor 0xF0 (Z.shiftr r 18));
          byte_of_Z (Z.lor 0x80 (Z.land (Z.shiftr r 12) maskx));
          byte_of_Z (Z.lor 0x80 (Z.land (Z.shiftr r 6) maskx));
          byte_of_Z (Z.lor 0x80 (Z.land r maskx))].

End utf8.

(** ** Package [bytes] *)

(** The loop of [trimRightByte], seen from the end of the slice. *)
Fixpoint trimLeftByte (s : list byte) (c : byte) : list byte :=
  match s with
  | [] => []
  | b :: rest => if decide (b = c) then trimLeftByte rest c else s
  end.

(** [bytes.TrimRight(s, cutset)] for a cutset of one ASCII character [c]:
    [for len(s) > 0 && s[len(s)-1] == c { s = s[:len(s)-1] }]. *)
Definition bytes_TrimRight (s : list byte) (c : byte) : list byte :=
  rev (trimLeftByte (rev s) c).

(** ** Format registry *)

Definition maxSaveFileSize : Z := 256 * 1024.
Definition maxRomFileSize : Z := 64 * 1024 * 1024.
Definition fullmempakSize : Z := 128 * 1024.
Definition mempakSize : Z := 32 * 1024.

Definition allowedSaveExtensions : list string :=
  [".eep"; ".eeprom"; ".fla"; ".flash"; ".mpk"; ".pak"; ".ram"; ".sra"]%string.

Definition allowedRomExtensions : list string :=
  [".z64"; ".n64"; ".v64"]%string.

(** [romFormats]: ROM mode to magic bytes, in the order of the source.
    Go ranges over a map in an order it does not specify. *)
Definition romFormats : list (string * list byte) :=
  [("z64"%string, [x80; x37; x12; x40]);   (* Big-endian *)
   ("n64"%string, [x40; x12; x37; x80]);   (* Little-endian *)
   ("v64"%string, [x37; x80; x40; x12])].  (* Byte-swapped *)

Definition aresSaveFormatMap : list (string * string) :=
  [(".eeprom", ".eep"); (".flash", ".fla");
   (".pak", ".mpk"); (".ram", ".sra")]%string.

Definition ConversionExtensions : list string := [".fla"; ".sra"]%string.

(** ** Cartridge identifier *)

(** [detectRomFormat], with the order in which [range romFormats] visits
    the entries made explicit. *)
Fixpoint detectRomFormat_range (entries : list (string * list byte))
  (magicBytes : list byte) : result string :=
  match entries with
  | [] => Err (ErrUnsupportedRomFormat magicBytes)
  | (mode, magic) :: rest =>
    if decide (magicBytes = magic) then Ok mode
    else detectRomFormat_range rest magicBytes
  end.

Definition detectRomFormat (magicBytes : list byte) : result string :=
  detectRomFormat_range romFormats magicBytes.

(** The loop of the ["n64"] case: one 4-byte group per iteration,
    [rawHeader[i:i+4]] panics when fewer than 4 bytes are left. *)
Fixpoint convert_n64 (rawHeader : list byte) : result (list byte) :=
  match rawHeader with
  | [] => Ok []
  | b0 :: b1 :: b2 :: b3 :: rest =>
    conv ← convert_n64 rest;
    Ok (BigEndian_PutUint32 (LittleEndian_Uint32 [b0; b1; b2; b3]) ++ conv)
  | _ => Panic
  end.

(** The loop of the ["v64"] case: one 2-byte group per iteration. *)
Fixpoint convert_v64 (rawHeader : list byte) : result (list byte) :=
  match rawHeader with
  | [] => Ok []
  | b0 :: b1 :: rest =>
    conv ← convert_v64 rest;
    Ok (BigEndian_PutUint16 (LittleEndian_Uint16 [b0; b1]) ++ conv)
  | _ => Panic
  end.

(** [convertHeaderEndianness]; a mode that is none of the three leaves
    the zero bytes of [make]. *)
Definition convertHeaderEndianness (rawHeader : list byte) (romMode : string)
  : result (list byte) :=
  if decide (romMode = "z64"%string) then Ok rawHeader
  else if decide (romMode = "n64"%string) then convert_n64 rawHeader
  else if decide (romMode = "v64"%string) then convert_v64 rawHeader
  else Ok (replicate (length rawHeader) x00).

(** The test of the title loop: alphanumerics and the space. *)
Definition title_rune (r : Z) : bool :=
  ((0x41 <=? r) && (r <=? 0x5A)) || ((0x61 <=? r) && (r <=? 0x7A))
  || ((0x30 <=? r) && (r <=? 0x39)) || (r =? 0x20).

(** [for _, r := range title { if ... { cleanTitleRunes.WriteRune(r) } }]:
    [skip] counts the bytes of the current rune that are still ahead, and
    [cleanTitleRunes] is the content of the builder. *)
Fixpoint title_loop (skip : nat) (title : list byte)
  (cleanTitleRunes : list byte) : list byte :=
  match title with
  | [] => cleanTitleRunes
  | _ :: rest =>
    match skip with
    | S skip' => title_loop skip' rest cleanTitleRunes
    | O =>
      let '(r, width) := utf8.DecodeRuneInString title in
      title_loop (width - 1) rest
        (if title_rune r then utf8.AppendRune cleanTitleRunes r
         else cleanTitleRunes)
    end
  end.

(** [extractCleanTitle]; the slice expression panics on a header of fewer
    than 0x34 bytes. *)
Definition extractCleanTitle (convHeader : list byte) : result string :=
  if decide (length convHeader < 0x20 + 20)%nat then Panic else
  let titleField := take 20 (drop 0x20 convHeader) in
  let titleBytes := bytes_TrimRight titleField x20 in
  Ok (string_of_list_byte (title_loop 0 titleBytes [])).

(** ** Package [crypto/sha256]

    The hash of Go's standard library, as its generic implementation
    computes it: a [digest] holds the eight state words, the bytes of the
    block in progress and the number of bytes written. *)

Module sha256.

Definition chunk : nat := 64.

(** [uint32(v)]. *)
Definition u32 (v : Z) : Z := v mod 2 ^ 32.

(** [bits.RotateLeft32(x, -k)]. *)
Definition rotr (x k : Z) : Z :=
  Z.lor (Z.shiftr x k) (u32 (Z.shiftl x (32 - k))).

(** [^x] on a [uint32]. *)
Definition not32 (x : Z) : Z := Z.lxor x 0xFFFFFFFF.

Definition init : list Z :=
  [0x6A09E667; 0xBB67AE85; 0x3C6EF372; 0xA54FF53A;
   0x510E527F; 0x9B05688C; 0x1F83D9AB; 0x5BE0CD19].

Definition _K : list Z :=
  [0x428A2F98; 0x71374491; 0xB5C0FBCF; 0xE9B5DBA5;
   0x3956C25B; 0x59F111F1; 0x923F82A4; 0xAB1C5ED5;
   0xD807AA98; 0x12835B01; 0x243185BE; 0x550C7DC3;
   0x72BE5D74; 0x80DEB1FE; 0x9BDC06A7; 0xC19BF174;
   0xE49B69C1; 0xEFBE4786; 0x0FC19DC6; 0x240CA1CC;
   0x2DE92C6F; 0x4A7484AA; 0x5CB0A9DC; 0x76F988DA;
   0x983E5152; 0xA831C66D; 0xB00327C8; 0xBF597FC7;
   0xC6E00BF3; 0xD5A79147; 0x06CA6351; 0x14292967;
   0x27B70A85; 0x2E1B2138; 0x4D2C6DFC; 0x53380D13;
   0x650A7354; 0x766A0ABB; 0x81C2C92E; 0x92722C85;
   0xA2BFE8A1; 0xA81A664B; 0xC24B8B70; 0xC76C51A3;
   0xD192E819; 0xD6990624; 0xF40E3585; 0x106AA070;
   0x19A4C116; 0x1E376C08; 0x2748774C; 0x34B0BCB5;
   0x391C0CB3; 0x4ED8AA4A; 0x5B9CCA4F; 0x682E6FF3;
   0x748F82EE; 0x78A5636F; 0x84C87814; 0x8CC70208;
   0x90BEFFFA; 0xA4506CEB; 0xBEF9A3F7; 0xC67178F2].

Definition word (l : list Z) (i : nat) : Z := nth i l 0.

(** The message schedule of one block: [w[0..15]] are the big-endian
    words of the block, [w[16..63]] are derived from them. *)
Definition schedule_step (w : list Z) (i : nat) : list Z :=
  let v1 := word w (i - 2) in
  let t1 := Z.lxor (Z.lxor (rotr v1 17) (rotr v1 19)) (Z.shiftr v1 10) in
  let v2 := word w (i - 15) in
  let t2 := Z.lxor (Z.lxor (rotr v2 7) (rotr v2 18)) (Z.shiftr v2 3) in
  w ++ [u32 (t1 + word w (i - 7) + t2 + word w (i - 16))].

Definition schedule (p : list byte) : list Z :=
  let w16 := map (fun i => BigEndian_Uint32 (take 4 (drop (4 * i) p)))
                 (seq 0 16) in
  fold_left schedule_step (seq 16 48) w16.

(** The eight working variables [a .. h]. *)
Record vars := Vars { va : Z; vb : Z; vc : Z; vd : Z;
                      ve : Z; vf : Z; vg : Z; vh : Z }.

Definition round (w : list Z) (v : vars) (i : nat) : vars :=
  let '(Vars a b c d e f g h) := v in
  let t1 := u32 (h + Z.lxor (Z.lxor (rotr e 6) (rotr e 11)) (rotr e 25)
                 + Z.lxor (Z.land e f) (Z.land (not32 e) g)
                 + word _K i + word w i) in
  let t2 := u32 (Z.lxor (Z.lxor (rotr a 2) (rotr a 13)) (rotr a 22)
                 + Z.lxor (Z.lxor (Z.land a b) (Z.land a c)) (Z.land b c)) in
  Vars (u32 (t1 + t2)) a b c (u32 (d + t1)) e f g.

(** One turn of the outer loop of [blockGeneric]: the block at the
    start of [p] is folded into the state [h]. *)
Definition compress (h : list Z) (p : list byte) : list Z :=
  let w := schedule p in
  let v0 := Vars (word h 0) (word h 1) (word h 2) (word h 3)
                 (word h 4) (word h 5) (word h 6) (word h 7) in
  let '(Vars a b c d e f g h') := fold_left (round w) (seq 0 64) v0 in
  [u32 (word h 0 + a); u32 (word h 1 + b); u32 (word h 2 + c);
   u32 (word h 3 + d); u32 (word h 4 + e); u32 (word h 5 + f);
   u32 (word h 6 + g); u32 (word h 7 + h')].

(** [for len(p) >= chunk { ...; p = p[chunk:] }], [n] turns. *)
Fixpoint block_turns (n : nat) (h : list Z) (p : list byte) : list Z :=
  match n with
  | O => h
  | S n' => block_turns n' (compress h p) (drop chunk p)
  end.

(** [block(dig, p)]: every whole block of [p], in order. *)
Definition block (h : list Z) (p : list byte) : list Z :=
  block_turns (length p / chunk)%nat h p.

(** [digest]: [x] holds the [nx] bytes of the block in progress. *)
Record digest := Digest { h : list Z; x : list byte; len : Z }.

(** [sha256.New()]. *)
Definition New : digest := Digest init [] 0.

(** [digest.Write(p)]. *)
Definition digest_Write (d : digest) (p : list byte) : digest :=
  let len' := (len d + Z.of_nat (length p)) mod 2 ^ 64 in
  (* if d.nx > 0 { n := copy(d.x[d.nx:], p); ... ; p = p[n:] } *)
  let '(h1, x1, p1) :=
    if decide (0 < length (x d))%nat then
      let n := Nat.min (chunk - length (x d)) (length p) in
      let x' := x d ++ take n p in
      if decide (length x' = chunk) then (block (h d) x', [], drop n p)
      else (h d, x', drop n p)
    else (h d, x d, p) in
  (* if len(p) >= chunk { n := len(p) &^ (chunk - 1); ... ; p = p[n:] } *)
  let '(h2, p2) :=
    if decide (chunk <= length p1)%nat then
      let n := (length p1 / chunk * chunk)%nat in
      (block h1 (take n p1), drop n p1)
    else (h1, p1) in
  (* if len(p) > 0 { d.nx = copy(d.x[:], p) } *)
  let x2 := if decide (0 < length p2)%nat then p2 else x1 in
  Digest h2 x2 len'.

#[global] Instance digest_Writer : Writer digest := digest_Write.

(** The eight state words as 32 bytes, big-endian. *)
Definition state_bytes (h : list Z) : list byte :=
  BigEndian_PutUint32 (word h 0) ++ BigEndian_PutUint32 (word h 1) ++
  BigEndian_PutUint32 (word h 2) ++ BigEndian_PutUint32 (word h 3) ++
  BigEndian_PutUint32 (word h 4) ++ BigEndian_PutUint32 (word h 5) ++
  BigEndian_PutUint32 (word h 6) ++ BigEndian_PutUint32 (word h 7).

(** [digest.checkSum()]: pad with a 1 bit, 0 bits up to 56 bytes
    mod 64 and the length in bits; panics if that leaves a block open. *)
Definition checkSum (d : digest) : result (list byte) :=
  let len := len d in
  let t := if len mod 64 <? 56 then 56 - len mod 64
           else 64 + 56 - len mod 64 in
  let padlen := x80 :: replicate (Z.to_nat t - 1) x00
                ++ BigEndian_PutUint64 (Z.shiftl len 3 mod 2 ^ 64) in
  let d' := digest_Write d padlen in
  if decide (length (x d') = 0%nat) then Ok (state_bytes (h d'))
  else Panic.

(** [digest.Sum(nil)]: the checksum of a copy of the digest. *)
Definition Sum (d : digest) : result (list byte) := checkSum d.

(** [sha256.Sum256(data)]: the hash of a message held in memory. *)
Definition Sum256 (data : list byte) : result (list byte) :=
  checkSum (digest_Write New data).

End sha256.

(** ** The library's hash in one pass

    What the library computes through its buffer, written in the order
    of FIPS 180-4, sections 5 and 6: the whole message is padded to a
    number of 512-bit blocks, and the library's own block function is
    folded over the blocks from its own initial state. This is a step
    on the way from the library to the standard, and not the standard:
    that is the module [SHS] below. *)

Module OnePass.

(** 5.1.1: the bit 1, then [k] zero bits, with [k] the least number
    such that [l + 1 + k = 448 mod 512], then [l] as 64 bits; in bytes. *)
Definition padding (msg : list byte) : list byte :=
  let l := Z.of_nat (length msg) in
  [x80] ++ replicate (Z.to_nat ((55 - l) mod 64)) x00
  ++ BigEndian_PutUint64 (8 * l).

(** 5.2.1: the blocks [M(1) .. M(N)] of the padded message. *)
Definition blocks (padded : list byte) : list (list byte) :=
  reshape (replicate (length padded / 64)%nat 64%nat) padded.

(** 6.2.2: [H(i) = compress H(i-1) M(i)], and the digest is [H(N)]. *)
Definition SHA256 (msg : list byte) : list byte :=
  sha256.state_bytes
    (fold_left sha256.compress (blocks (msg ++ padding msg)) sha256.init).

End OnePass.

(** ** Package [fmt]: the verb [%X] on a byte slice *)

Definition udigits : list ascii :=
  list_ascii_of_string "0123456789ABCDEF".

Definition udigit (v : Z) : ascii := nth (Z.to_nat v) udigits "0"%char.

(** Two upper-case digits per byte, the high nibble first. *)
Fixpoint fmt_X (bs : list byte) : string :=
  match bs with
  | [] => EmptyString
  | b :: rest =>
    String (udigit (Z.shiftr (u8 b) 4))
      (String (udigit (Z.land (u8 b) 0xF)) (fmt_X rest))
  end.

(** ** Cartridge identifier, continued *)

(** [computeSHA256]: streams the file into the hash through a buffer of
    4096 bytes. *)
Definition computeSHA256 (fs : filesystem) (romFile : string) : result string :=
  match fs !! romFile with
  | None => Err ErrOpenRomForHashing
  | Some romHashFile =>
    let hasher := io_CopyBuffer sha256.New romHashFile (Z.to_nat 4095) in
    hashSum ← sha256.Sum hasher;
    Ok (fmt_X hashSum)
  end.

(** [processRom]: the clean title and the hash of a ROM file. *)
Definition processRom (fs : filesystem) (romFile : string)
  : result (string * string) :=
  match fs !! romFile with
  | None => Err ErrOpenRom
  | Some romHandle =>
    let '(rawHeader, err, _) := io_ReadFull romHandle 0x40 in
    match err with
    | Some e => Err (ErrReadRomHeader e)
    | None =>
      romMode ← detectRomFormat (take 4 rawHeader);
      convHeader ← convertHeaderEndianness rawHeader romMode;
      cleanTitle ← extractCleanTitle convHeader;
      hashHex ← computeSHA256 fs romFile;
      Ok (cleanTitle, hashHex)
    end
  end.

(** ** Save transformer *)

(** The loop of [convertSaveFile]: [inFile] is the source ahead of the
    read offset, [outFile] the destination written so far. The loop ends
    at [io.EOF]; any other read error, and a short read, end the call with
    what was written left in the destination. *)
Equations? convert_loop (inFile outFile : list byte)
  : result unit * list byte by wf (length inFile) lt :=
  convert_loop inFile outFile with inspect (io_ReadFull inFile 4) => {
    | exist _ (_, Some io_EOF, _) _ => (Ok tt, outFile);
    | exist _ (_, Some e, _) _ => (Err (ErrReadSave e), outFile);
    | exist _ (buf, None, inFile') Hread with decide (length buf = 4%nat) => {
      | right _ => (Err (ErrUnexpectedReadSize (length buf)), outFile);
      | left _ =>
        convert_loop inFile'
          (Write outFile (LittleEndian_PutUint32 (BigEndian_Uint32 buf))) } }.
Proof.
  unfold io_ReadFull in Hread. repeat case_decide; simplify_eq.
  rewrite length_drop. lia.
Qed.

(** [convertSaveFile]: [os.Open(src)], then [os.Create(dst)], which
    creates the file or truncates it, then the loop. The source is read
    only after the destination was truncated, so when both paths name one
    file the loop reads the empty file. *)
Definition convertSaveFile (fs : filesystem) (src dst : string)
  : result unit * filesystem :=
  match fs !! src with
  | None => (Err ErrOpenSave, fs)
  | Some _ =>
    let fs1 := <[dst := []]> fs in
    let inFile := default [] (fs1 !! src) in
    let '(r, outFile) := convert_loop inFile [] in
    (r, <[dst := outFile]> fs1)
  end.

(** [copyFile]: a plain copy when [targetSize] is 0; otherwise the data
    is trimmed to [fullmempakSize], padded to [mempakSize], repeated and
    padded up to [targetSize]. Go's [/] and [%] truncate. *)
Definition copyFile (fs : filesystem) (src dst : string) (targetSize : Z)
  : result unit * filesystem :=
  match fs !! src with
  | None => (Err ErrOpenSource, fs)
  | Some _ =>
    let fs1 := <[dst := []]> fs in
    let in_ := default [] (fs1 !! src) in
    if decide (targetSize = 0) then
      (Ok tt, <[dst := io_Copy [] in_]> fs1)
    else
      let fileData := io_ReadAll in_ in
      let fileSize := Z.of_nat (length fileData) in
      if decide (fileSize = 0) then (Err ErrSourceEmpty, fs1) else
      let '(fileData, fileSize) :=
        if decide (fileSize > fullmempakSize)
        then (take (Z.to_nat fullmempakSize) fileData, fullmempakSize)
        else (fileData, fileSize) in
      let '(fileData, fileSize) :=
        if decide (fileSize <= mempakSize) then
          let paddingSize := mempakSize - fileSize in
          let padding := replicate (Z.to_nat paddingSize) x00 in
          let paddedFileData := fileData ++ padding in
          (paddedFileData, Z.of_nat (length paddedFileData))
        else (fileData, fileSize) in
      let out := Write [] fileData in
      let numCopies :=
        if decide (targetSize > fileSize)
        then 1 + Z.quot (targetSize - fileSize) fileSize else 1 in
      let bytesToPad :=
        if decide (targetSize > fileSize)
        then Z.rem (targetSize - fileSize) fileSize else 0 in
      let out :=
        if decide (numCopies > 1)
        then Nat.iter (Z.to_nat (numCopies - 1))
                      (fun out => Write out fileData) out
        else out in
      let out :=
        if decide (bytesToPad > 0)
        then Write out (replicate (Z.to_nat bytesToPad) x00)
        else out in
      (Ok tt, <[dst := out]> fs1)
  end.

(** ** The save kinds, as [main] dispatches on the extension *)

(** [switch saveExt { case ".mpk": ...; case ".pak": ... }]. *)
Definition targetSize_of (saveExt : string) : Z :=
  if decide (saveExt = ".mpk"%string) then fullmempakSize
  else if decide (saveExt = ".pak"%string) then fullmempakSize
  else 0.

(** [if mappedExt, ok := aresSaveFormatMap[saveExt]; ok]. *)
Definition outputExt_of (saveExt : string) : string :=
  default saveExt
    (snd <$> find (fun kv => bool_decide (fst kv = saveExt)) aresSaveFormatMap).

(** The end of [main]: the save at [saveFile], of extension [saveExt], is
    converted or copied to [outputFile]. *)
Definition transformSave (fs : filesystem) (saveFile saveExt outputFile : string)
  : result unit * filesystem :=
  if decide (saveExt ∈ ConversionExtensions)
  then convertSaveFile fs saveFile outputFile
  else copyFile fs saveFile outputFile (targetSize_of saveExt).

(** ** The first version of the program ([main.go])

    The same steps written inline, with other library calls: the header
    is converted byte by byte, the save is read with [Read], the hash is
    fed by [io.Copy], and every save is either converted or copied as it
    is. The messages of its errors differ in letter case from those of
    the later version, and its unsupported-format message does not print
    the bytes; the error it has of its own is [ErrNotMultipleOf4]. Its
    test [n < len(rawHeader)] after [io.ReadFull] returned no error never
    holds and has no counterpart here. *)

Module Legacy.

(** [convHeader[i+0] = rawHeader[i+3]; ... ; convHeader[i+3] = rawHeader[i+0]]
    for [i = 0, 4, ..]. *)
Fixpoint convert_n64 (rawHeader : list byte) : result (list byte) :=
  match rawHeader with
  | [] => Ok []
  | b0 :: b1 :: b2 :: b3 :: rest =>
    conv ← convert_n64 rest; Ok (b3 :: b2 :: b1 :: b0 :: conv)
  | _ => Panic
  end.

(** [convHeader[i+0] = rawHeader[i+1]; convHeader[i+1] = rawHeader[i+0]]
    for [i = 0, 2, ..]. *)
Fixpoint convert_v64 (rawHeader : list byte) : result (list byte) :=
  match rawHeader with
  | [] => Ok []
  | b0 :: b1 :: rest => conv ← convert_v64 rest; Ok (b1 :: b0 :: conv)
  | _ => Panic
  end.

(** The [switch] on the magic bytes, in its written order. *)
Definition romMode_of (magic : list byte) : result string :=
  if decide (nth 0 magic x00 = x80 ∧ nth 1 magic x00 = x37
             ∧ nth 2 magic x00 = x12 ∧ nth 3 magic x00 = x40)
  then Ok "z64"%string
  else if decide (nth 0 magic x00 = x40 ∧ nth 1 magic x00 = x12
                  ∧ nth 2 magic x00 = x37 ∧ nth 3 magic x00 = x80)
  then Ok "n64"%string
  else if decide (nth 0 magic x00 = x37 ∧ nth 1 magic x00 = x80
                  ∧ nth 2 magic x00 = x40 ∧ nth 3 magic x00 = x12)
  then Ok "v64"%string
  else Err (ErrUnsupportedRomFormat magic).

(** [cleanTitleRunes = append(cleanTitleRunes, r)] in the title loop. *)
Fixpoint title_loop (skip : nat) (title : list byte)
  (cleanTitleRunes : list Z) : list Z :=
  match title with
  | [] => cleanTitleRunes
  | _ :: rest =>
    match skip with
    | S skip' => title_loop skip' rest cleanTitleRunes
    | O =>
      let '(r, width) := utf8.DecodeRuneInString title in
      title_loop (width - 1) rest
        (if title_rune r then cleanTitleRunes ++ [r] else cleanTitleRunes)
    end
  end.

(** [string(runes)]: the UTF-8 encoding of the runes, one after the
    other. *)
Definition string_of_runes (runes : list Z) : string :=
  string_of_list_byte (fold_left utf8.AppendRune runes []).

Definition processRom (fs : filesystem) (romFile : string)
  : result (string * string) :=
  match fs !! romFile with
  | None => Err ErrOpenRom
  | Some romHandle =>
    let '(rawHeader, err, _) := io_ReadFull romHandle 0x40 in
    match err with
    | Some e => Err (ErrReadRomHeader e)
    | None =>
      romMode ← romMode_of (take 4 rawHeader);
      convHeader ←
        (if decide (romMode = "z64"%string) then Ok rawHeader
         else if decide (romMode = "n64"%string) then convert_n64 rawHeader
         else if decide (romMode = "v64"%string) then convert_v64 rawHeader
         else Ok (replicate 0x40 x00));
      let titleField := take 20 (drop 0x20 convHeader) in
      let titleBytes := bytes_TrimRight titleField x20 in
      let cleanTitle := string_of_runes (title_loop 0 titleBytes []) in
      match fs !! romFile with
      | None => Err ErrOpenRomForHashing
      | Some romHashFile =>
        let hasher := io_Copy sha256.New romHashFile in
        hashSum ← sha256.Sum hasher;
        Ok (cleanTitle, fmt_X hashSum)
      end
    end
  end.

(** The loop of [convertSaveFile]: [inFile.Read(buf[:4])] returns up to
    4 bytes; fewer than 4 is the error of a misaligned file. *)
Equations? convert_loop (inFile outFile : list byte)
  : result unit * list byte by wf (length inFile) lt :=
  convert_loop inFile outFile with inspect (Read inFile 4) => {
    | exist _ (_, Some io_EOF, _) _ => (Ok tt, outFile);
    | exist _ (_, Some e, _) _ => (Err (ErrReadSave e), outFile);
    | exist _ (buf, None, inFile') Hread with decide (length buf < 4)%nat => {
      | left _ => (Err ErrNotMultipleOf4, outFile);
      | right _ =>
        convert_loop inFile'
          (Write outFile (LittleEndian_PutUint32 (BigEndian_Uint32 buf))) } }.
Proof.
  unfold Read in Hread. destruct inFile as [|b r]; simplify_eq.
  simpl. rewrite length_drop. lia.
Qed.

Definition convertSaveFile (fs : filesystem) (inPath outPath : string)
  : result unit * filesystem :=
  match fs !! inPath with
  | None => (Err ErrOpenSave, fs)
  | Some _ =>
    let fs1 := <[outPath := []]> fs in
    let inFile := default [] (fs1 !! inPath) in
    let '(r, outFile) := convert_loop inFile [] in
    (r, <[outPath := outFile]> fs1)
  end.

Definition copyFile (fs : filesystem) (src dst : string)
  : result unit * filesystem :=
  match fs !! src with
  | None => (Err ErrOpenSource, fs)
  | Some _ =>
    let fs1 := <[dst := []]> fs in
    let in_ := default [] (fs1 !! src) in
    (Ok tt, <[dst := io_Copy [] in_]> fs1)
  end.

End Legacy.

(** ** The words of the specification

    Definitions that follow the specification rather than the code; the
    theorems compare the code with them. *)

(** "Reverse byte order within each non-overlapping [n]-byte group": the
    slice cut into groups of [n] bytes, every group reversed. A tail
    shorter than [n] is not part of any group. *)
Definition reverse_groups (n : nat) (l : list byte) : list byte :=
  mjoin (@rev byte <$> reshape (replicate (length l / n) n) l).

(** The three magic sequences of the specification. *)
Definition magic_big_endian : list byte := [x80; x37; x12; x40].
Definition magic_little_endian : list byte := [x40; x12; x37; x80].
Definition magic_byte_swapped : list byte := [x37; x80; x40; x12].

(** "Characters in {A-Z, a-z, 0-9, space}", on bytes. *)
Definition title_char (b : byte) : bool :=
  let c := u8 b in
  ((0x41 <=? c) && (c <=? 0x5A)) || ((0x61 <=? c) && (c <=? 0x7A))
  || ((0x30 <=? c) && (c <=? 0x39)) || (c =? 0x20).

(** A byte that is no ASCII character. *)
Definition high (b : byte) : Prop := 0x80 <= u8 b.


(** "No truncated destination file is left behind on failure": after a
    call that failed, the destination does not exist (partial output was
    deleted) or is what it was before the call (finalization was put off
    until all writes had succeeded). *)
Definition leaves_no_partial_output
  (transform : filesystem -> string -> string -> result unit * filesystem)
  : Prop :=
  forall fs src dst e fs',
    transform fs src dst = (Err e, fs') ->
    fs' !! dst = None \/ fs' !! dst = fs !! dst.

(** The characters of an upper-case hexadecimal digest. *)
Definition upper_hex_char (c : ascii) : Prop :=
  In c (list_ascii_of_string "0123456789ABCDEF").

(** "Tile the unit": as many whole copies of [unit] as fit in
    [targetSize] bytes, then zero bytes up to [targetSize]. *)
Definition tiled (unit : list byte) (targetSize : Z) : list byte :=
  mjoin (replicate (Z.to_nat (targetSize / Z.of_nat (length unit))) unit)
  ++ replicate (Z.to_nat (targetSize mod Z.of_nat (length unit))) x00.

(** The unit of a payload: "truncated to the largest tier if longer, else
    zero-padded up to the sub-unit size if its length is at most that". *)
Definition unit_of (payload : list byte) : list byte :=
  if decide (Z.of_nat (length payload) > 131072)
  then take (Z.to_nat 131072) payload
  else if decide (Z.of_nat (length payload) <= 32768)
  then payload ++ replicate (Z.to_nat (32768 - Z.of_nat (length payload))) x00
  else payload.

(** The state of a digest that was fed the message [msg], in any number
    of writes: the whole blocks are folded into the state, the rest is
    buffered, the length is counted modulo 2^64. *)
Definition absorbed (d : sha256.digest) (msg : list byte) : Prop :=
  sha256.h d = sha256.block sha256.init msg
  /\ sha256.x d = drop (length msg / 64 * 64) msg
  /\ sha256.len d = Z.of_nat (length msg) mod 2 ^ 64.

(** ** The Secure Hash Standard: SHA-256 as FIPS 180-4 defines it

    The reference the content hash is compared with, written from the
    text of the standard and from nothing of the library model above: a
    word is a number below [2^32], the operations on words are given by
    arithmetic, the constants are computed from the prime numbers as the
    standard defines them, and the digest is laid out and printed by the
    functions of this module alone. *)

Module SHS.

(** A byte as a number below 256, and back. *)
Definition value (b : byte) : Z := Z.of_N (Byte.to_N b).

Definition octet (v : Z) : byte :=
match Byte.of_N (Z.to_N v) with
| Some b => b
| None => "000"%byte
end.

(** The number [v] on [n] bytes, the most significant byte first. *)
Definition big_endian (n : nat) (v : Z) : list byte :=
map (fun i => octet ((v / 256 ^ Z.of_nat (n - 1 - i)) mod 256)) (seq 0 n).

(** The number that a sequence of bytes writes, the most significant
  byte first. *)
Definition number (bs : list byte) : Z :=
fold_left (fun acc b => 256 * acc + value b) bs 0.

(** Sections 2.2.2 and 3.2: addition modulo [2^32], the right shift, the
  circular right shift and the bitwise complement of a 32-bit word. *)
Definition plus (x y : Z) : Z := (x + y) mod 2 ^ 32.
Definition SHR (n x : Z) : Z := x / 2 ^ n.
Definition ROTR (n x : Z) : Z := x / 2 ^ n + (x mod 2 ^ n) * 2 ^ (32 - n).
Definition complement (x : Z) : Z := 2 ^ 32 - 1 - x.

(** Section 4.1.2: the six logical functions. *)
Definition Ch (x y z : Z) : Z :=
Z.lxor (Z.land x y) (Z.land (complement x) z).
Definition Maj (x y z : Z) : Z :=
Z.lxor (Z.lxor (Z.land x y) (Z.land x z)) (Z.land y z).
Definition Sigma0 (x : Z) : Z :=
Z.lxor (Z.lxor (ROTR 2 x) (ROTR 13 x)) (ROTR 22 x).
Definition Sigma1 (x : Z) : Z :=
Z.lxor (Z.lxor (ROTR 6 x) (ROTR 11 x)) (ROTR 25 x).
Definition sigma0 (x : Z) : Z :=
Z.lxor (Z.lxor (ROTR 7 x) (ROTR 18 x)) (SHR 3 x).
Definition sigma1 (x : Z) : Z :=
Z.lxor (Z.lxor (ROTR 17 x) (ROTR 19 x)) (SHR 10 x).

(** The prime numbers, by trial division. *)
Definition prime (n : Z) : bool :=
(1 <? n) && forallb (fun d => negb (n mod Z.of_nat d =? 0))
                    (seq 2 (Z.to_nat n - 2)).

Fixpoint primes_from (fuel : nat) (n : Z) (count : nat) : list Z :=
match fuel, count with
| S fuel', S count' =>
  if prime n then n :: primes_from fuel' (n + 1) count'
  else primes_from fuel' (n + 1) count
| _, _ => []
end.

(** The first [count] prime numbers, for [count] up to 64 (the 64th is
  311). *)
Definition primes (count : nat) : list Z := primes_from 320 2 count.

(** The integer part of the [k]-th root of [n], one bit at a time from
  bit [bits - 1] down. *)
Fixpoint root_bits (k n : Z) (bits : nat) (r : Z) : Z :=
match bits with
| O => r
| S bits' =>
  let r' := r + 2 ^ Z.of_nat bits' in
  root_bits k n bits' (if r' ^ k <=? n then r' else r)
end.

(** The first 32 bits of the fractional part of the [k]-th root of [p]:
  the integer part of the root of [p * 2^(32 k)], modulo [2^32]. *)
Definition fraction32 (k p : Z) : Z :=
root_bits k (p * 2 ^ (32 * k)) 48 0 mod 2 ^ 32.

(** Section 4.2.2: the 64 constants, from the cube roots of the first 64
  prime numbers. *)
Definition K : list Z := map (fraction32 3) (primes 64).

(** Section 5.3.3: the initial hash value, from the square roots of the
  first 8 prime numbers. *)
Definition H0 : list Z := map (fraction32 2) (primes 8).

(** Section 5.1.1: the message of [l] bits is followed by the bit 1, by
  [k] zero bits, [k] the least number with [l + 1 + k = 448] modulo
  512, and by [l] on 64 bits. For a message of whole bytes the bit 1
  and the first seven zero bits are the byte 128. *)
Definition padding (msg : list byte) : list byte :=
let l := 8 * Z.of_nat (length msg) in
let k := (448 - (l + 1)) mod 512 in
octet 128 :: replicate (Z.to_nat ((k - 7) / 8)) (octet 0)
++ big_endian 8 l.

(** Section 5.2.1: the padded message is parsed into blocks of 512 bits,
  and a block into 16 words. *)
Definition blocks (padded : list byte) : list (list byte) :=
reshape (replicate (length padded / 64)%nat 64%nat) padded.

Definition M (block : list byte) (i : nat) : Z :=
number (take 4 (drop (4 * i) block)).

(** Section 6.2.2, step 1: the message schedule [W_0 .. W_(t-1)]. *)
Fixpoint W (block : list byte) (t : nat) : list Z :=
match t with
| O => []
| S t' =>
  let ws := W block t' in
  ws ++ [if (t' <? 16)%nat then M block t'
         else plus (plus (plus (sigma1 (nth (t' - 2) ws 0))
                               (nth (t' - 7) ws 0))
                         (sigma0 (nth (t' - 15) ws 0)))
                   (nth (t' - 16) ws 0)]
end.

(** Step 3: one turn over the working variables [a .. h]. *)
Definition step (ws : list Z) (working : list Z) (t : nat) : list Z :=
match working with
| [a; b; c; d; e; f; g; h] =>
  let T1 := plus (plus (plus (plus h (Sigma1 e)) (Ch e f g)) (nth t K 0))
                 (nth t ws 0) in
  let T2 := plus (Sigma0 a) (Maj a b c) in
  [plus T1 T2; a; b; c; plus d T1; e; f; g]
| _ => working
end.

(** Steps 2 to 4: the hash value after one more block. *)
Definition hash_block (H : list Z) (block : list byte) : list Z :=
zip_with plus (fold_left (step (W block 64)) (seq 0 64) H) H.

(** The digest: the last hash value, its eight words one after the
  other, each on four bytes. *)
Definition SHA256 (msg : list byte) : list byte :=
mjoin (big_endian 4 <$> fold_left hash_block (blocks (msg ++ padding msg)) H0).

(** A number below 16 as a digit, the letters in upper case. *)
Definition hex_digit (d : Z) : ascii :=
ascii_of_nat (Z.to_nat (if d <? 10 then 48 + d else 55 + d)).

(** Bytes in hexadecimal: two digits for each byte, nothing between. *)
Definition hex (bs : list byte) : string :=
string_of_list_ascii
  (mjoin ((fun b => [hex_digit (value b / 16); hex_digit (value b mod 16)])
          <$> bs)).

End SHS.

(** For the comparison of the library model with the standard: a number
    that is a 32-bit word, and the working variables of the model as the
    list [a .. h] of the standard. *)
Definition word32 (x : Z) : Prop := 0 <= x < 2 ^ 32.

Definition working (v : sha256.vars) : list Z :=
  [sha256.va v; sha256.vb v; sha256.vc v; sha256.vd v;
   sha256.ve v; sha256.vf v; sha256.vg v; sha256.vh v].

(** ** The command line: [validateFile] and [main]

    The functions above are given the files themselves: a key of the
    file system is a file, not one of its spellings. [main] is given
    paths, as the user wrote or picked them, and the name it builds for
    the output; what file a path names is the system's business, and the
    model takes it as the function [resolve]: two paths name one file
    exactly when they resolve to the same key. The system also has
    directories. What the model leaves out is a system that refuses an
    operation for a reason the file tree does not show (permissions, a
    full disk, a failing device): every file that [os.Stat] finds can be
    opened and read, and every file that is not a directory can be
    created and written. *)

(** [runtime.GOOS] for the two builds of the release workflow. *)
Inductive GOOS := linux | windows.

(** The system of a run: the build, the file each path names from the
    working directory, and the directories with the size that [os.Stat]
    reports for each. A key that is a directory is not a regular file. *)
Record system := System {
  runtime_GOOS : GOOS;
  resolve : string -> string;
  directories : gmap string Z
}.

(** [os.FileInfo], as far as the program looks at it. *)
Record FileInfo := { IsDir : bool; Size : Z }.

(** [os.Stat(name)]; [None] is the error for a name that resolves to
    nothing. *)
Definition os_Stat (sys : system) (fs : filesystem) (name : string)
  : option FileInfo :=
  match directories sys !! resolve sys name with
  | Some size => Some {| IsDir := true; Size := size |}
  | None =>
    (fun content => {| IsDir := false; Size := Z.of_nat (length content) |})
      <$> fs !! resolve sys name
  end.

(** [os.Create(name)] fails on a name that resolves to a directory. *)
Definition os_Create_fails (sys : system) (name : string) : bool :=
  bool_decide (is_Some (directories sys !! resolve sys name)).

(** [os.IsPathSeparator(c)]: the slash, and on Windows the backslash too. *)
Definition os_IsPathSeparator (goos : GOOS) (c : ascii) : bool :=
  match goos with
  | linux => bool_decide (c = "/"%char)
  | windows => bool_decide (c = "092"%char) || bool_decide (c = "/"%char)
  end.

(** The loop of [filepath.Ext], from the last character of the path
    backwards: [suffix] is [path[i+1:]].
    [for i := len(path) - 1; i >= 0 && !os.IsPathSeparator(path[i]); i--
       { if path[i] == '.' { return path[i:] } }; return ""]. *)
Fixpoint Ext_loop (goos : GOOS) (backwards : list ascii) (suffix : list ascii)
  : list ascii :=
  match backwards with
  | [] => []
  | c :: before =>
    if os_IsPathSeparator goos c then []
    else if bool_decide (c = "."%char) then c :: suffix
    else Ext_loop goos before (c :: suffix)
  end.

(** [filepath.Ext(path)]. *)
Definition filepath_Ext (goos : GOOS) (path : string) : string :=
  string_of_list_ascii (Ext_loop goos (rev (list_ascii_of_string path)) []).

(** The errors of [validateFile], one per [fmt.Errorf] site. *)
Inductive validate_error :=
| ErrAccessFile (fileType filePath : string)
    (* "Error accessing %s file '%s': %w" *)
| ErrNotADirectory (fileType filePath : string)
    (* "Error: '%s' is not a directory, expected a directory for %s file" *)
| ErrIsADirectory (fileType filePath : string)
    (* "Error: '%s' is a directory, expected a file for %s file" *)
| ErrTooLarge (fileType filePath : string) (maxSize : Z)
    (* "Error: %s file '%s' is too large (max size: %dKB)" *)
| ErrUnsupportedExtension (fileType ext : string).
    (* "Errorr: unsupported %s file extension '%s'. Allowed extensions are: %s" *)

(** [validateFile]; [None] is the [nil] error, and [allowedExtensions] is
    [None] for a [nil] map. *)
Definition validateFile (sys : system) (fs : filesystem)
  (filePath : string) (isDir : bool) (maxSize : Z)
  (allowedExtensions : option (list string)) (fileType : string)
  : option validate_error :=
  match os_Stat sys fs filePath with
  | None => Some (ErrAccessFile fileType filePath)
  | Some fileInfo =>
    if decide (IsDir fileInfo <> isDir) then
      if isDir then Some (ErrNotADirectory fileType filePath)
      else Some (ErrIsADirectory fileType filePath)
    else if decide (isDir = false /\ Size fileInfo > maxSize)
    then Some (ErrTooLarge fileType filePath maxSize)
    else
      match isDir, allowedExtensions with
      | false, Some allowed =>
        let ext := filepath_Ext (runtime_GOOS sys) filePath in
        if decide (ext ∈ allowed) then None
        else Some (ErrUnsupportedExtension fileType ext)
      | _, _ => None
      end
  end.

(** What a run of [main] prints last. *)
Inductive outcome :=
| Cancelled
    (* "Error selecting save file or operation cancelled.", or the same
       for the ROM file *)
| Usage                            (* printUsage() *)
| InvalidArgument     (* "Invalid Argument. Expected save file and ROM" *)
| Invalid (e : validate_error)     (* the error of validateFile *)
| Failed (e : error)
    (* the error of processRom, convertSaveFile or copyFile *)
| NotCreated
    (* "Error creating output file: %w" of convertSaveFile, "Error
       creating destination file: %w" of copyFile *)
| Crashed                          (* a run-time panic *)
| Converted (outputFile : string). (* "File converted successfully: %s" *)

(** [arg == "-h" || arg == "--help"]. *)
Definition is_help (arg : string) : bool :=
  bool_decide (arg = "-h"%string) || bool_decide (arg = "--help"%string).

(** The head of [main]: [os.Args] after [if len(os.Args) == 1 { ... }].
    The two file pickers are the program's input beside the command line:
    [saveDialog] and [romDialog] are what [dialog.File()...Load()] returns,
    [None] for an error or a cancelled dialog; the second picker is not
    opened when the first one failed. [prog] is the name the version puts
    in [os.Args[0]]. The result [None] is the early [return]. *)
Definition arguments (prog : string) (Args : list string)
  (saveDialog romDialog : option string) : option (list string) :=
  if decide (length Args = 1%nat) then
    saveFile ← saveDialog;
    romFile ← romDialog;
    Some [prog; saveFile; romFile]
  else Some Args.

(** [main]: [Args] is [os.Args] as the command line gives it. Returns
    what is printed last and the file system after the run.

    [os.Args[1:]] panics when [os.Args] is empty. The two functions that
    write open the source, which [validateFile] has just found to be a
    file, and then call [os.Create] on the output: where that fails they
    return their error for it and nothing has been written. *)
Definition main (sys : system) (fs : filesystem) (Args : list string)
  (saveDialog romDialog : option string) : outcome * filesystem :=
  let goos := runtime_GOOS sys in
  match arguments "save-converter" Args saveDialog romDialog with
  | None => (Cancelled, fs)
  | Some [] => (Crashed, fs)
  | Some ((_ :: flags) as Args) =>
  if existsb is_help flags then (Usage, fs)
  else if decide (length Args ≠ 3%nat) then (InvalidArgument, fs)
  else
    let saveFile := nth 1 Args EmptyString in
    match validateFile sys fs saveFile false maxSaveFileSize
            (Some allowedSaveExtensions) "Save:" with
    | Some e => (Invalid e, fs)
    | None =>
      let saveExt := filepath_Ext goos saveFile in
      let romFile := nth 2 Args EmptyString in
      match validateFile sys fs romFile false maxRomFileSize
              (Some allowedRomExtensions) "ROM:" with
      | Some e => (Invalid e, fs)
      | None =>
        match processRom fs (resolve sys romFile) with
        | Err e => (Failed e, fs)
        | Panic => (Crashed, fs)
        | Ok (cleanTitle, hashHex) =>
          let outputExt := outputExt_of saveExt in
          let outputFile :=
            (cleanTitle ++ "-" ++ hashHex ++ outputExt)%string in
          if os_Create_fails sys outputFile then (NotCreated, fs)
          else
          match transformSave fs (resolve sys saveFile) saveExt
                  (resolve sys outputFile) with
          | (Err e, fs') => (Failed e, fs')
          | (Panic, fs') => (Crashed, fs')
          | (Ok _, fs') => (Converted outputFile, fs')
          end
        end
      end
    end
  end.

(** ** The command line of the first version ([main.go]) *)

Module Legacy_main.

Definition allowedSaveExtensions : list string :=
  [".sra"; ".fla"; ".eep"; ".mpk"]%string.

Definition nonConversionExtensions : list string :=
  [".eep"; ".mpk"]%string.

(** The checks written inline for the save file and for the ROM file:
    "is not a valid file path" when [os.Stat] fails or finds a
    directory, "is too large", and "Unsupported ... extension". *)
Definition validate (sys : system) (fs : filesystem)
  (file : string) (maxSize : Z) (allowed : list string) (fileType : string)
  : option validate_error :=
  match os_Stat sys fs file with
  | None => Some (ErrAccessFile fileType file)
  | Some fileInfo =>
    if IsDir fileInfo then Some (ErrAccessFile fileType file)
    else if decide (Size fileInfo > maxSize)
    then Some (ErrTooLarge fileType file maxSize)
    else
      let ext := filepath_Ext (runtime_GOOS sys) file in
      if decide (ext ∈ allowed) then None
      else Some (ErrUnsupportedExtension fileType ext)
  end.

Definition main (sys : system) (fs : filesystem) (Args : list string)
  (saveDialog romDialog : option string) : outcome * filesystem :=
  let goos := runtime_GOOS sys in
  match arguments "save-converter.exe" Args saveDialog romDialog with
  | None => (Cancelled, fs)
  | Some [] => (Crashed, fs)
  | Some ((_ :: flags) as Args) =>
  if existsb is_help flags then (Usage, fs)
  else if decide (length Args ≠ 3%nat) then (InvalidArgument, fs)
  else
    let saveFile := nth 1 Args EmptyString in
    match validate sys fs saveFile maxSaveFileSize
            allowedSaveExtensions "Save" with
    | Some e => (Invalid e, fs)
    | None =>
      let saveExt := filepath_Ext goos saveFile in
      let romFile := nth 2 Args EmptyString in
      match validate sys fs romFile maxRomFileSize
              allowedRomExtensions "Rom" with
      | Some e => (Invalid e, fs)
      | None =>
        match Legacy.processRom fs (resolve sys romFile) with
        | Err e => (Failed e, fs)
        | Panic => (Crashed, fs)
        | Ok (cleanTitle, hashHex) =>
          let outputFile :=
            (cleanTitle ++ "-" ++ hashHex ++ saveExt)%string in
          if os_Create_fails sys outputFile then (NotCreated, fs)
          else
          match
            (if decide (saveExt ∈ nonConversionExtensions)
             then Legacy.copyFile fs (resolve sys saveFile)
                    (resolve sys outputFile)
             else Legacy.convertSaveFile fs (resolve sys saveFile)
                    (resolve sys outputFile))
          with
          | (Err e, fs') => (Failed e, fs')
          | (Panic, fs') => (Crashed, fs')
          | (Ok _, fs') => (Converted outputFile, fs')
          end
        end
      end
    end
  end.

End Legacy_main.

(** ** Words for the further properties *)

(** The 32-bit words of a slice, group by group, read in one byte order. *)
Definition words_BE (l : list byte) : list Z :=
  BigEndian_Uint32 <$> reshape (replicate (length l / 4) 4%nat) l.

Definition words_LE (l : list byte) : list Z :=
  LittleEndian_Uint32 <$> reshape (replicate (length l / 4) 4%nat) l.

(** An extension as the registry has them: a dot, then characters that
    are neither a dot nor a path separator. *)
Definition plain_extension (goos : GOOS) (ext : string) : Prop :=
  exists e, ext = String "."%char e
            /\ Forall (fun c => c <> "."%char /\ os_IsPathSeparator goos c = false)
                      (list_ascii_of_string e).

(** Two systems for the examples. In the first every path names the
    file of that name and there is no directory. In the second a path
    may be written with [./] in front, and [saves] is a directory. *)
Definition plain (goos : GOOS) : system :=
  {| runtime_GOOS := goos; resolve := id; directories := ∅ |}.

Definition dotted (goos : GOOS) : system :=
  {| runtime_GOOS := goos;
     resolve := fun path =>
       if String.prefix "./" path
       then String.substring 2 (String.length path - 2) path
       else path;
     directories := {["saves"%string := 4096]} |}.
(** * Properties *)

(** ** Bytes and words *)

Lemma u8_range b : 0 <= u8 b < 256.
Proof. unfold u8. pose proof (Byte.to_N_bounded b). lia. Qed.

Lemma byte_of_u8 b : byte_of_Z (u8 b) = b.
Proof.
  unfold byte_of_Z. pose proof (u8_range b) as Hr.
  rewrite Z.mod_small by lia. unfold u8.
  rewrite N2Z.id, Byte.of_to_N. reflexivity.
Qed.

Lemma u8_byte_of_Z v : u8 (byte_of_Z v) = v mod 256.
Proof.
  unfold byte_of_Z, u8.
  assert (Hr : 0 <= v mod 256 < 256) by (apply Z.mod_pos_bound; lia).
  destruct (Byte.of_N (Z.to_N (v mod 256))) as [b|] eqn:Hb.
  - apply Byte.to_of_N in Hb. simpl. rewrite Hb. lia.
  - apply Byte.of_N_None_iff in Hb. lia.
Qed.

Lemma u8_testbit_high b i : 8 <= i -> Z.testbit (u8 b) i = false.
Proof.
  intros Hi. pose proof (u8_range b) as Hr.
  destruct (Z.eq_dec (u8 b) 0) as [->|Hnz]; [apply Z.testbit_0_l|].
  apply Z.bits_above_log2; [lia|].
  apply Z.lt_le_trans with 8; [|lia].
  apply Z.log2_lt_pow2; lia.
Qed.

(** A byte is determined by its eight bits. *)
Lemma byte_of_Z_bits v b :
  (forall i, 0 <= i < 8 -> Z.testbit v i = Z.testbit (u8 b) i) ->
  byte_of_Z v = b.
Proof.
  intros Hbits. rewrite <- (byte_of_u8 b). unfold byte_of_Z. do 3 f_equal.
  change 256 with (2 ^ 8). apply Z.bits_inj'. intros i Hi.
  destruct (Z_lt_dec i 8).
  - rewrite !Z.mod_pow2_bits_low by lia. apply Hbits. lia.
  - rewrite !Z.mod_pow2_bits_high by lia. reflexivity.
Qed.

(** Decides the bit of a byte-assembled word: rewrites the bit of an
    [lor]/[shiftl]/[shiftr] down to bits of single bytes and drops the
    bytes that the index misses. *)
Ltac word_bits :=
  repeat first
    [ rewrite Z.lor_spec
    | rewrite Z.shiftr_spec by lia
    | rewrite Z.shiftl_spec by lia ];
  repeat match goal with
    | |- context [Z.testbit (u8 ?b) ?j] =>
        first [ rewrite (u8_testbit_high b j) by lia
              | rewrite (Z.testbit_neg_r (u8 b) j) by lia ]
    end;
  rewrite ?orb_false_r, ?orb_false_l;
  try (f_equal; lia).

Lemma swap32_BE_LE b0 b1 b2 b3 :
  LittleEndian_PutUint32 (BigEndian_Uint32 [b0; b1; b2; b3]) = [b3; b2; b1; b0].
Proof.
  unfold LittleEndian_PutUint32, BigEndian_Uint32, at_; simpl.
  repeat f_equal; apply byte_of_Z_bits; intros i Hi; word_bits.
Qed.

Lemma swap32_LE_BE b0 b1 b2 b3 :
  BigEndian_PutUint32 (LittleEndian_Uint32 [b0; b1; b2; b3]) = [b3; b2; b1; b0].
Proof.
  unfold BigEndian_PutUint32, LittleEndian_Uint32, at_; simpl.
  repeat f_equal; apply byte_of_Z_bits; intros i Hi; word_bits.
Qed.

Lemma swap16_LE_BE b0 b1 :
  BigEndian_PutUint16 (LittleEndian_Uint16 [b0; b1]) = [b1; b0].
Proof.
  unfold BigEndian_PutUint16, LittleEndian_Uint16, at_; simpl.
  repeat f_equal; apply byte_of_Z_bits; intros i Hi; word_bits.
Qed.

(** ** Induction over the groups of a slice *)

(** A slice of a whole number of 4-byte groups, group by group. *)
Lemma groups4_ind (P : list byte -> Prop) :
  P [] ->
  (forall b0 b1 b2 b3 rest, P rest -> P (b0 :: b1 :: b2 :: b3 :: rest)) ->
  forall l, (length l mod 4 = 0)%nat -> P l.
Proof.
  intros Hnil Hgroup l.
  induction l as [l IH] using (induction_ltof1 _ (@length byte)).
  unfold ltof in IH. intros Hlen.
  destruct l as [|b0 [|b1 [|b2 [|b3 rest]]]]; try discriminate.
  - exact Hnil.
  - cbn [length] in Hlen. apply Hgroup, IH; simpl; [lia|].
    replace (S (S (S (S (length rest))))) with (length rest + 1 * 4)%nat
      in Hlen by lia.
    rewrite Nat.Div0.mod_add in Hlen. exact Hlen.
Qed.

(** Any slice: whole groups, then a tail of fewer than 4 bytes. *)
Lemma groups4_tail_ind (P : list byte -> Prop) :
  (forall tail, (length tail < 4)%nat -> P tail) ->
  (forall b0 b1 b2 b3 rest, P rest -> P (b0 :: b1 :: b2 :: b3 :: rest)) ->
  forall l, P l.
Proof.
  intros Htail Hgroup l.
  induction l as [l IH] using (induction_ltof1 _ (@length byte)).
  unfold ltof in IH.
  destruct l as [|b0 [|b1 [|b2 [|b3 rest]]]];
    try (apply Htail; simpl; lia).
  apply Hgroup, IH. simpl. lia.
Qed.

Lemma groups2_ind (P : list byte -> Prop) :
  P [] ->
  (forall b0 b1 rest, P rest -> P (b0 :: b1 :: rest)) ->
  forall l, (length l mod 2 = 0)%nat -> P l.
Proof.
  intros Hnil Hgroup l.
  induction l as [l IH] using (induction_ltof1 _ (@length byte)).
  unfold ltof in IH. intros Hlen.
  destruct l as [|b0 [|b1 rest]]; try discriminate.
  - exact Hnil.
  - cbn [length] in Hlen. apply Hgroup, IH; simpl; [lia|].
    replace (S (S (length rest))) with (length rest + 1 * 2)%nat in Hlen by lia.
    rewrite Nat.Div0.mod_add in Hlen. exact Hlen.
Qed.

(** ** Reversal of every group *)

Lemma reverse_groups_nil n : reverse_groups n [] = [].
Proof.
  unfold reverse_groups. simpl.
  destruct n; [reflexivity|]. rewrite Nat.Div0.div_0_l. reflexivity.
Qed.

Lemma reverse_groups4_cons b0 b1 b2 b3 rest :
  reverse_groups 4 (b0 :: b1 :: b2 :: b3 :: rest)
  = b3 :: b2 :: b1 :: b0 :: reverse_groups 4 rest.
Proof.
  unfold reverse_groups.
  replace (length (b0 :: b1 :: b2 :: b3 :: rest))
    with (1 * 4 + length rest)%nat by (simpl; lia).
  rewrite Nat.div_add_l by lia. reflexivity.
Qed.

Lemma reverse_groups2_cons b0 b1 rest :
  reverse_groups 2 (b0 :: b1 :: rest) = b1 :: b0 :: reverse_groups 2 rest.
Proof.
  unfold reverse_groups.
  replace (length (b0 :: b1 :: rest))
    with (1 * 2 + length rest)%nat by (simpl; lia).
  rewrite Nat.div_add_l by lia. reflexivity.
Qed.

Lemma reverse_groups4_length l :
  (length l mod 4 = 0)%nat -> length (reverse_groups 4 l) = length l.
Proof.
  revert l. apply groups4_ind; [by rewrite reverse_groups_nil|].
  intros. rewrite reverse_groups4_cons. simpl. lia.
Qed.

Lemma reverse_groups2_length l :
  (length l mod 2 = 0)%nat -> length (reverse_groups 2 l) = length l.
Proof.
  revert l. apply groups2_ind; [by rewrite reverse_groups_nil|].
  intros. rewrite reverse_groups2_cons. simpl. lia.
Qed.

Lemma reverse_groups4_involutive l :
  (length l mod 4 = 0)%nat -> reverse_groups 4 (reverse_groups 4 l) = l.
Proof.
  revert l. apply groups4_ind; [by rewrite !reverse_groups_nil|].
  intros b0 b1 b2 b3 rest IH. rewrite !reverse_groups4_cons, IH. reflexivity.
Qed.

Lemma reverse_groups2_involutive l :
  (length l mod 2 = 0)%nat -> reverse_groups 2 (reverse_groups 2 l) = l.
Proof.
  revert l. apply groups2_ind; [by rewrite !reverse_groups_nil|].
  intros b0 b1 rest IH. rewrite !reverse_groups2_cons, IH. reflexivity.
Qed.

(** ** Header normalisation *)

Lemma convert_n64_groups rawHeader :
  (length rawHeader mod 4 = 0)%nat ->
  convert_n64 rawHeader = Ok (reverse_groups 4 rawHeader).
Proof.
  revert rawHeader. apply groups4_ind; [by rewrite reverse_groups_nil|].
  intros b0 b1 b2 b3 rest IH.
  cbn [convert_n64]. rewrite IH, swap32_LE_BE, reverse_groups4_cons.
  reflexivity.
Qed.

Lemma convert_v64_groups rawHeader :
  (length rawHeader mod 2 = 0)%nat ->
  convert_v64 rawHeader = Ok (reverse_groups 2 rawHeader).
Proof.
  revert rawHeader. apply groups2_ind; [by rewrite reverse_groups_nil|].
  intros b0 b1 rest IH.
  cbn [convert_v64]. rewrite IH, swap16_LE_BE, reverse_groups2_cons.
  reflexivity.
Qed.

(** A slice with a group cut short makes the conversion panic. *)
Lemma convert_n64_panics rawHeader :
  (length rawHeader mod 4 <> 0)%nat -> convert_n64 rawHeader = Panic.
Proof.
  induction rawHeader as [tail Htail|b0 b1 b2 b3 rest IH]
    using groups4_tail_ind; intros Hlen.
  - destruct tail as [|b0 [|b1 [|b2 [|b3 rest]]]]; simpl in *;
      try reflexivity; try lia; congruence.
  - cbn [convert_n64]. rewrite IH; [reflexivity|].
    intros Hrest. apply Hlen.
    replace (length (b0 :: b1 :: b2 :: b3 :: rest))
      with (length rest + 1 * 4)%nat by (simpl; lia).
    rewrite Nat.Div0.mod_add. exact Hrest.
Qed.

Lemma convertHeaderEndianness_z64 rawHeader :
  convertHeaderEndianness rawHeader "z64" = Ok rawHeader.
Proof. reflexivity. Qed.

Lemma convertHeaderEndianness_n64 rawHeader :
  (length rawHeader mod 4 = 0)%nat ->
  convertHeaderEndianness rawHeader "n64" = Ok (reverse_groups 4 rawHeader).
Proof. intros H. unfold convertHeaderEndianness. simpl. by apply convert_n64_groups. Qed.

Lemma convertHeaderEndianness_v64 rawHeader :
  (length rawHeader mod 2 = 0)%nat ->
  convertHeaderEndianness rawHeader "v64" = Ok (reverse_groups 2 rawHeader).
Proof. intros H. unfold convertHeaderEndianness. simpl. by apply convert_v64_groups. Qed.

Lemma mod4_of_64 (l : list byte) : length l = 64%nat -> (length l mod 4 = 0)%nat.
Proof. intros ->. reflexivity. Qed.

Lemma mod2_of_64 (l : list byte) : length l = 64%nat -> (length l mod 2 = 0)%nat.
Proof. intros ->. reflexivity. Qed.



(** ** Byte-order detection *)

Lemma detect_range_Ok_elem entries magicBytes mode :
  detectRomFormat_range entries magicBytes = Ok mode ->
  (mode, magicBytes) ∈ entries.
Proof.
  induction entries as [|[mode' magic] rest IH]; simpl; [discriminate|].
  case_decide as Heq.
  - intros [= <-]. subst. apply list_elem_of_here.
  - intros Hrest. apply list_elem_of_further, IH, Hrest.
Qed.

Lemma detect_range_elem_Ok entries magicBytes mode :
  NoDup entries.*2 ->
  (mode, magicBytes) ∈ entries ->
  detectRomFormat_range entries magicBytes = Ok mode.
Proof.
  induction entries as [|[mode' magic] rest IH]; simpl.
  - intros _ Hin. by apply elem_of_nil in Hin.
  - intros Hnodup Hin. apply NoDup_cons in Hnodup as [Hfresh Hnodup].
    apply elem_of_cons in Hin as [[= -> ->]|Hin].
    + by rewrite decide_True.
    + case_decide as Heq; [|by apply IH].
      subst. exfalso. apply Hfresh.
      apply (list_elem_of_fmap_2 snd) in Hin. exact Hin.
Qed.

Lemma detect_range_Err entries magicBytes :
  magicBytes ∉ entries.*2 ->
  detectRomFormat_range entries magicBytes
  = Err (ErrUnsupportedRomFormat magicBytes).
Proof.
  induction entries as [|[mode magic] rest IH]; simpl; [reflexivity|].
  intros Hnot. apply not_elem_of_cons in Hnot as [Hne Hrest].
  rewrite decide_False by exact Hne. by apply IH.
Qed.

(** The outcome of the detection is one of two: a mode of the table, or
    the unsupported-format error with the bytes; it never panics. *)
Lemma detect_range_cases entries magicBytes :
  (exists mode, detectRomFormat_range entries magicBytes = Ok mode
                /\ (mode, magicBytes) ∈ entries)
  \/ (detectRomFormat_range entries magicBytes
        = Err (ErrUnsupportedRomFormat magicBytes)
      /\ magicBytes ∉ entries.*2).
Proof.
  destruct (decide (magicBytes ∈ entries.*2)) as [Hin|Hnot].
  - left. destruct (detectRomFormat_range entries magicBytes) as [mode|e|] eqn:E.
    + exists mode. split; [reflexivity|]. by apply detect_range_Ok_elem.
    + exfalso. clear -Hin E.
      induction entries as [|[mode magic] rest IH]; simpl in *.
      * by apply elem_of_nil in Hin.
      * case_decide; [discriminate|].
        apply elem_of_cons in Hin as [?|?]; [congruence|]. by apply IH.
    + exfalso. clear -E.
      induction entries as [|[mode magic] rest IH]; simpl in *;
        [discriminate|]. case_decide; [discriminate|]. by apply IH.
  - right. split; [by apply detect_range_Err|exact Hnot].
Qed.

(** The order in which the table is visited does not change the outcome,
    because no two modes share their magic bytes. *)
Lemma detect_range_perm entries entries' magicBytes :
  NoDup entries.*2 ->
  entries' ≡ₚ entries ->
  detectRomFormat_range entries' magicBytes
  = detectRomFormat_range entries magicBytes.
Proof.
  intros Hnodup Hperm.
  assert (Hnodup' : NoDup entries'.*2) by (by rewrite Hperm).
  destruct (detect_range_cases entries magicBytes)
    as [(mode & -> & Hin)|[-> Hnot]].
  - apply detect_range_elem_Ok; [exact Hnodup'|by rewrite Hperm].
  - apply detect_range_Err. by rewrite Hperm.
Qed.

Lemma romFormats_NoDup : NoDup romFormats.*2.
Proof. compute_done. Qed.

Lemma romFormats_magics :
  romFormats.*2 = [magic_big_endian; magic_little_endian; magic_byte_swapped].
Proof. reflexivity. Qed.

Lemma io_ReadFull_whole (a rest : list byte) n :
  length a = n -> n <> 0%nat ->
  io_ReadFull (a ++ rest) n = (a, None, rest).
Proof.
  intros Hlen Hn. unfold io_ReadFull.
  rewrite length_app, !decide_False by lia.
  subst n. rewrite take_app_length, drop_app_length. reflexivity.
Qed.

(** The [switch] of the first version and the table of the later one
    decide alike on four bytes. *)
Lemma Legacy_romMode_of_detect magic :
  length magic = 4%nat -> Legacy.romMode_of magic = detectRomFormat magic.
Proof.
  intros Hlen.
  destruct magic as [|b0 [|b1 [|b2 [|b3 [|]]]]]; try discriminate.
  unfold Legacy.romMode_of, detectRomFormat. simpl.
  repeat case_decide; try reflexivity; exfalso;
    destruct_and?; simplify_eq; intuition congruence.
Qed.

(** C4. For every 64-byte header, the detection on its first 4 bytes
    returns ["z64"] on [80 37 12 40], ["n64"] on [40 12 37 80] and ["v64"]
    on [37 80 40 12]; it succeeds if and only if the bytes are one of
    these three; on any other bytes it returns the unsupported-format
    error that carries the bytes; the order in which Go visits the table
    does not matter; the inline [switch] of [main.go] decides alike; and
    [processRom] on a file that starts with such a header returns that
    error, hence no mode and no title. *)
Theorem C4_byte_order_detection (header : list byte) :
  length header = 64%nat ->
  let magic := take 4 header in
  let known := [magic_big_endian; magic_little_endian; magic_byte_swapped] in
  (magic = magic_big_endian -> detectRomFormat magic = Ok "z64"%string)
  /\ (magic = magic_little_endian -> detectRomFormat magic = Ok "n64"%string)
  /\ (magic = magic_byte_swapped -> detectRomFormat magic = Ok "v64"%string)
  /\ ((exists mode, detectRomFormat magic = Ok mode) <-> magic ∈ known)
  /\ (magic ∉ known ->
      detectRomFormat magic = Err (ErrUnsupportedRomFormat magic))
  /\ (forall entries, entries ≡ₚ romFormats ->
      detectRomFormat_range entries magic = detectRomFormat magic)
  /\ Legacy.romMode_of magic = detectRomFormat magic
  /\ (forall (fs : filesystem) romFile rest,
      fs !! romFile = Some (header ++ rest) ->
      magic ∉ known ->
      processRom fs romFile = Err (ErrUnsupportedRomFormat magic)
      /\ Legacy.processRom fs romFile = Err (ErrUnsupportedRomFormat magic)).
Proof.
  intros Hlen magic known.
  assert (Herr : magic ∉ known ->
                 detectRomFormat magic = Err (ErrUnsupportedRomFormat magic)).
  { intros Hnot. apply detect_range_Err. by rewrite romFormats_magics. }
  assert (Hlegacy : Legacy.romMode_of magic = detectRomFormat magic).
  { apply Legacy_romMode_of_detect. unfold magic.
    rewrite length_take. lia. }
  split; [by intros ->|]. split; [by intros ->|]. split; [by intros ->|].
  split; [|split; [exact Herr|split; [|split; [exact Hlegacy|]]]].
  - split.
    + intros [mode Hok]. apply detect_range_Ok_elem in Hok.
      apply (list_elem_of_fmap_2 snd) in Hok.
      by rewrite romFormats_magics in Hok.
    + intros Hin.
      destruct (detect_range_cases romFormats magic)
        as [(mode & Hok & _)|[_ Hnot]]; [by exists mode|].
      by rewrite romFormats_magics in Hnot.
  - intros entries Hperm. by apply detect_range_perm, Hperm; apply romFormats_NoDup.
  - intros fs romFile rest Hfs Hnot.
    unfold processRom, Legacy.processRom. rewrite Hfs.
    rewrite io_ReadFull_whole by (rewrite ?Hlen; done).
    fold magic. rewrite Hlegacy, (Herr Hnot). split; reflexivity.
Qed.

Lemma C4_byte_order_detection_witness :
  detectRomFormat (take 4 (replicate 64 x00))
  = Err (ErrUnsupportedRomFormat [x00; x00; x00; x00]).
Proof.
  pose proof (C4_byte_order_detection (replicate 64 x00) eq_refl)
    as (_ & _ & _ & _ & Herr & _).
  apply Herr. compute_done.
Defined.

(** ** Runes *)

Lemma land_le_r a b : 0 <= a -> 0 <= b -> Z.land a b <= b.
Proof.
  intros Ha Hb.
  assert (Hsplit : Z.lor (Z.land a b) (Z.ldiff b a) = b).
  { apply Z.bits_inj'. intros i Hi.
    rewrite Z.lor_spec, Z.land_spec, Z.ldiff_spec.
    destruct (Z.testbit a i), (Z.testbit b i); reflexivity. }
  assert (Hdisj : Z.land (Z.land a b) (Z.ldiff b a) = 0).
  { apply Z.bits_inj'. intros i Hi.
    rewrite !Z.land_spec, Z.ldiff_spec, Z.bits_0.
    destruct (Z.testbit a i), (Z.testbit b i); reflexivity. }
  pose proof (Z.add_lor_land (Z.land a b) (Z.ldiff b a)) as Hadd.
  rewrite Hsplit, Hdisj in Hadd.
  assert (0 <= Z.ldiff b a) by (apply Z.ldiff_nonneg; lia).
  lia.
Qed.

Lemma lor_ge_l a b : 0 <= a -> 0 <= b -> a <= Z.lor a b.
Proof.
  intros Ha Hb. pose proof (Z.add_lor_land a b).
  pose proof (land_le_r a b Ha Hb). lia.
Qed.

Lemma lor_ge_r a b : 0 <= a -> 0 <= b -> b <= Z.lor a b.
Proof. intros Ha Hb. rewrite Z.lor_comm. by apply lor_ge_l. Qed.

Lemma land_mask_mod a n : 0 <= n -> Z.land a (Z.ones n) = a mod 2 ^ n.
Proof. apply Z.land_ones. Qed.

(** A rune the title keeps is an ASCII character. *)
Lemma title_rune_ascii r : title_rune r = true -> 0 <= r < 0x80.
Proof. unfold title_rune. lia. Qed.

Lemma title_rune_char b : title_rune (u8 b) = title_char b.
Proof. reflexivity. Qed.

Lemma title_char_ascii b : title_char b = true -> u8 b < 0x80.
Proof. rewrite <- title_rune_char. intros H. apply title_rune_ascii in H. lia. Qed.

(** What the first byte of a multi-byte sequence announces: the bytes
    that may follow are no ASCII characters and the rune is none either. *)
Lemma first_seq s0 sz lo hi :
  utf8.first s0 = utf8.seq_ sz lo hi ->
  0x80 <= s0 /\ 0x80 <= lo /\ hi <= 0xBF
  /\ ((sz = 2%nat /\ 0xC2 <= s0 < 0xE0)
      \/ (sz = 3%nat /\ 0xE0 <= s0 < 0xF0 /\ (s0 = 0xE0 -> 0xA0 <= lo))
      \/ (sz = 4%nat /\ 0xF0 <= s0 < 0xF5 /\ (s0 = 0xF0 -> 0x90 <= lo))).
Proof.
  unfold utf8.first, utf8.locb, utf8.hicb.
  repeat match goal with
         | |- context [if ?c then _ else _] => destruct c eqn:?
         end; intros [= <- <- <-] || discriminate; lia.
Qed.

Lemma first_ascii s0 : 0 <= s0 -> utf8.first s0 = utf8.ascii_ <-> s0 < 0x80.
Proof.
  intros H0. unfold utf8.first.
  repeat match goal with
         | |- context [if ?c then _ else _] => destruct c eqn:?
         end; split; intros; try discriminate; try reflexivity; lia.
Qed.

Lemma title_rune_RuneError : title_rune utf8.RuneError = false.
Proof. reflexivity. Qed.

Lemma title_rune_large r : 0x80 <= r -> title_rune r = false.
Proof. unfold title_rune. lia. Qed.

Lemma high_not_title b : high b -> title_char b = false.
Proof.
  unfold high. intros H. destruct (title_char b) eqn:E; [|reflexivity].
  apply title_char_ascii in E. lia.
Qed.

Ltac land_masks :=
  change utf8.mask2 with (Z.ones 5); change utf8.mask3 with (Z.ones 4);
  change utf8.mask4 with (Z.ones 3); change utf8.maskx with (Z.ones 6);
  rewrite ?Z.land_ones by lia.

(** [DecodeRuneInString] on a string that is not empty: an ASCII byte is
    its own rune, of width 1; otherwise the rune is no title character
    and the bytes of the sequence after the first are no ASCII bytes. *)
Lemma DecodeRuneInString_cases b0 rest :
  let '(r, width) := utf8.DecodeRuneInString (b0 :: rest) in
  (u8 b0 < 0x80 /\ r = u8 b0 /\ width = 1%nat)
  \/ (0x80 <= u8 b0 /\ title_rune r = false /\ (1 <= width)%nat
      /\ Forall high (take (width - 1) rest)).
Proof.
  pose proof (u8_range b0) as Hb0.
  unfold utf8.DecodeRuneInString.
  destruct (utf8.first (u8 b0)) as [| |sz lo hi] eqn:Hfirst.
  - left. apply first_ascii in Hfirst; [|lia]. done.
  - right. assert (~ u8 b0 < 0x80).
    { intros Hlt. apply first_ascii in Hlt; [|lia]. congruence. }
    repeat split; [lia|lia|constructor].
  - apply first_seq in Hfirst as (Hs0 & Hlo & Hhi & Hsz).
    assert (Herr : 0x80 <= u8 b0 /\ title_rune utf8.RuneError = false
                   /\ (1 <= 1)%nat /\ Forall high (take (1 - 1) rest))
      by (repeat split; [lia|lia|constructor]).
    destruct (length (b0 :: rest) <? sz)%nat eqn:Hlen; [by right|].
    apply Nat.ltb_ge in Hlen. cbn [length] in Hlen.
    destruct rest as [|b1 rest]; [simpl in Hlen; lia|].
    pose proof (u8_range b1) as Hb1.
    unfold at_. cbn [nth].
    destruct ((u8 b1 <? lo) || (hi <? u8 b1)) eqn:H1; [by right|].
    apply orb_false_iff in H1 as [H1 H1']. apply Z.ltb_ge in H1, H1'.
    assert (Hh1 : high b1) by (unfold high; lia).
    destruct (sz <=? 2)%nat eqn:Hsz2.
    { right. split; [lia|]. split; [|split; [lia|by repeat constructor]].
      apply title_rune_large. land_masks.
      assert (sz = 2%nat) as -> by (apply Nat.leb_le in Hsz2; lia).
      destruct Hsz as [[_ Hr]|[[? _]|[? _]]]; try discriminate.
      etrans; [|apply lor_ge_l].
      - rewrite Z.shiftl_mul_pow2 by lia.
        Z.to_euclidean_division_equations; lia.
      - apply Z.shiftl_nonneg. Z.to_euclidean_division_equations; lia.
      - Z.to_euclidean_division_equations; lia. }
    apply Nat.leb_gt in Hsz2.
    destruct rest as [|b2 rest]; [simpl in Hlen; lia|].
    pose proof (u8_range b2) as Hb2. cbn [nth].
    destruct ((u8 b2 <? utf8.locb) || (utf8.hicb <? u8 b2)) eqn:H2;
      [by right|].
    apply orb_false_iff in H2 as [H2 _]. apply Z.ltb_ge in H2.
    assert (Hh2 : high b2) by exact H2.
    destruct (sz <=? 3)%nat eqn:Hsz3.
    { right. split; [lia|]. split; [|split; [lia|by repeat constructor]].
      apply title_rune_large. land_masks.
      assert (sz = 3%nat) as -> by (apply Nat.leb_le in Hsz3; lia).
      destruct Hsz as [[? _]|[[_ [Hr Hlo']]|[? _]]]; try discriminate.
      etrans; [|apply lor_ge_l].
      - assert (Hx : 0 <= Z.shiftl (u8 b0 mod 2 ^ 4) 12
                     /\ 0 <= Z.shiftl (u8 b1 mod 2 ^ 6) 6).
        { split; apply Z.shiftl_nonneg; Z.to_euclidean_division_equations; lia. }
        destruct (Z.eq_dec (u8 b0) 0xE0) as [He0|Hne0].
        + etrans; [|apply lor_ge_r; lia].
          rewrite Z.shiftl_mul_pow2 by lia. specialize (Hlo' He0).
          Z.to_euclidean_division_equations; lia.
        + etrans; [|apply lor_ge_l; lia].
          rewrite Z.shiftl_mul_pow2 by lia.
          Z.to_euclidean_division_equations; lia.
      - apply Z.lor_nonneg; split; apply Z.shiftl_nonneg;
          Z.to_euclidean_division_equations; lia.
      - Z.to_euclidean_division_equations; lia. }
    apply Nat.leb_gt in Hsz3.
    destruct rest as [|b3 rest]; [simpl in Hlen; lia|].
    pose proof (u8_range b3) as Hb3. cbn [nth].
    destruct ((u8 b3 <? utf8.locb) || (utf8.hicb <? u8 b3)) eqn:H3;
      [by right|].
    apply orb_false_iff in H3 as [H3 _]. apply Z.ltb_ge in H3.
    assert (Hh3 : high b3) by exact H3.
    right. split; [lia|]. split; [|split; [lia|by repeat constructor]].
    apply title_rune_large. land_masks.
    destruct Hsz as [[? _]|[[? _]|[_ [Hr Hlo']]]]; try lia.
    assert (Hx : 0 <= Z.shiftl (u8 b0 mod 2 ^ 3) 18
                 /\ 0 <= Z.shiftl (u8 b1 mod 2 ^ 6) 12
                 /\ 0 <= Z.shiftl (u8 b2 mod 2 ^ 6) 6
                 /\ 0 <= u8 b3 mod 2 ^ 6).
    { repeat split; try apply Z.shiftl_nonneg;
        Z.to_euclidean_division_equations; lia. }
    etrans; [|apply lor_ge_l; [|lia]];
      [|repeat (apply Z.lor_nonneg; split); lia].
    etrans; [|apply lor_ge_l; [|lia]]; [|apply Z.lor_nonneg; lia].
    destruct (Z.eq_dec (u8 b0) 0xF0) as [He0|Hne0].
    + etrans; [|apply lor_ge_r; lia].
      rewrite Z.shiftl_mul_pow2 by lia. specialize (Hlo' He0).
      Z.to_euclidean_division_equations; lia.
    + etrans; [|apply lor_ge_l; lia].
      rewrite Z.shiftl_mul_pow2 by lia.
      Z.to_euclidean_division_equations; lia.
Qed.

Lemma AppendRune_ascii p b :
  u8 b < 0x80 -> utf8.AppendRune p (u8 b) = p ++ [b].
Proof.
  intros Hb. pose proof (u8_range b). unfold utf8.AppendRune, utf8.rune1Max.
  replace ((0 <=? u8 b) && (u8 b <=? 127)) with true by lia.
  by rewrite byte_of_u8.
Qed.

(** ** The title loop keeps the title characters, byte by byte *)

Lemma filter_high_prefix k (s : list byte) :
  Forall high (take k s) ->
  List.filter title_char (drop k s) = List.filter title_char s.
Proof.
  revert s. induction k as [|k IH]; intros [|b s]; simpl; try reflexivity.
  intros Hall. apply Forall_cons in Hall as [Hb Hall].
  rewrite (high_not_title b Hb). by apply IH.
Qed.

Lemma title_loop_filter skip title cleanTitleRunes :
  Forall high (take skip title) ->
  title_loop skip title cleanTitleRunes
  = cleanTitleRunes ++ List.filter title_char (drop skip title).
Proof.
  revert skip cleanTitleRunes.
  induction title as [|b rest IH]; intros skip acc Hall.
  - simpl. by rewrite drop_nil, app_nil_r.
  - destruct skip as [|skip].
    + cbn [title_loop drop].
      pose proof (DecodeRuneInString_cases b rest) as Hdec.
      destruct (utf8.DecodeRuneInString (b :: rest)) as [r width].
      destruct Hdec as [(Hlt & -> & ->)|(Hge & Hr & Hw & Hhigh)].
      * rewrite IH by constructor. simpl. rewrite title_rune_char.
        destruct (title_char b); [|reflexivity].
        rewrite AppendRune_ascii by exact Hlt. by rewrite <- app_assoc.
      * rewrite Hr, IH by exact Hhigh. simpl.
        rewrite (high_not_title b Hge). by rewrite filter_high_prefix.
    + simpl in *. apply Forall_cons in Hall as [_ Hall]. by apply IH.
Qed.

(** The first version collects runes and encodes them at the end; the
    bytes are the same. *)
Lemma Legacy_title_loop_bytes skip title runes :
  fold_left utf8.AppendRune (Legacy.title_loop skip title runes) []
  = title_loop skip title (fold_left utf8.AppendRune runes []).
Proof.
  revert skip runes. induction title as [|b rest IH]; intros skip runes.
  - reflexivity.
  - destruct skip as [|skip]; cbn [Legacy.title_loop title_loop]; [|apply IH].
    destruct (utf8.DecodeRuneInString (b :: rest)) as [r width].
    rewrite IH. destruct (title_rune r); [|reflexivity].
    by rewrite fold_left_app.
Qed.

(** ** Trailing spaces *)

Lemma trimLeftByte_split s c :
  exists k, s = replicate k c ++ trimLeftByte s c
            /\ head (trimLeftByte s c) <> Some c.
Proof.
  induction s as [|b rest (k & Hs & Hhead)]; simpl.
  - exists 0%nat. done.
  - case_decide as Heq.
    + subst b. exists (S k). simpl. split; [by f_equal|exact Hhead].
    + exists 0%nat. simpl. split; [reflexivity|congruence].
Qed.







(** ** The byte-swap loop *)

Lemma reverse_groups4_tail tail :
  (length tail < 4)%nat -> reverse_groups 4 tail = [].
Proof.
  intros Hlen. unfold reverse_groups.
  rewrite Nat.div_small by exact Hlen. reflexivity.
Qed.

Lemma mod4_cons4 (b0 b1 b2 b3 : byte) rest :
  (length (b0 :: b1 :: b2 :: b3 :: rest) mod 4 = length rest mod 4)%nat.
Proof.
  replace (length (b0 :: b1 :: b2 :: b3 :: rest))
    with (length rest + 1 * 4)%nat by (simpl; lia).
  apply Nat.Div0.mod_add.
Qed.

(** Only the whole groups count. *)
Lemma reverse_groups4_whole l :
  reverse_groups 4 (take (length l / 4 * 4) l) = reverse_groups 4 l.
Proof.
  induction l as [tail Htail|b0 b1 b2 b3 rest IH] using groups4_tail_ind.
  - rewrite Nat.div_small by exact Htail. simpl.
    by rewrite reverse_groups_nil, reverse_groups4_tail.
  - replace (length (b0 :: b1 :: b2 :: b3 :: rest))
      with (1 * 4 + length rest)%nat by (simpl; lia).
    rewrite Nat.div_add_l by lia.
    replace ((1 + length rest / 4) * 4)%nat
      with (S (S (S (S (length rest / 4 * 4))))) by lia.
    cbn [take]. by rewrite !reverse_groups4_cons, IH.
Qed.

Lemma io_ReadFull_nil n : io_ReadFull [] n = ([], Some io_EOF, []).
Proof. reflexivity. Qed.

Lemma io_ReadFull_short (r : list byte) n :
  (0 < length r < n)%nat -> io_ReadFull r n = (r, Some io_ErrUnexpectedEOF, []).
Proof.
  intros Hlen. unfold io_ReadFull.
  rewrite decide_False, decide_True by lia. reflexivity.
Qed.

Lemma io_ReadFull_group4 b0 b1 b2 b3 rest :
  io_ReadFull (b0 :: b1 :: b2 :: b3 :: rest) 4 = ([b0; b1; b2; b3], None, rest).
Proof. apply (io_ReadFull_whole [b0; b1; b2; b3]); done. Qed.

(** One turn of the loop, as the source writes it. *)
Lemma convert_loop_turn inFile outFile :
  convert_loop inFile outFile =
  match io_ReadFull inFile 4 with
  | (_, Some io_EOF, _) => (Ok tt, outFile)
  | (_, Some e, _) => (Err (ErrReadSave e), outFile)
  | (buf, None, inFile') =>
    if decide (length buf = 4%nat)
    then convert_loop inFile'
           (Write outFile (LittleEndian_PutUint32 (BigEndian_Uint32 buf)))
    else (Err (ErrUnexpectedReadSize (length buf)), outFile)
  end.
Proof.
  funelim (convert_loop inFile outFile);
    match goal with Hr : io_ReadFull _ _ = _ |- _ => rewrite Hr end;
    try reflexivity.
  - by rewrite decide_True.
  - by rewrite decide_False.
Qed.

Lemma convert_loop_nil outFile : convert_loop [] outFile = (Ok tt, outFile).
Proof. rewrite convert_loop_turn. reflexivity. Qed.

Lemma convert_loop_short tail outFile :
  (0 < length tail < 4)%nat ->
  convert_loop tail outFile = (Err (ErrReadSave io_ErrUnexpectedEOF), outFile).
Proof.
  intros Hlen. rewrite convert_loop_turn.
  rewrite io_ReadFull_short by exact Hlen. reflexivity.
Qed.

Lemma convert_loop_group b0 b1 b2 b3 rest outFile :
  convert_loop (b0 :: b1 :: b2 :: b3 :: rest) outFile
  = convert_loop rest (outFile ++ [b3; b2; b1; b0]).
Proof.
  rewrite convert_loop_turn, io_ReadFull_group4.
  rewrite decide_True by reflexivity.
  unfold Write, file_Writer. by rewrite swap32_BE_LE.
Qed.

(** The test [n != 4] after a read without error never holds: the error
    of an unexpected read size is never returned. *)
Lemma io_ReadFull_no_error_full (r : list byte) n buf rest :
  io_ReadFull r n = (buf, None, rest) -> length buf = n.
Proof.
  unfold io_ReadFull. repeat case_decide; intros [= <- <-].
  rewrite length_take. lia.
Qed.

(** What the loop returns, on any source: the whole groups reversed are
    in the destination; the call succeeds when nothing follows them and
    fails with the wrapped [io.ErrUnexpectedEOF] otherwise. *)
Lemma convert_loop_spec inFile outFile :
  convert_loop inFile outFile
  = (if decide (length inFile mod 4 = 0)%nat then Ok tt
     else Err (ErrReadSave io_ErrUnexpectedEOF),
     outFile ++ reverse_groups 4 inFile).
Proof.
  revert outFile.
  induction inFile as [tail Htail|b0 b1 b2 b3 rest IH]
    using groups4_tail_ind; intros outFile.
  - rewrite reverse_groups4_tail, app_nil_r by exact Htail.
    rewrite Nat.mod_small by exact Htail.
    destruct tail as [|b tail].
    + by rewrite convert_loop_nil.
    + rewrite convert_loop_short by (simpl in *; lia).
      by rewrite decide_False.
  - rewrite convert_loop_group, IH, mod4_cons4, reverse_groups4_cons.
    by rewrite <- app_assoc.
Qed.

Lemma Read_nil n : Read [] n = ([], Some io_EOF, []).
Proof. reflexivity. Qed.

Lemma Legacy_convert_loop_turn inFile outFile :
  Legacy.convert_loop inFile outFile =
  match Read inFile 4 with
  | (_, Some io_EOF, _) => (Ok tt, outFile)
  | (_, Some e, _) => (Err (ErrReadSave e), outFile)
  | (buf, None, inFile') =>
    if decide (length buf < 4)%nat
    then (Err ErrNotMultipleOf4, outFile)
    else Legacy.convert_loop inFile'
           (Write outFile (LittleEndian_PutUint32 (BigEndian_Uint32 buf)))
  end.
Proof.
  funelim (Legacy.convert_loop inFile outFile);
    match goal with Hr : Read _ _ = _ |- _ => rewrite Hr end;
    try reflexivity.
  - by rewrite decide_True.
  - by rewrite decide_False.
Qed.

Lemma Legacy_convert_loop_nil outFile :
  Legacy.convert_loop [] outFile = (Ok tt, outFile).
Proof. rewrite Legacy_convert_loop_turn. reflexivity. Qed.

Lemma Legacy_convert_loop_short tail outFile :
  (0 < length tail < 4)%nat ->
  Legacy.convert_loop tail outFile = (Err ErrNotMultipleOf4, outFile).
Proof.
  intros Hlen. rewrite Legacy_convert_loop_turn.
  destruct tail as [|b0 [|b1 [|b2 [|b3 rest]]]]; simpl in Hlen; try lia;
    reflexivity.
Qed.

Lemma Legacy_convert_loop_group b0 b1 b2 b3 rest outFile :
  Legacy.convert_loop (b0 :: b1 :: b2 :: b3 :: rest) outFile
  = Legacy.convert_loop rest (outFile ++ [b3; b2; b1; b0]).
Proof.
  rewrite Legacy_convert_loop_turn. cbn [Read take drop].
  rewrite decide_False by (simpl; lia).
  unfold Write, file_Writer. by rewrite swap32_BE_LE.
Qed.

Lemma Legacy_convert_loop_spec inFile outFile :
  Legacy.convert_loop inFile outFile
  = (if decide (length inFile mod 4 = 0)%nat then Ok tt
     else Err ErrNotMultipleOf4,
     outFile ++ reverse_groups 4 inFile).
Proof.
  revert outFile.
  induction inFile as [tail Htail|b0 b1 b2 b3 rest IH]
    using groups4_tail_ind; intros outFile.
  - rewrite reverse_groups4_tail, app_nil_r by exact Htail.
    rewrite Nat.mod_small by exact Htail.
    destruct tail as [|b tail].
    + by rewrite Legacy_convert_loop_nil.
    + rewrite Legacy_convert_loop_short by (simpl in *; lia).
      by rewrite decide_False.
  - rewrite Legacy_convert_loop_group, IH, mod4_cons4, reverse_groups4_cons.
    by rewrite <- app_assoc.
Qed.

(** ** [convertSaveFile] on the file system *)

Lemma convertSaveFile_spec (fs : filesystem) src dst payload :
  fs !! src = Some payload -> src <> dst ->
  convertSaveFile fs src dst
  = (if decide (length payload mod 4 = 0)%nat then Ok tt
     else Err (ErrReadSave io_ErrUnexpectedEOF),
     <[dst := reverse_groups 4 payload]> fs).
Proof.
  intros Hsrc Hne. unfold convertSaveFile. rewrite Hsrc.
  rewrite lookup_insert_ne, Hsrc by done. simpl.
  rewrite convert_loop_spec, insert_insert_eq. reflexivity.
Qed.

Lemma Legacy_convertSaveFile_spec (fs : filesystem) src dst payload :
  fs !! src = Some payload -> src <> dst ->
  Legacy.convertSaveFile fs src dst
  = (if decide (length payload mod 4 = 0)%nat then Ok tt
     else Err ErrNotMultipleOf4,
     <[dst := reverse_groups 4 payload]> fs).
Proof.
  intros Hsrc Hne. unfold Legacy.convertSaveFile. rewrite Hsrc.
  rewrite lookup_insert_ne, Hsrc by done. simpl.
  rewrite Legacy_convert_loop_spec, insert_insert_eq. reflexivity.
Qed.

(** Source and destination under one path: the file is truncated before
    it is read. *)
Lemma convertSaveFile_same_path (fs : filesystem) src :
  is_Some (fs !! src) ->
  convertSaveFile fs src src = (Ok tt, <[src := []]> fs)
  /\ Legacy.convertSaveFile fs src src = (Ok tt, <[src := []]> fs).
Proof.
  intros [payload Hsrc]. unfold convertSaveFile, Legacy.convertSaveFile.
  rewrite Hsrc, lookup_insert_eq. simpl.
  rewrite convert_loop_nil, Legacy_convert_loop_nil, insert_insert_eq.
  done.
Qed.

(** C6. For every save payload whose length is a multiple of 4, the
    byte-swap conversion succeeds and writes the payload with every
    4-byte group reversed, and the conversion of that output succeeds and
    writes the original payload: applied twice, the conversion is the
    identity. The same holds of the conversion of [main.go]. *)
Theorem C6_byte_swap_involution (fs : filesystem) (src mid dst : string)
  (payload : list byte) :
  fs !! src = Some payload ->
  (length payload mod 4 = 0)%nat ->
  src <> mid -> mid <> dst ->
  (let '(r1, fs1) := convertSaveFile fs src mid in
   let '(r2, fs2) := convertSaveFile fs1 mid dst in
   r1 = Ok tt /\ fs1 !! mid = Some (reverse_groups 4 payload)
   /\ r2 = Ok tt /\ fs2 !! dst = Some payload)
  /\ (let '(r1, fs1) := Legacy.convertSaveFile fs src mid in
      let '(r2, fs2) := Legacy.convertSaveFile fs1 mid dst in
      r1 = Ok tt /\ fs1 !! mid = Some (reverse_groups 4 payload)
      /\ r2 = Ok tt /\ fs2 !! dst = Some payload)
  /\ reverse_groups 4 (reverse_groups 4 payload) = payload.
Proof.
  intros Hsrc Hlen Hne1 Hne2.
  pose proof (reverse_groups4_length _ Hlen) as Hlen'.
  assert (Hmid : (length (reverse_groups 4 payload) mod 4 = 0)%nat)
    by (by rewrite Hlen').
  rewrite (convertSaveFile_spec fs src mid payload) by done.
  rewrite (Legacy_convertSaveFile_spec fs src mid payload) by done.
  rewrite (convertSaveFile_spec _ mid dst (reverse_groups 4 payload))
    by (by rewrite ?lookup_insert_eq).
  rewrite (Legacy_convertSaveFile_spec _ mid dst (reverse_groups 4 payload))
    by (by rewrite ?lookup_insert_eq).
  rewrite !decide_True by done.
  rewrite !lookup_insert_eq, reverse_groups4_involutive by done.
  done.
Qed.

Lemma C6_byte_swap_involution_witness :
  reverse_groups 4 (reverse_groups 4 [x01; x02; x03; x04; x05; x06; x07; x08])
  = [x01; x02; x03; x04; x05; x06; x07; x08].
Proof.
  pose proof (C6_byte_swap_involution
                {["a.sra"%string := [x01; x02; x03; x04; x05; x06; x07; x08]]}
                "a.sra" "b.sra" "c.sra"
                [x01; x02; x03; x04; x05; x06; x07; x08]
                (lookup_singleton_eq _ _) eq_refl
                ltac:(discriminate) ltac:(discriminate)) as (_ & _ & Hinv).
  exact Hinv.
Defined.

(** C7. What the code does with a save payload whose length is not a
    multiple of 4. The first version ([main.go]) fails with the error of
    its own for this, "save file size is not a multiple of 4 bytes". The
    later version fails too, but with the error of a failed read, "Error
    reading save file", around [io.ErrUnexpectedEOF], which [io.ReadFull]
    returns for a group cut short: the error it has for a size mismatch,
    "unexpected read size", is returned on no input, its test [n != 4]
    coming after a read that has either failed or filled the buffer. In
    both versions the incomplete group is not written, neither as it is
    nor padded, and for every payload whose length is a multiple of 4 the
    conversion succeeds, the output having the length of the payload. *)
Theorem C7_misaligned_save_data (fs : filesystem) (src dst : string)
  (payload : list byte) :
  fs !! src = Some payload -> src <> dst ->
  ((length payload mod 4 <> 0)%nat ->
     (convertSaveFile fs src dst).1 = Err (ErrReadSave io_ErrUnexpectedEOF)
     /\ (Legacy.convertSaveFile fs src dst).1 = Err ErrNotMultipleOf4
     /\ (convertSaveFile fs src dst).2 !! dst
        = Some (reverse_groups 4 (take (length payload / 4 * 4) payload))
     /\ (Legacy.convertSaveFile fs src dst).2 !! dst
        = Some (reverse_groups 4 (take (length payload / 4 * 4) payload)))
  /\ ((length payload mod 4 = 0)%nat ->
     (convertSaveFile fs src dst).1 = Ok tt
     /\ (Legacy.convertSaveFile fs src dst).1 = Ok tt
     /\ (convertSaveFile fs src dst).2 !! dst = Some (reverse_groups 4 payload)
     /\ (Legacy.convertSaveFile fs src dst).2 !! dst
        = Some (reverse_groups 4 payload)
     /\ length (reverse_groups 4 payload) = length payload)
  /\ (forall n,
        (convertSaveFile fs src dst).1 <> Err (ErrUnexpectedReadSize n)).
Proof.
  intros Hsrc Hne.
  rewrite (convertSaveFile_spec fs src dst payload) by done.
  rewrite (Legacy_convertSaveFile_spec fs src dst payload) by done.
  cbn [fst snd]. rewrite lookup_insert_eq.
  split; [|split]; [intros Hlen..|intros n].
  - rewrite !decide_False by done.
    by rewrite reverse_groups4_whole.
  - rewrite !decide_True by done. repeat split.
    by apply reverse_groups4_length.
  - by case_decide.
Qed.

Lemma C7_misaligned_save_data_witness :
  (convertSaveFile {["a.sra"%string := [x01; x02; x03; x04; x05; x06]]}
     "a.sra" "b.sra").1
  = Err (ErrReadSave io_ErrUnexpectedEOF).
Proof.
  pose proof (C7_misaligned_save_data
                {["a.sra"%string := [x01; x02; x03; x04; x05; x06]]}
                "a.sra" "b.sra" [x01; x02; x03; x04; x05; x06]
                (lookup_singleton_eq _ _) ltac:(discriminate)) as [Hbad _].
  apply Hbad. discriminate.
Defined.

(** ** The copy loop *)

(** The copy loop writes the source in consecutive pieces, none empty. *)
Lemma copyBuffer_writes {W} `{Writer W} (dst : W) (src : list byte) (k : nat) :
  exists pieces,
    mjoin pieces = src
    /\ copyBuffer dst src k = fold_left Write pieces dst.
Proof.
  remember (length src) as n eqn:Hn. revert dst src Hn.
  induction n as [n IH] using lt_wf_ind. intros dst src ->.
  destruct src as [|b r].
  - exists []. by rewrite copyBuffer_equation_1.
  - rewrite copyBuffer_equation_2.
    destruct (IH (length (drop (S k) (b :: r)))
                 ltac:(simpl; rewrite length_drop; lia)
                 (Write dst (take (S k) (b :: r)))
                 (drop (S k) (b :: r)) eq_refl) as (pieces & Hjoin & Hcopy).
    exists (take (S k) (b :: r) :: pieces). split.
    + change (take (S k) (b :: r) ++ mjoin pieces = b :: r).
      rewrite Hjoin. apply take_drop.
    + rewrite Hcopy. reflexivity.
Qed.

Lemma fold_left_file_Write (pieces : list (list byte)) (out : list byte) :
  fold_left Write pieces out = out ++ mjoin pieces.
Proof.
  revert out. induction pieces as [|p pieces IH]; intros out; simpl.
  - by rewrite app_nil_r.
  - rewrite IH. unfold Write, file_Writer. by rewrite <- app_assoc.
Qed.

(** Into a file, the copy loop appends the source. *)
Lemma copyBuffer_file (out src : list byte) k :
  copyBuffer out src k = out ++ src.
Proof.
  destruct (copyBuffer_writes out src k) as (pieces & <- & ->).
  apply fold_left_file_Write.
Qed.

Lemma io_Copy_file (out src : list byte) : io_Copy out src = out ++ src.
Proof. apply copyBuffer_file. Qed.

(** ** [copyFile] *)

Lemma copyFile_direct (fs : filesystem) src dst payload :
  fs !! src = Some payload -> src <> dst ->
  copyFile fs src dst 0 = (Ok tt, <[dst := payload]> fs).
Proof.
  intros Hsrc Hne. unfold copyFile. rewrite Hsrc.
  rewrite lookup_insert_ne, Hsrc by done. simpl.
  by rewrite io_Copy_file, insert_insert_eq.
Qed.

Lemma copyFile_same_path (fs : filesystem) src targetSize :
  is_Some (fs !! src) ->
  copyFile fs src src targetSize
  = (if decide (targetSize = 0) then Ok tt else Err ErrSourceEmpty,
     <[src := []]> fs).
Proof.
  intros [payload Hsrc]. unfold copyFile.
  rewrite Hsrc, lookup_insert_eq. simpl.
  case_decide; [|reflexivity].
  by rewrite io_Copy_file, insert_insert_eq.
Qed.

Lemma copyFile_empty (fs : filesystem) src dst targetSize :
  fs !! src = Some [] ->
  copyFile fs src dst targetSize
  = (if decide (targetSize = 0) then Ok tt else Err ErrSourceEmpty,
     <[dst := []]> fs).
Proof.
  intros Hsrc. destruct (decide (src = dst)) as [<-|Hne].
  { by apply copyFile_same_path. }
  unfold copyFile. rewrite Hsrc. rewrite lookup_insert_ne, Hsrc by done.
  simpl. case_decide; [|reflexivity].
  by rewrite io_Copy_file, insert_insert_eq.
Qed.

Lemma iter_Write_replicate (unit out : list byte) n :
  Nat.iter n (fun out => Write out unit) out = out ++ mjoin (replicate n unit).
Proof.
  induction n as [|n IH]; simpl.
  - by rewrite app_nil_r.
  - rewrite IH. unfold Write, file_Writer. rewrite <- app_assoc. f_equal.
    change (unit ++ mjoin (replicate n unit)) with (mjoin (replicate (S n) unit)).
    rewrite replicate_S_end, join_app. simpl. by rewrite app_nil_r.
Qed.

(** The writes of [copyFile] after the data was trimmed and padded: the
    unit, its further copies and the final padding make the tiling of the
    specification. *)
Lemma copyFile_writes_tiled (unit : list byte) (fileSize targetSize : Z) :
  fileSize = Z.of_nat (length unit) ->
  0 < fileSize <= targetSize ->
  let out := Write [] unit in
  let numCopies :=
    if decide (targetSize > fileSize)
    then 1 + Z.quot (targetSize - fileSize) fileSize else 1 in
  let bytesToPad :=
    if decide (targetSize > fileSize)
    then Z.rem (targetSize - fileSize) fileSize else 0 in
  let out :=
    if decide (numCopies > 1)
    then Nat.iter (Z.to_nat (numCopies - 1)) (fun out => Write out unit) out
    else out in
  (if decide (bytesToPad > 0)
   then Write out (replicate (Z.to_nat bytesToPad) x00) else out)
  = tiled unit targetSize.
Proof.
  intros Hsize Hrange. cbv zeta.
  assert (HnumCopies :
    (if decide (targetSize > fileSize)
     then 1 + Z.quot (targetSize - fileSize) fileSize else 1)
    = targetSize / fileSize).
  { case_decide.
    - rewrite Z.quot_div_nonneg by lia.
      replace (targetSize - fileSize) with (targetSize + (-1) * fileSize) by lia.
      rewrite Z.div_add by lia. lia.
    - replace targetSize with fileSize by lia. rewrite Z.div_same; lia. }
  assert (HbytesToPad :
    (if decide (targetSize > fileSize)
     then Z.rem (targetSize - fileSize) fileSize else 0)
    = targetSize mod fileSize).
  { case_decide.
    - rewrite Z.rem_mod_nonneg by lia.
      replace (targetSize - fileSize) with (targetSize + (-1) * fileSize) by lia.
      by rewrite Z.mod_add by lia.
    - replace targetSize with fileSize by lia. rewrite Z.mod_same; lia. }
  rewrite HnumCopies, HbytesToPad. unfold tiled. rewrite <- Hsize.
  assert (Hcopies : 1 <= targetSize / fileSize).
  { apply Z.div_le_lower_bound; lia. }
  assert (Hout :
    (if decide (targetSize / fileSize > 1)
     then Nat.iter (Z.to_nat (targetSize / fileSize - 1))
                   (fun out => Write out unit) (Write [] unit)
     else Write [] unit)
    = mjoin (replicate (Z.to_nat (targetSize / fileSize)) unit)).
  { replace (Z.to_nat (targetSize / fileSize))
      with (S (Z.to_nat (targetSize / fileSize - 1))) by lia.
    destruct (decide (targetSize / fileSize > 1)).
    - rewrite iter_Write_replicate. reflexivity.
    - replace (Z.to_nat (targetSize / fileSize - 1)) with 0%nat by lia.
      simpl. by rewrite app_nil_r. }
  rewrite Hout. destruct (decide (targetSize mod fileSize > 0)); [reflexivity|].
  replace (targetSize mod fileSize) with 0
    by (pose proof (Z.mod_pos_bound targetSize fileSize); lia).
  simpl. by rewrite app_nil_r.
Qed.

Lemma length_mjoin_replicate (unit : list byte) n :
  length (mjoin (replicate n unit)) = (n * length unit)%nat.
Proof.
  induction n as [|n IH]; [reflexivity|].
  change (mjoin (replicate (S n) unit)) with (unit ++ mjoin (replicate n unit)).
  rewrite length_app, IH. lia.
Qed.

Lemma tiled_length (unit : list byte) (targetSize : Z) :
  (0 < length unit)%nat -> 0 <= targetSize ->
  Z.of_nat (length (tiled unit targetSize)) = targetSize.
Proof.
  intros Hunit Htarget. unfold tiled.
  rewrite length_app, length_mjoin_replicate, length_replicate.
  pose proof (Z.div_mod targetSize (Z.of_nat (length unit)) ltac:(lia)).
  pose proof (Z.mod_pos_bound targetSize (Z.of_nat (length unit)) ltac:(lia)).
  assert (0 <= targetSize / Z.of_nat (length unit))
    by (apply Z.div_pos; lia).
  rewrite Nat2Z.inj_add, Nat2Z.inj_mul, !Z2Nat.id by lia. lia.
Qed.

Lemma unit_of_length payload :
  payload <> [] ->
  32768 <= Z.of_nat (length (unit_of payload)) <= 131072.
Proof.
  intros Hne. unfold unit_of.
  assert (0 < length payload)%nat by (destruct payload; [done|simpl; lia]).
  repeat case_decide.
  - rewrite length_take. lia.
  - rewrite length_app, length_replicate. lia.
  - lia.
Qed.

(** [copyFile] to a target of [fullmempakSize] on a source that is not
    empty. *)
Lemma copyFile_normalised (fs : filesystem) src dst payload :
  fs !! src = Some payload -> src <> dst -> payload <> [] ->
  copyFile fs src dst fullmempakSize
  = (Ok tt, <[dst := tiled (unit_of payload) fullmempakSize]> fs).
Proof.
  intros Hsrc Hne Hpayload. unfold copyFile. rewrite Hsrc.
  rewrite lookup_insert_ne, Hsrc by done.
  change (default [] (Some payload)) with payload. unfold io_ReadAll.
  destruct (decide (fullmempakSize = 0)) as [Hz|_]; [discriminate Hz|].
  assert (Hlen : (0 < length payload)%nat)
    by (destruct payload; [done|simpl; lia]).
  destruct (decide (Z.of_nat (length payload) = 0)) as [Hz|_]; [lia|].
  pose proof (unit_of_length payload Hpayload) as Hunit.
  unfold unit_of in *. unfold fullmempakSize, mempakSize.
  change (128 * 1024) with 131072. change (32 * 1024) with 32768.
  destruct (decide (Z.of_nat (length payload) > 131072)) as [Hbig|Hbig];
    cbv beta iota zeta.
  - destruct (decide (131072 <= 32768)) as [Hz|_]; [lia|].
    cbv beta iota zeta.
    rewrite insert_insert_eq. do 2 f_equal.
    apply copyFile_writes_tiled; [rewrite length_take; lia|lia].
  - destruct (decide (Z.of_nat (length payload) <= 32768)) as [Hsmall|Hsmall];
      cbv beta iota zeta.
    + rewrite insert_insert_eq. do 2 f_equal.
      apply copyFile_writes_tiled; [reflexivity|lia].
    + rewrite insert_insert_eq. do 2 f_equal.
      apply copyFile_writes_tiled; [reflexivity|lia].
Qed.

(** Apart from the empty source, [copyFile] has no error of its own once
    the source is open. *)
Lemma copyFile_Err (fs : filesystem) src dst targetSize payload e fs' :
  fs !! src = Some payload ->
  copyFile fs src dst targetSize = (Err e, fs') ->
  e = ErrSourceEmpty /\ targetSize <> 0 /\ fs' = <[dst := []]> fs.
Proof.
  intros Hsrc. unfold copyFile. rewrite Hsrc.
  destruct (decide (targetSize = 0)); [discriminate|].
  unfold io_ReadAll.
  destruct (decide (Z.of_nat (length (default [] (<[dst:=[]]> fs !! src))) = 0)).
  { intros Heq. inversion Heq. done. }
  repeat match goal with
         | |- context [decide (Z.of_nat (length ?l) > fullmempakSize)] =>
             destruct (decide (Z.of_nat (length l) > fullmempakSize));
             cbv beta iota zeta
         | |- context [decide (?a <= mempakSize)] =>
             destruct (decide (a <= mempakSize)); cbv beta iota zeta
         end; discriminate.
Qed.

(** ** The save kinds *)

Lemma transformSave_copy (fs : filesystem) saveFile saveExt outputFile :
  saveExt ∉ ConversionExtensions ->
  transformSave fs saveFile saveExt outputFile
  = copyFile fs saveFile outputFile (targetSize_of saveExt).
Proof. intros Hnot. unfold transformSave. by rewrite decide_False. Qed.

Lemma transformSave_convert (fs : filesystem) saveFile saveExt outputFile :
  saveExt ∈ ConversionExtensions ->
  transformSave fs saveFile saveExt outputFile
  = convertSaveFile fs saveFile outputFile.
Proof. intros Hin. unfold transformSave. by rewrite decide_True. Qed.

(** C2. For every save payload that is not empty, copied under a
    size-normalized kind (target of [fullmempakSize] = 131072 bytes, the
    extensions [.mpk] and [.pak]): the call succeeds and the destination
    holds the unit (the payload cut to 131072 bytes if it is longer, else
    padded with zeros to 32768 bytes if it has at most 32768) repeated as
    many whole times as fit into 131072 bytes, then zeros up to 131072
    bytes; its length is 131072; a payload of 32768 bytes gives the
    payload four times and no padding. *)
Theorem C2_size_normalisation (fs : filesystem) (src dst : string)
  (payload : list byte) :
  fs !! src = Some payload -> src <> dst -> payload <> [] ->
  fullmempakSize = 131072
  /\ copyFile fs src dst fullmempakSize
     = (Ok tt, <[dst := tiled (unit_of payload) 131072]> fs)
  /\ (forall saveExt, saveExt = ".mpk"%string \/ saveExt = ".pak"%string ->
      transformSave fs src saveExt dst
      = (Ok tt, <[dst := tiled (unit_of payload) 131072]> fs))
  /\ Z.of_nat (length (tiled (unit_of payload) 131072)) = 131072
  /\ (Z.of_nat (length payload) = 32768 ->
      tiled (unit_of payload) 131072
      = payload ++ payload ++ payload ++ payload).
Proof.
  intros Hsrc Hne Hpayload.
  pose proof (copyFile_normalised fs src dst payload Hsrc Hne Hpayload) as Hcopy.
  pose proof (unit_of_length payload Hpayload) as Hunit.
  split; [reflexivity|]. split; [exact Hcopy|]. split; [|split].
  - intros saveExt Hext.
    rewrite transformSave_copy by (destruct Hext as [-> | ->]; compute_done).
    replace (targetSize_of saveExt) with fullmempakSize
      by (destruct Hext as [-> | ->]; reflexivity).
    exact Hcopy.
  - apply tiled_length; lia.
  - intros Hlen. unfold tiled, unit_of.
    rewrite decide_False, decide_True by lia.
    rewrite Hlen. change (Z.to_nat (32768 - 32768)) with 0%nat.
    cbn [replicate]. rewrite app_nil_r, Hlen.
    change (Z.to_nat (131072 / 32768)) with 4%nat.
    change (Z.to_nat (131072 mod 32768)) with 0%nat.
    simpl. by rewrite !app_nil_r.
Qed.

Lemma C2_size_normalisation_witness :
  Z.of_nat (length (tiled (unit_of [x01; x02; x03]) 131072)) = 131072.
Proof.
  pose proof (C2_size_normalisation
                {["a.mpk"%string := [x01; x02; x03]]} "a.mpk" "b.mpk"
                [x01; x02; x03] (lookup_singleton_eq _ _)
                ltac:(discriminate) ltac:(discriminate))
    as (_ & _ & _ & Hlen & _).
  exact Hlen.
Defined.

(** C8. A zero-length save payload makes [copyFile] fail with "source
    file is empty" exactly when a target size is given ([targetSize > 0],
    size normalization); with [targetSize = 0] (direct copy, no byte swap)
    the call succeeds and the destination is the empty file. By save
    kind: [.mpk] and [.pak] fail, the other copied kinds succeed. *)
Theorem C8_empty_payload (fs : filesystem) (src dst : string) (targetSize : Z) :
  fs !! src = Some [] ->
  0 <= targetSize ->
  ((copyFile fs src dst targetSize).1 = Err ErrSourceEmpty <-> targetSize > 0)
  /\ (targetSize = 0 ->
      copyFile fs src dst targetSize = (Ok tt, <[dst := []]> fs))
  /\ (forall saveExt, saveExt ∉ ConversionExtensions ->
      (transformSave fs src saveExt dst).1
      = if decide (saveExt = ".mpk"%string \/ saveExt = ".pak"%string)
        then Err ErrSourceEmpty else Ok tt)
  /\ Legacy.copyFile fs src dst = (Ok tt, <[dst := []]> fs).
Proof.
  intros Hsrc Htarget.
  pose proof (copyFile_empty fs src dst targetSize Hsrc) as Hcopy.
  split; [|split; [|split]].
  - rewrite Hcopy. cbn [fst]. case_decide; split; intros; try done; lia.
  - intros ->. by rewrite Hcopy.
  - intros saveExt Hnot. rewrite transformSave_copy by exact Hnot.
    rewrite copyFile_empty by exact Hsrc. cbn [fst].
    unfold targetSize_of.
    repeat case_decide; try reflexivity; try discriminate; exfalso; tauto.
  - unfold Legacy.copyFile. rewrite Hsrc.
    destruct (decide (src = dst)) as [<-|Hne].
    + rewrite lookup_insert_eq. simpl. by rewrite io_Copy_file, insert_insert_eq.
    + rewrite lookup_insert_ne, Hsrc by done. simpl.
      by rewrite io_Copy_file, insert_insert_eq.
Qed.

Lemma C8_empty_payload_witness :
  (copyFile {["a.mpk"%string := []]} "a.mpk" "b.mpk" 131072).1
  = Err ErrSourceEmpty.
Proof.
  pose proof (C8_empty_payload {["a.mpk"%string := []]} "a.mpk" "b.mpk" 131072
                (lookup_singleton_eq _ _) ltac:(lia)) as [Hiff _].
  apply Hiff. lia.
Defined.

(** The claim C9 as the specification states it fails: a save of 6 bytes
    makes the conversion fail after it has written the first group, and
    the destination, which did not exist, is left with these 4 bytes. *)
Lemma C9_partial_output_left_behind :
  ~ leaves_no_partial_output convertSaveFile.
Proof.
  intros Hclaim.
  pose (fs := ({["in.sra"%string := [x01; x02; x03; x04; x05; x06]]}
               : filesystem)).
  assert (Hrun : convertSaveFile fs "in.sra" "out.sra"
                 = (Err (ErrReadSave io_ErrUnexpectedEOF),
                    <["out.sra"%string := [x04; x03; x02; x01]]> fs)).
  { rewrite (convertSaveFile_spec fs "in.sra" "out.sra"
               [x01; x02; x03; x04; x05; x06]);
      [reflexivity|apply lookup_singleton_eq|discriminate]. }
  destruct (Hclaim _ _ _ _ _ Hrun) as [Hgone|Hsame].
  - rewrite lookup_insert_eq in Hgone. discriminate.
  - rewrite lookup_insert_eq in Hsame. unfold fs in Hsame.
    rewrite lookup_singleton_ne in Hsame by discriminate. discriminate.
Qed.

(** C9, amended. When a save transformation fails after it has created
    the destination, the destination stays where it is, with what was
    written before the failure: after a byte-swap conversion, which fails
    only on a source whose length is not a multiple of 4, it holds the
    whole groups of the source, reversed; after a copy, which fails only
    on an empty source with a target size, it is empty. Nothing deletes
    the file and no write is put off; the same holds of [main.go]. *)
Theorem C9_failure_leaves_output (fs : filesystem) (src dst : string)
  (payload : list byte) :
  fs !! src = Some payload -> src <> dst ->
  (forall e fs', convertSaveFile fs src dst = (Err e, fs') ->
     e = ErrReadSave io_ErrUnexpectedEOF
     /\ (length payload mod 4 <> 0)%nat
     /\ fs' = <[dst := reverse_groups 4 (take (length payload / 4 * 4) payload)]> fs)
  /\ ((length payload mod 4 <> 0)%nat ->
      convertSaveFile fs src dst
      = (Err (ErrReadSave io_ErrUnexpectedEOF),
         <[dst := reverse_groups 4 (take (length payload / 4 * 4) payload)]> fs)
      /\ Legacy.convertSaveFile fs src dst
         = (Err ErrNotMultipleOf4,
            <[dst := reverse_groups 4 (take (length payload / 4 * 4) payload)]> fs))
  /\ (forall targetSize e fs',
        copyFile fs src dst targetSize = (Err e, fs') ->
        e = ErrSourceEmpty /\ targetSize <> 0 /\ fs' = <[dst := []]> fs)
  /\ (forall targetSize, payload = [] -> targetSize <> 0 ->
        copyFile fs src dst targetSize = (Err ErrSourceEmpty, <[dst := []]> fs)).
Proof.
  intros Hsrc Hne.
  rewrite (convertSaveFile_spec fs src dst payload) by done.
  rewrite (Legacy_convertSaveFile_spec fs src dst payload) by done.
  rewrite reverse_groups4_whole.
  split; [|split; [|split]].
  - intros e fs'. case_decide; [discriminate|]. by intros [= <- <-].
  - intros Hlen. by rewrite !decide_False.
  - intros targetSize e fs' Hrun.
    by apply (copyFile_Err fs src dst targetSize payload e fs').
  - intros targetSize -> HT. rewrite copyFile_empty by exact Hsrc.
    by rewrite decide_False.
Qed.

Lemma C9_failure_leaves_output_witness :
  convertSaveFile {["in.sra"%string := [x01; x02; x03; x04; x05; x06]]}
    "in.sra" "out.sra"
  = (Err (ErrReadSave io_ErrUnexpectedEOF),
     <["out.sra"%string :=
         reverse_groups 4 (take (6 / 4 * 4) [x01; x02; x03; x04; x05; x06])]>
       {["in.sra"%string := [x01; x02; x03; x04; x05; x06]]}).
Proof.
  pose proof (C9_failure_leaves_output
                {["in.sra"%string := [x01; x02; x03; x04; x05; x06]]}
                "in.sra" "out.sra" [x01; x02; x03; x04; x05; x06]
                (lookup_singleton_eq _ _) ltac:(discriminate))
    as (_ & Hbad & _).
  apply Hbad. discriminate.
Defined.

(** C10. For a source of length zero, the byte-swap conversion (the kinds
    [.sra] and [.fla]) returns no error and the destination is the empty
    file: the end of file at the first read ends the loop. The same holds
    of [main.go]. *)
Theorem C10_empty_source_byte_swap (fs : filesystem) (src dst : string) :
  fs !! src = Some [] ->
  convertSaveFile fs src dst = (Ok tt, <[dst := []]> fs)
  /\ Legacy.convertSaveFile fs src dst = (Ok tt, <[dst := []]> fs)
  /\ io_ReadFull [] 4 = ([], Some io_EOF, [])
  /\ (forall saveExt, saveExt = ".sra"%string \/ saveExt = ".fla"%string ->
      transformSave fs src saveExt dst = (Ok tt, <[dst := []]> fs)).
Proof.
  intros Hsrc.
  assert (Hconv : convertSaveFile fs src dst = (Ok tt, <[dst := []]> fs)
                  /\ Legacy.convertSaveFile fs src dst
                     = (Ok tt, <[dst := []]> fs)).
  { destruct (decide (src = dst)) as [<-|Hne].
    - by apply convertSaveFile_same_path.
    - rewrite (convertSaveFile_spec fs src dst []) by done.
      rewrite (Legacy_convertSaveFile_spec fs src dst []) by done.
      by rewrite reverse_groups_nil. }
  destruct Hconv as [Hnew Hold].
  split; [exact Hnew|]. split; [exact Hold|]. split; [reflexivity|].
  intros saveExt Hext.
  rewrite transformSave_convert by (destruct Hext as [-> | ->]; compute_done).
  exact Hnew.
Qed.

Lemma C10_empty_source_byte_swap_witness :
  convertSaveFile {["a.sra"%string := []]} "a.sra" "b.sra"
  = (Ok tt, <["b.sra"%string := []]> {["a.sra"%string := []]}).
Proof.
  exact (proj1 (C10_empty_source_byte_swap
                  {["a.sra"%string := []]} "a.sra" "b.sra"
                  (lookup_singleton_eq _ _))).
Defined.

(** ** SHA-256: the blocks *)

Lemma take4_drop_take64 (p : list byte) i :
  (i < 16)%nat ->
  take 4 (drop (4 * i) (take 64 p)) = take 4 (drop (4 * i) p).
Proof.
  intros Hi. rewrite skipn_firstn_comm, take_take.
  f_equal. lia.
Qed.

(** The compression reads the first 64 bytes of the slice it is given. *)
Lemma schedule_take p : sha256.schedule (take 64 p) = sha256.schedule p.
Proof.
  unfold sha256.schedule. f_equal. apply map_ext_in.
  intros i Hi. apply in_seq in Hi. by rewrite take4_drop_take64 by lia.
Qed.

Lemma compress_take h p : sha256.compress h (take 64 p) = sha256.compress h p.
Proof. unfold sha256.compress. by rewrite schedule_take. Qed.

Lemma block_turns_app n m h (a b : list byte) :
  length a = (64 * n)%nat ->
  sha256.block_turns (n + m) h (a ++ b)
  = sha256.block_turns m (sha256.block_turns n h a) b.
Proof.
  revert h a. induction n as [|n IH]; intros h a Hlen.
  - destruct a; [reflexivity|discriminate].
  - cbn [Nat.add sha256.block_turns]. unfold sha256.chunk.
    rewrite <- (compress_take h (a ++ b)), <- (compress_take h a).
    rewrite take_app_le by lia. rewrite drop_app_le by lia.
    apply IH. rewrite length_drop. lia.
Qed.

Lemma block_app h (a b : list byte) n :
  length a = (64 * n)%nat ->
  sha256.block h (a ++ b) = sha256.block (sha256.block h a) b.
Proof.
  intros Hlen. unfold sha256.block, sha256.chunk.
  rewrite length_app, Hlen.
  rewrite (Nat.mul_comm 64 n), Nat.div_add_l, Nat.div_mul by lia.
  apply block_turns_app. lia.
Qed.

Lemma block_short h (t : list byte) :
  (length t < 64)%nat -> sha256.block h t = h.
Proof.
  intros Hlen. unfold sha256.block, sha256.chunk.
  by rewrite Nat.div_small.
Qed.

Lemma block_tail h (a t : list byte) n :
  length a = (64 * n)%nat -> (length t < 64)%nat ->
  sha256.block h (a ++ t) = sha256.block h a.
Proof.
  intros Ha Ht. rewrite (block_app h a t n Ha). by apply block_short.
Qed.

(** A slice is its whole blocks and a tail shorter than a block. *)
Lemma whole_blocks_split (l : list byte) :
  let n := (length l / 64)%nat in
  l = take (n * 64) l ++ drop (n * 64) l
  /\ length (take (n * 64) l) = (64 * n)%nat
  /\ (length (drop (n * 64) l) < 64)%nat.
Proof.
  intros n. pose proof (Nat.div_mod_eq (length l) 64) as Hdiv.
  pose proof (Nat.mod_upper_bound (length l) 64 ltac:(lia)) as Hmod.
  fold n in Hdiv. split; [by rewrite take_drop|].
  rewrite length_take, length_drop. lia.
Qed.

Lemma block_whole h (l : list byte) :
  sha256.block h (take (length l / 64 * 64) l) = sha256.block h l.
Proof.
  destruct (whole_blocks_split l) as (Hsplit & Hwhole & Htail).
  rewrite Hsplit at 3. symmetry. by eapply block_tail.
Qed.

(** [block] is the fold of the compression over the 64-byte blocks. *)
Lemma fold_left_cons {A B} (f : A -> B -> A) (b : B) (l : list B) (a : A) :
  fold_left f (b :: l) a = fold_left f l (f a b).
Proof. reflexivity. Qed.

Lemma block_turns_S n h (p : list byte) :
  sha256.block_turns (S n) h p
  = sha256.block_turns n (sha256.compress h p) (drop 64 p).
Proof. reflexivity. Qed.

Lemma reshape_blocks_S n (p : list byte) :
  reshape (replicate (S n) 64%nat) p
  = take 64 p :: reshape (replicate n 64%nat) (drop 64 p).
Proof. reflexivity. Qed.

Lemma block_turns_fold n h (p : list byte) :
  sha256.block_turns n h p
  = fold_left sha256.compress (reshape (replicate n 64%nat) p) h.
Proof.
  revert h p. induction n as [|n IH]; intros h p; [reflexivity|].
  rewrite block_turns_S, reshape_blocks_S, IH, fold_left_cons.
  by rewrite compress_take.
Qed.

Lemma block_one_pass h (padded : list byte) :
  sha256.block h padded = fold_left sha256.compress (OnePass.blocks padded) h.
Proof. apply block_turns_fold. Qed.

(** ** SHA-256: writing to the digest *)

(** [Write] is local: it folds the whole blocks of the buffered bytes
    followed by the new ones into the state and keeps the rest. *)
Lemma digest_Write_local (d : sha256.digest) (p : list byte) :
  (length (sha256.x d) < 64)%nat ->
  let data := sha256.x d ++ p in
  sha256.digest_Write d p
  = sha256.Digest (sha256.block (sha256.h d) data)
      (drop (length data / 64 * 64) data)
      ((sha256.len d + Z.of_nat (length p)) mod 2 ^ 64).
Proof.
  destruct d as [h x len]. cbn [sha256.x sha256.h sha256.len].
  intros Hx. set (data := x ++ p). unfold sha256.digest_Write, sha256.chunk.
  cbn [sha256.x sha256.h sha256.len].
  (* the tail of [Write], from a state with no block in progress *)
  assert (Hrest : forall h1 (p1 : list byte),
    (let '(h2, p2) :=
       if decide (64 <= length p1)%nat
       then (sha256.block h1 (take (length p1 / 64 * 64) p1),
             drop (length p1 / 64 * 64) p1)
       else (h1, p1) in
     sha256.Digest h2 (if decide (0 < length p2)%nat then p2 else [])
       ((len + Z.of_nat (length p)) mod 2 ^ 64))
    = sha256.Digest (sha256.block h1 p1) (drop (length p1 / 64 * 64) p1)
        ((len + Z.of_nat (length p)) mod 2 ^ 64)).
  { intros h1 p1. destruct (decide (64 <= length p1)%nat) as [Hge|Hlt].
    - rewrite block_whole. f_equal.
      case_decide as Hp2; [reflexivity|].
      destruct (drop (length p1 / 64 * 64) p1); [reflexivity|simpl in Hp2; lia].
    - rewrite block_short by lia. rewrite Nat.div_small by lia. simpl.
      f_equal. case_decide as Hp2; [reflexivity|].
      destruct p1; [reflexivity|simpl in Hp2; lia]. }
  destruct (decide (0 < length x)%nat) as [Hnx|Hnx].
  - set (n := Nat.min (64 - length x) (length p)).
    destruct (decide (length (x ++ take n p) = 64%nat)) as [Hfull|Hpart].
    + rewrite Hrest.
      assert (Hdata : data = (x ++ take n p) ++ drop n p)
        by (unfold data; by rewrite <- app_assoc, take_drop).
      rewrite Hdata, <- (block_app h (x ++ take n p) (drop n p) 1) by lia.
      f_equal. rewrite length_app, Hfull.
      replace (64 + length (drop n p))%nat
        with (1 * 64 + length (drop n p))%nat by lia.
      rewrite Nat.div_add_l by lia.
      replace ((1 + length (drop n p) / 64) * 64)%nat
        with (length (x ++ take n p) + length (drop n p) / 64 * 64)%nat by lia.
      by rewrite drop_app_add.
    + assert (Hn : n = length p).
      { rewrite length_app, length_take in Hpart. unfold n in *. lia. }
      rewrite Hn. rewrite (take_ge p (length p)) by lia. rewrite drop_all.
      destruct (decide (64 <= length (@nil byte))%nat) as [Hc|_];
        [simpl in Hc; lia|].
      cbv beta iota.
      destruct (decide (0 < length (@nil byte))%nat) as [Hc|_];
        [simpl in Hc; lia|].
      assert (Hshort : (length data < 64)%nat).
      { unfold data. rewrite length_app in *.
        rewrite length_take in Hpart. unfold n in *. lia. }
      rewrite block_short, Nat.div_small by lia. reflexivity.
  - assert (x = []) as -> by (destruct x; [reflexivity|simpl in Hnx; lia]).
    unfold data. cbn [app]. apply Hrest.
Qed.

Lemma absorbed_New : absorbed sha256.New [].
Proof. repeat split. Qed.

Lemma absorbed_Write d msg p :
  absorbed d msg -> absorbed (sha256.digest_Write d p) (msg ++ p).
Proof.
  intros (Hh & Hx & Hlen).
  destruct (whole_blocks_split msg) as (Hsplit & Hwhole & Htail).
  rewrite <- Hx in Htail, Hsplit.
  rewrite digest_Write_local by exact Htail.
  set (whole := take (length msg / 64 * 64) msg) in *.
  assert (Hmsg : msg ++ p = whole ++ (sha256.x d ++ p)).
  { rewrite Hsplit at 1. by rewrite <- app_assoc. }
  unfold absorbed. cbn [sha256.h sha256.x sha256.len]. split; [|split].
  - rewrite Hh, Hmsg.
    rewrite (block_app _ whole _ (length msg / 64)) by exact Hwhole.
    assert (Hw : sha256.block sha256.init msg
                 = sha256.block sha256.init whole).
    { rewrite Hsplit at 1. by eapply block_tail. }
    by rewrite Hw.
  - rewrite Hmsg. rewrite (length_app whole), Hwhole.
    rewrite (Nat.mul_comm 64), Nat.div_add_l by lia.
    replace ((length msg / 64 + length (sha256.x d ++ p) / 64) * 64)%nat
      with (length whole + length (sha256.x d ++ p) / 64 * 64)%nat by lia.
    by rewrite drop_app_add.
  - rewrite Hlen, length_app, Nat2Z.inj_add.
    by rewrite Zplus_mod_idemp_l.
Qed.

Lemma absorbed_writes pieces d msg :
  absorbed d msg -> absorbed (fold_left Write pieces d) (msg ++ mjoin pieces).
Proof.
  revert d msg. induction pieces as [|p pieces IH]; intros d msg Hd.
  - simpl. by rewrite app_nil_r.
  - change (mjoin (p :: pieces)) with (p ++ mjoin pieces).
    rewrite app_assoc. cbn [fold_left]. apply IH.
    by apply absorbed_Write.
Qed.

(** However the file is cut into reads, the digest has absorbed it. *)
Lemma absorbed_copyBuffer data k :
  absorbed (copyBuffer sha256.New data k) data.
Proof.
  destruct (copyBuffer_writes sha256.New data k) as (pieces & <- & ->).
  apply (absorbed_writes pieces sha256.New []), absorbed_New.
Qed.

(** ** SHA-256: the checksum *)

Lemma absorbed_unique d d' msg : absorbed d msg -> absorbed d' msg -> d = d'.
Proof.
  destruct d, d'. unfold absorbed. simpl.
  intros (-> & -> & ->) (-> & -> & ->). reflexivity.
Qed.

(** The padding of [checkSum] is the padding of the standard. *)
Lemma checkSum_padding (msg : list byte) :
  let l := Z.of_nat (length msg) in
  l < 2 ^ 61 ->
  let t := if l mod 64 <? 56 then 56 - l mod 64 else 64 + 56 - l mod 64 in
  x80 :: replicate (Z.to_nat t - 1) x00
    ++ BigEndian_PutUint64 (Z.shiftl l 3 mod 2 ^ 64)
  = OnePass.padding msg.
Proof.
  intros l Hl t. unfold OnePass.padding. fold l. cbn [app]. f_equal. f_equal.
  - f_equal. unfold t.
    pose proof (Z.mod_pos_bound l 64 ltac:(lia)) as Hr.
    pose proof (Z.div_mod l 64 ltac:(lia)) as Hq.
    assert (Hmod : (55 - l) mod 64
                   = if l mod 64 <? 56 then 55 - l mod 64 else 119 - l mod 64).
    { destruct (l mod 64 <? 56) eqn:Hlt.
      - apply Z.ltb_lt in Hlt. symmetry.
        apply (Z.mod_unique _ _ (- (l / 64))); lia.
      - apply Z.ltb_ge in Hlt. symmetry.
        apply (Z.mod_unique _ _ (- (l / 64) - 1)); lia. }
    rewrite Hmod. destruct (l mod 64 <? 56); lia.
  - f_equal. rewrite Z.shiftl_mul_pow2 by lia.
    rewrite Z.mod_small by lia. lia.
Qed.

Lemma padded_length (msg : list byte) :
  (length (msg ++ OnePass.padding msg) mod 64 = 0)%nat.
Proof.
  unfold OnePass.padding. rewrite !length_app, length_replicate.
  cbn [length BigEndian_PutUint64].
  set (l := Z.of_nat (length msg)).
  pose proof (Z.mod_pos_bound (55 - l) 64 ltac:(lia)) as Hr.
  pose proof (Z.div_mod (55 - l) 64 ltac:(lia)) as Hq.
  apply Nat2Z.inj. rewrite Nat2Z.inj_mod.
  rewrite !Nat2Z.inj_add, Z2Nat.id by lia. fold l.
  replace (l + (Z.of_nat 1 + ((55 - l) mod 64 + Z.of_nat 8)))
    with ((1 - (55 - l) / 64) * 64) by lia.
  by rewrite Z.mod_mul.
Qed.

(** The checksum of a digest that has absorbed a message is the SHA-256
    of the message; the panic of [checkSum] is out of reach. *)
Lemma checkSum_absorbed d msg :
  absorbed d msg -> Z.of_nat (length msg) < 2 ^ 61 ->
  sha256.checkSum d = Ok (OnePass.SHA256 msg).
Proof.
  intros Hd Hlen. unfold sha256.checkSum.
  pose proof (absorbed_Write d msg (OnePass.padding msg) Hd) as (Hh' & Hx' & _).
  destruct Hd as (Hh & Hx & Hl).
  rewrite Z.mod_small in Hl by lia. rewrite Hl.
  rewrite (checkSum_padding msg Hlen).
  pose proof (padded_length msg) as Hpad.
  assert (Hwhole : (length (msg ++ OnePass.padding msg) / 64 * 64
                    = length (msg ++ OnePass.padding msg))%nat).
  { pose proof (Nat.div_mod_eq (length (msg ++ OnePass.padding msg)) 64). lia. }
  rewrite Hwhole, drop_all in Hx'.
  rewrite Hx', decide_True by reflexivity.
  rewrite Hh', block_one_pass. reflexivity.
Qed.

Lemma Sum256_one_pass data :
  Z.of_nat (length data) < 2 ^ 61 ->
  sha256.Sum256 data = Ok (OnePass.SHA256 data).
Proof.
  intros Hlen. apply checkSum_absorbed; [|exact Hlen].
  apply (absorbed_Write sha256.New [] data), absorbed_New.
Qed.

Lemma Sum_copyBuffer data k :
  Z.of_nat (length data) < 2 ^ 61 ->
  sha256.Sum (copyBuffer sha256.New data k) = Ok (OnePass.SHA256 data).
Proof.
  intros Hlen. by apply checkSum_absorbed; [apply absorbed_copyBuffer|].
Qed.

(** The size of the buffer does not matter to the digest. *)
Lemma copyBuffer_digest_buffer data k k' :
  copyBuffer sha256.New data k = copyBuffer sha256.New data k'.
Proof. eapply absorbed_unique; apply absorbed_copyBuffer. Qed.

Lemma state_bytes_length h : length (sha256.state_bytes h) = 32%nat.
Proof. reflexivity. Qed.

(** ** The digest in hexadecimal *)

Lemma fmt_X_length bs : String.length (fmt_X bs) = (2 * length bs)%nat.
Proof. induction bs as [|b bs IH]; simpl; [reflexivity|]. rewrite IH. lia. Qed.

Lemma udigit_upper_hex v : 0 <= v < 16 -> upper_hex_char (udigit v).
Proof.
  intros Hv. unfold upper_hex_char, udigit, udigits.
  apply nth_In. simpl. lia.
Qed.

Lemma fmt_X_upper_hex bs :
  Forall upper_hex_char (list_ascii_of_string (fmt_X bs)).
Proof.
  induction bs as [|b bs IH]; simpl; [constructor|].
  pose proof (u8_range b) as Hb.
  constructor; [|constructor; [|exact IH]]; apply udigit_upper_hex.
  - rewrite Z.shiftr_div_pow2 by lia.
    change (2 ^ 4) with 16. Z.to_euclidean_division_equations; lia.
  - change 15 with (Z.ones 4). rewrite Z.land_ones by lia.
    apply Z.mod_pos_bound. lia.
Qed.

Lemma computeSHA256_one_pass (fs : filesystem) romFile data :
  fs !! romFile = Some data -> Z.of_nat (length data) < 2 ^ 61 ->
  computeSHA256 fs romFile = Ok (fmt_X (OnePass.SHA256 data)).
Proof.
  intros Hfs Hlen. unfold computeSHA256, io_CopyBuffer. rewrite Hfs.
  by rewrite Sum_copyBuffer.
Qed.

(** ** The two versions of [processRom] *)

Lemma Legacy_convert_n64_eq rawHeader :
  Legacy.convert_n64 rawHeader = convert_n64 rawHeader.
Proof.
  induction rawHeader as [tail Htail|b0 b1 b2 b3 rest IH]
    using groups4_tail_ind.
  - by destruct tail as [|b0 [|b1 [|b2 [|b3 rest]]]]; simpl in *; try lia.
  - cbn [Legacy.convert_n64 convert_n64]. rewrite IH, swap32_LE_BE.
    by destruct (convert_n64 rest).
Qed.

Lemma Legacy_convert_v64_eq rawHeader :
  Legacy.convert_v64 rawHeader = convert_v64 rawHeader.
Proof.
  induction rawHeader as [rawHeader IH] using (induction_ltof1 _ (@length byte)).
  unfold ltof in IH.
  destruct rawHeader as [|b0 [|b1 rest]]; try reflexivity.
  cbn [Legacy.convert_v64 convert_v64].
  rewrite IH by (simpl; lia). rewrite swap16_LE_BE.
  by destruct (convert_v64 rest).
Qed.

Lemma convertHeaderEndianness_length rawHeader romMode :
  length rawHeader = 64%nat ->
  exists convHeader,
    convertHeaderEndianness rawHeader romMode = Ok convHeader
    /\ length convHeader = 64%nat.
Proof.
  intros Hlen. unfold convertHeaderEndianness.
  pose proof (mod4_of_64 _ Hlen) as H4. pose proof (mod2_of_64 _ Hlen) as H2.
  repeat case_decide.
  - by exists rawHeader.
  - exists (reverse_groups 4 rawHeader).
    by rewrite convert_n64_groups, reverse_groups4_length.
  - exists (reverse_groups 2 rawHeader).
    by rewrite convert_v64_groups, reverse_groups2_length.
  - exists (replicate (length rawHeader) x00).
    by rewrite length_replicate.
Qed.

(** The first version of [processRom] and the later one return the same
    on every file system and path. *)
Lemma Legacy_processRom_eq (fs : filesystem) romFile :
  Legacy.processRom fs romFile = processRom fs romFile.
Proof.
  unfold Legacy.processRom, processRom.
  destruct (fs !! romFile) as [romHandle|] eqn:Hfs; [|reflexivity].
  destruct (io_ReadFull romHandle 64) as [[rawHeader [e|]] rest] eqn:Hread;
    [reflexivity|].
  apply io_ReadFull_no_error_full in Hread as Hlen.
  rewrite Legacy_romMode_of_detect by (rewrite length_take; lia).
  destruct (detectRomFormat (take 4 rawHeader)) as [romMode| |];
    [|reflexivity..].
  cbn [mbind result_bind].
  destruct (convertHeaderEndianness_length rawHeader romMode Hlen)
    as (convHeader & Hconv & Hlen').
  assert (Hold : (if decide (romMode = "z64"%string) then Ok rawHeader
                  else if decide (romMode = "n64"%string)
                       then Legacy.convert_n64 rawHeader
                  else if decide (romMode = "v64"%string)
                       then Legacy.convert_v64 rawHeader
                  else Ok (replicate 64 x00)) = Ok convHeader).
  { rewrite <- Hconv. unfold convertHeaderEndianness.
    by rewrite Legacy_convert_n64_eq, Legacy_convert_v64_eq, Hlen. }
  rewrite Hold, Hconv. cbn [mbind result_bind]. unfold extractCleanTitle.
  rewrite decide_False by (rewrite Hlen'; simpl; lia).
  cbn [mbind result_bind].
  unfold Legacy.string_of_runes. rewrite Legacy_title_loop_bytes.
  unfold computeSHA256, io_Copy, io_CopyBuffer. rewrite Hfs.
  rewrite (copyBuffer_digest_buffer romHandle (Z.to_nat 32767) (Z.to_nat 4095)).
  by destruct (sha256.Sum _).
Qed.

(** [processRom] returns the hash that [computeSHA256] returns. *)
Lemma processRom_hash (fs : filesystem) romFile cleanTitle hashHex :
  processRom fs romFile = Ok (cleanTitle, hashHex) ->
  computeSHA256 fs romFile = Ok hashHex.
Proof.
  unfold processRom.
  destruct (fs !! romFile) as [romHandle|]; [|discriminate].
  destruct (io_ReadFull romHandle 64) as [[rawHeader [e|]] rest];
    [discriminate|].
  destruct (detectRomFormat _) as [romMode| |]; try discriminate.
  cbn [mbind result_bind].
  destruct (convertHeaderEndianness _ _) as [convHeader| |]; try discriminate.
  cbn [mbind result_bind].
  destruct (extractCleanTitle _) as [title| |]; try discriminate.
  cbn [mbind result_bind].
  destruct (computeSHA256 fs romFile) as [hash| |]; try discriminate.
  cbn [mbind result_bind mret result_ret]. by intros [= _ ->].
Qed.

(** ** The library model against the standard *)

(** *** The constants *)

Lemma SHS_K : SHS.K = sha256._K.
Proof. vm_compute. reflexivity. Qed.

Lemma SHS_H0 : SHS.H0 = sha256.init.
Proof. vm_compute. reflexivity. Qed.

(** *** Bytes and numbers *)

Lemma SHS_value_u8 b : SHS.value b = u8 b.
Proof. reflexivity. Qed.

Lemma SHS_octet_mod v : SHS.octet (v mod 256) = byte_of_Z v.
Proof.
  unfold SHS.octet, byte_of_Z.
  by destruct (Byte.of_N (Z.to_N (v mod 256))).
Qed.

Lemma bits_below a k n : 0 <= a < 2 ^ k -> k <= n -> Z.testbit a n = false.
Proof.
  intros Ha Hkn. destruct (decide (a = 0)) as [->|Hne];
    [apply Z.bits_0|].
  apply Z.bits_above_log2; [lia|].
  assert (Z.log2 a < k); [|lia].
  apply Z.log2_lt_pow2; lia.
Qed.

(** Two numbers with no bit in common: their bitwise or is their sum. *)
Lemma lor_add a b k :
  0 <= k -> 0 <= a < 2 ^ k -> Z.lor a (b * 2 ^ k) = a + b * 2 ^ k.
Proof.
  intros Hk Ha.
  assert (Hdisjoint : Z.land a (b * 2 ^ k) = 0).
  { apply Z.bits_inj'. intros n Hn.
    rewrite Z.land_spec, Z.bits_0.
    destruct (decide (n < k)) as [Hlow|Hhigh].
    - rewrite Z.mul_pow2_bits_low by lia. apply andb_false_r.
    - rewrite (bits_below a k n) by lia. reflexivity. }
  rewrite <- Z.lxor_lor by exact Hdisjoint.
  symmetry. by apply Z.add_nocarry_lxor.
Qed.

Lemma SHS_number_range bs acc :
  0 <= acc ->
  0 <= fold_left (fun acc b => 256 * acc + SHS.value b) bs acc
    < (acc + 1) * 256 ^ Z.of_nat (length bs).
Proof.
  revert acc. induction bs as [|b bs IH]; intros acc Hacc.
  - simpl. lia.
  - cbn [fold_left length].
    pose proof (u8_range b) as Hb. rewrite <- SHS_value_u8 in Hb.
    specialize (IH (256 * acc + SHS.value b) ltac:(lia)).
    rewrite Nat2Z.inj_succ, Z.pow_succ_r by lia.
    split; [lia|].
    eapply Z.lt_le_trans; [apply IH|].
    assert (0 < 256 ^ Z.of_nat (length bs)) by (apply Z.pow_pos_nonneg; lia).
    nia.
Qed.

Lemma SHS_number_word32 bs : (length bs <= 4)%nat -> word32 (SHS.number bs).
Proof.
  intros Hlen. unfold word32, SHS.number.
  pose proof (SHS_number_range bs 0 ltac:(lia)) as Hrange.
  split; [lia|].
  eapply Z.lt_le_trans; [apply Hrange|].
  change (2 ^ 32) with (256 ^ 4). rewrite Z.add_0_l, Z.mul_1_l.
  apply Z.pow_le_mono_r; lia.
Qed.

Lemma SHS_number_Uint32 b0 b1 b2 b3 :
  SHS.number [b0; b1; b2; b3] = BigEndian_Uint32 [b0; b1; b2; b3].
Proof.
  unfold SHS.number, BigEndian_Uint32, at_. cbn [fold_left nth].
  change SHS.value with u8. rewrite !Z.shiftl_mul_pow2 by lia.
  pose proof (u8_range b0). pose proof (u8_range b1).
  pose proof (u8_range b2). pose proof (u8_range b3).
  rewrite (lor_add (u8 b3) (u8 b2) 8) by lia.
  rewrite (lor_add (u8 b3 + u8 b2 * 2 ^ 8) (u8 b1) 16) by lia.
  rewrite (lor_add (u8 b3 + u8 b2 * 2 ^ 8 + u8 b1 * 2 ^ 16) (u8 b0) 24) by lia.
  lia.
Qed.

Lemma SHS_big_endian_4 v : SHS.big_endian 4 v = BigEndian_PutUint32 v.
Proof.
  unfold SHS.big_endian, BigEndian_PutUint32. cbn [seq map Nat.sub].
  rewrite !SHS_octet_mod, !Z.shiftr_div_pow2 by lia.
  change (Z.of_nat 3) with 3. change (Z.of_nat 2) with 2.
  change (Z.of_nat 1) with 1. change (Z.of_nat 0) with 0.
  change (256 ^ 3) with (2 ^ 24). change (256 ^ 2) with (2 ^ 16).
  change (256 ^ 1) with (2 ^ 8). change (256 ^ 0) with 1.
  by rewrite Z.div_1_r.
Qed.

Lemma SHS_big_endian_8 v : SHS.big_endian 8 v = BigEndian_PutUint64 v.
Proof.
  unfold SHS.big_endian, BigEndian_PutUint64. cbn [seq map Nat.sub].
  rewrite !SHS_octet_mod, !Z.shiftr_div_pow2 by lia.
  change (Z.of_nat 7) with 7. change (Z.of_nat 6) with 6.
  change (Z.of_nat 5) with 5. change (Z.of_nat 4) with 4.
  change (Z.of_nat 3) with 3. change (Z.of_nat 2) with 2.
  change (Z.of_nat 1) with 1. change (Z.of_nat 0) with 0.
  change (256 ^ 7) with (2 ^ 56). change (256 ^ 6) with (2 ^ 48).
  change (256 ^ 5) with (2 ^ 40). change (256 ^ 4) with (2 ^ 32).
  change (256 ^ 3) with (2 ^ 24). change (256 ^ 2) with (2 ^ 16).
  change (256 ^ 1) with (2 ^ 8). change (256 ^ 0) with 1.
  by rewrite Z.div_1_r.
Qed.

(** *** The operations on words *)

Lemma SHS_plus_u32 x y : SHS.plus x y = sha256.u32 (x + y).
Proof. reflexivity. Qed.

Lemma SHS_plus3 a b c d :
  SHS.plus (SHS.plus (SHS.plus a b) c) d = sha256.u32 (a + b + c + d).
Proof.
  unfold SHS.plus, sha256.u32. change (2 ^ 32) with 4294967296.
  Z.to_euclidean_division_equations; lia.
Qed.

Lemma SHS_plus4 a b c d e :
  SHS.plus (SHS.plus (SHS.plus (SHS.plus a b) c) d) e
  = sha256.u32 (a + b + c + d + e).
Proof.
  unfold SHS.plus, sha256.u32. change (2 ^ 32) with 4294967296.
  Z.to_euclidean_division_equations; lia.
Qed.

Lemma SHS_plus_word32 x y : word32 (SHS.plus x y).
Proof. unfold word32, SHS.plus. apply Z.mod_pos_bound. lia. Qed.

Lemma SHS_SHR_shiftr n x : 0 <= n -> SHS.SHR n x = Z.shiftr x n.
Proof. intros Hn. unfold SHS.SHR. by rewrite Z.shiftr_div_pow2. Qed.

Lemma SHS_ROTR_rotr n x :
  0 < n < 32 -> word32 x -> SHS.ROTR n x = sha256.rotr x n.
Proof.
  intros Hn Hx. unfold SHS.ROTR, sha256.rotr, sha256.u32, word32 in *.
  rewrite Z.shiftr_div_pow2, Z.shiftl_mul_pow2 by lia.
  replace (2 ^ 32) with (2 ^ n * 2 ^ (32 - n))
    by (rewrite <- Z.pow_add_r by lia; f_equal; lia).
  rewrite Z.mul_mod_distr_r by (apply Z.pow_nonzero; lia).
  symmetry. apply lor_add; [lia|].
  split; [apply Z.div_pos; [lia|apply Z.pow_pos_nonneg; lia]|].
  apply Z.div_lt_upper_bound; [apply Z.pow_pos_nonneg; lia|].
  rewrite <- Z.pow_add_r by lia.
  replace (n + (32 - n)) with 32 by lia. lia.
Qed.

Lemma SHS_complement_not32 x :
  word32 x -> SHS.complement x = sha256.not32 x.
Proof.
  intros Hx. unfold SHS.complement, sha256.not32, word32 in *.
  change 0xFFFFFFFF with (Z.ones 32).
  assert (Hdisjoint : Z.land x (Z.lxor x (Z.ones 32)) = 0).
  { apply Z.bits_inj'. intros n Hn.
    rewrite Z.land_spec, Z.lxor_spec, Z.bits_0.
    destruct (decide (n < 32)) as [Hlow|Hhigh].
    - rewrite Z.ones_spec_low by lia. by destruct (Z.testbit x n).
    - rewrite (bits_below x 32 n) by lia. reflexivity. }
  pose proof (Z.add_nocarry_lxor _ _ Hdisjoint) as Hsum.
  rewrite <- Z.lxor_assoc, Z.lxor_nilpotent, Z.lxor_0_l in Hsum.
  change (Z.ones 32) with (2 ^ 32 - 1) in *. lia.
Qed.

Lemma SHS_Sigma0 x :
  word32 x ->
  SHS.Sigma0 x
  = Z.lxor (Z.lxor (sha256.rotr x 2) (sha256.rotr x 13)) (sha256.rotr x 22).
Proof. intros Hx. unfold SHS.Sigma0. by rewrite !SHS_ROTR_rotr by (lia || done). Qed.

Lemma SHS_Sigma1 x :
  word32 x ->
  SHS.Sigma1 x
  = Z.lxor (Z.lxor (sha256.rotr x 6) (sha256.rotr x 11)) (sha256.rotr x 25).
Proof. intros Hx. unfold SHS.Sigma1. by rewrite !SHS_ROTR_rotr by (lia || done). Qed.

Lemma SHS_sigma0 x :
  word32 x ->
  SHS.sigma0 x
  = Z.lxor (Z.lxor (sha256.rotr x 7) (sha256.rotr x 18)) (Z.shiftr x 3).
Proof.
  intros Hx. unfold SHS.sigma0.
  by rewrite !SHS_ROTR_rotr, SHS_SHR_shiftr by (lia || done).
Qed.

Lemma SHS_sigma1 x :
  word32 x ->
  SHS.sigma1 x
  = Z.lxor (Z.lxor (sha256.rotr x 17) (sha256.rotr x 19)) (Z.shiftr x 10).
Proof.
  intros Hx. unfold SHS.sigma1.
  by rewrite !SHS_ROTR_rotr, SHS_SHR_shiftr by (lia || done).
Qed.

Lemma word32_nth l i : Forall word32 l -> word32 (nth i l 0).
Proof.
  intros Hl. destruct (nth_in_or_default i l 0) as [Hin| ->].
  - by apply (proj1 (Forall_forall _ _) Hl), list_elem_of_In.
  - unfold word32. lia.
Qed.

(** *** The message schedule *)

Lemma SHS_W_S block t :
  SHS.W block (S t)
  = SHS.W block t
    ++ [if (t <? 16)%nat then SHS.M block t
        else SHS.plus
               (SHS.plus
                  (SHS.plus (SHS.sigma1 (nth (t - 2) (SHS.W block t) 0))
                            (nth (t - 7) (SHS.W block t) 0))
                  (SHS.sigma0 (nth (t - 15) (SHS.W block t) 0)))
               (nth (t - 16) (SHS.W block t) 0)].
Proof. reflexivity. Qed.

Lemma SHS_M_word32 block i : word32 (SHS.M block i).
Proof. apply SHS_number_word32. rewrite length_take. lia. Qed.

Lemma SHS_W_word32 block t : Forall word32 (SHS.W block t).
Proof.
  induction t as [|t IH]; [constructor|].
  rewrite SHS_W_S. apply Forall_app. split; [exact IH|].
  constructor; [|constructor].
  destruct (t <? 16)%nat; [apply SHS_M_word32|apply SHS_plus_word32].
Qed.

Lemma SHS_M_Uint32 block i :
  (4 * i + 4 <= length block)%nat ->
  SHS.M block i = BigEndian_Uint32 (take 4 (drop (4 * i) block)).
Proof.
  intros Hlen. unfold SHS.M.
  assert (Hfour : length (take 4 (drop (4 * i) block)) = 4%nat)
    by (rewrite length_take, length_drop; lia).
  destruct (take 4 (drop (4 * i) block)) as [|b0 [|b1 [|b2 [|b3 [|b4 rest]]]]];
    try discriminate Hfour.
  apply SHS_number_Uint32.
Qed.

Lemma SHS_W_16 block :
  length block = 64%nat ->
  SHS.W block 16
  = map (fun i => BigEndian_Uint32 (take 4 (drop (4 * i) block))) (seq 0 16).
Proof.
  intros Hlen.
  transitivity (map (SHS.M block) (seq 0 16)); [reflexivity|].
  apply map_ext_in. intros i Hi%in_seq. apply SHS_M_Uint32. lia.
Qed.

Lemma SHS_schedule_step block t :
  (16 <= t)%nat ->
  sha256.schedule_step (SHS.W block t) t = SHS.W block (S t).
Proof.
  intros Ht. rewrite SHS_W_S. unfold sha256.schedule_step, sha256.word.
  cbv zeta. f_equal. f_equal.
  rewrite (proj2 (Nat.ltb_ge t 16)) by exact Ht.
  pose proof (SHS_W_word32 block t) as Hws.
  rewrite SHS_sigma1, SHS_sigma0 by (by apply word32_nth).
  symmetry. apply SHS_plus3.
Qed.

Lemma SHS_schedule_turns block n :
  fold_left sha256.schedule_step (seq 16 n) (SHS.W block 16)
  = SHS.W block (16 + n).
Proof.
  induction n as [|n IH]; [reflexivity|].
  rewrite seq_S, fold_left_app, IH. cbn [fold_left].
  replace (16 + S n)%nat with (S (16 + n)) by lia.
  apply SHS_schedule_step. lia.
Qed.

Lemma SHS_schedule block :
  length block = 64%nat -> sha256.schedule block = SHS.W block 64.
Proof.
  intros Hlen. unfold sha256.schedule. cbv zeta.
  rewrite <- (SHS_W_16 block Hlen). apply (SHS_schedule_turns block 48).
Qed.

(** *** The compression of one block *)

Lemma SHS_step_round ws v t :
  Forall word32 (working v) ->
  SHS.step ws (working v) t = working (sha256.round ws v t)
  /\ Forall word32 (working (sha256.round ws v t)).
Proof.
  destruct v as [a b c d e f g h]. unfold working. cbn [sha256.va sha256.vb
    sha256.vc sha256.vd sha256.ve sha256.vf sha256.vg sha256.vh].
  intros Hv.
  apply Forall_cons in Hv as [Ha Hv]. apply Forall_cons in Hv as [Hb Hv].
  apply Forall_cons in Hv as [Hc Hv]. apply Forall_cons in Hv as [Hd Hv].
  apply Forall_cons in Hv as [He Hv]. apply Forall_cons in Hv as [Hf Hv].
  apply Forall_cons in Hv as [Hg Hv]. apply Forall_cons in Hv as [Hh _].
  unfold SHS.step, sha256.round. cbv zeta.
  cbn [sha256.va sha256.vb sha256.vc sha256.vd
       sha256.ve sha256.vf sha256.vg sha256.vh].
  rewrite SHS_K. unfold SHS.Ch, SHS.Maj, sha256.word.
  rewrite SHS_Sigma0, SHS_Sigma1, SHS_complement_not32 by assumption.
  rewrite !(SHS_plus4 h).
  split; [reflexivity|].
  repeat (apply Forall_cons_2; [first [assumption|apply Z.mod_pos_bound; lia]|]).
  constructor.
Qed.

Lemma SHS_rounds ws ts v :
  Forall word32 (working v) ->
  fold_left (SHS.step ws) ts (working v)
  = working (fold_left (sha256.round ws) ts v)
  /\ Forall word32 (working (fold_left (sha256.round ws) ts v)).
Proof.
  revert v. induction ts as [|t ts IH]; intros v Hv; [done|].
  cbn [fold_left].
  destruct (SHS_step_round ws v t Hv) as [-> Hv'].
  by apply IH.
Qed.

Lemma SHS_hash_block H block :
  length block = 64%nat -> length H = 8%nat -> Forall word32 H ->
  SHS.hash_block H block = sha256.compress H block
  /\ length (sha256.compress H block) = 8%nat
  /\ Forall word32 (sha256.compress H block).
Proof.
  intros Hblock Hlen HH.
  destruct H as [|h0 [|h1 [|h2 [|h3 [|h4 [|h5 [|h6 [|h7 [|h8 rest]]]]]]]]];
    try discriminate Hlen.
  unfold SHS.hash_block, sha256.compress. cbv zeta.
  rewrite (SHS_schedule block Hblock). unfold sha256.word. cbn [nth].
  destruct (SHS_rounds (SHS.W block 64) (seq 0 64)
              (sha256.Vars h0 h1 h2 h3 h4 h5 h6 h7) HH) as [Hfold _].
  change (working (sha256.Vars h0 h1 h2 h3 h4 h5 h6 h7))
    with [h0; h1; h2; h3; h4; h5; h6; h7] in Hfold.
  rewrite Hfold.
  destruct (fold_left (sha256.round (SHS.W block 64)) (seq 0 64)
              (sha256.Vars h0 h1 h2 h3 h4 h5 h6 h7)) as [a b c d e f g h].
  unfold working. cbn [sha256.va sha256.vb sha256.vc sha256.vd
                       sha256.ve sha256.vf sha256.vg sha256.vh zip_with].
  rewrite !SHS_plus_u32.
  rewrite (Z.add_comm a), (Z.add_comm b), (Z.add_comm c), (Z.add_comm d),
    (Z.add_comm e), (Z.add_comm f), (Z.add_comm g), (Z.add_comm h).
  split; [reflexivity|]. split; [reflexivity|].
  repeat (apply Forall_cons_2; [apply Z.mod_pos_bound; lia|]).
  constructor.
Qed.

(** *** The message: padding, blocks, digest *)

Lemma SHS_padding msg : SHS.padding msg = OnePass.padding msg.
Proof.
  unfold SHS.padding, OnePass.padding. cbv zeta.
  rewrite SHS_big_endian_8.
  change (SHS.octet 128) with x80. change (SHS.octet 0) with x00.
  cbn [app]. do 3 f_equal.
  set (l := Z.of_nat (length msg)).
  assert (Hk : (448 - (8 * l + 1)) mod 512 = 8 * ((55 - l) mod 64) + 7).
  { pose proof (Z.div_mod (55 - l) 64 ltac:(lia)) as Hdiv.
    pose proof (Z.mod_pos_bound (55 - l) 64 ltac:(lia)) as Hmod.
    symmetry. apply (Z.mod_unique _ _ ((55 - l) / 64)); lia. }
  rewrite Hk.
  replace (8 * ((55 - l) mod 64) + 7 - 7) with ((55 - l) mod 64 * 8) by lia.
  by rewrite Z.div_mul.
Qed.

Lemma blocks_whole (n : nat) (padded : list byte) :
  (n * 64 <= length padded)%nat ->
  Forall (fun block => length block = 64%nat)
         (reshape (replicate n 64%nat) padded).
Proof.
  revert padded. induction n as [|n IH]; intros padded Hlen; [constructor|].
  cbn [replicate reshape]. constructor.
  - rewrite length_take. lia.
  - apply IH. rewrite length_drop. lia.
Qed.

Lemma SHS_blocks_whole padded :
  Forall (fun block => length block = 64%nat) (SHS.blocks padded).
Proof.
  apply blocks_whole.
  pose proof (Nat.div_mod_eq (length padded) 64). lia.
Qed.

Lemma fold_left_nil {A B} (f : A -> B -> A) (a : A) : fold_left f [] a = a.
Proof. reflexivity. Qed.

Lemma SHS_hash_blocks bs H :
  Forall (fun block => length block = 64%nat) bs ->
  length H = 8%nat -> Forall word32 H ->
  fold_left SHS.hash_block bs H = fold_left sha256.compress bs H
  /\ length (fold_left sha256.compress bs H) = 8%nat.
Proof.
  revert H. induction bs as [|block bs IH]; intros H Hbs Hlen HH.
  { rewrite !fold_left_nil. by split. }
  apply Forall_cons in Hbs as [Hblock Hbs]. rewrite !fold_left_cons.
  destruct (SHS_hash_block H block Hblock Hlen HH) as (Heq & Hlen' & HH').
  rewrite Heq. exact (IH _ Hbs Hlen' HH').
Qed.

Lemma SHS_digest H :
  length H = 8%nat -> mjoin (SHS.big_endian 4 <$> H) = sha256.state_bytes H.
Proof.
  intros Hlen.
  destruct H as [|h0 [|h1 [|h2 [|h3 [|h4 [|h5 [|h6 [|h7 [|h8 rest]]]]]]]]];
    try discriminate Hlen.
  unfold sha256.state_bytes, sha256.word. cbn [nth fmap list_fmap].
  rewrite !SHS_big_endian_4. reflexivity.
Qed.

Lemma word32_init : Forall word32 sha256.init.
Proof.
  unfold sha256.init, word32.
  repeat (apply Forall_cons_2; [lia|]). constructor.
Qed.

(** The model's one-shot computation is SHA-256 as the standard defines
    it, for every message. *)
Lemma SHS_one_pass msg : OnePass.SHA256 msg = SHS.SHA256 msg.
Proof.
  unfold OnePass.SHA256, SHS.SHA256. rewrite SHS_padding, SHS_H0.
  change (OnePass.blocks ?p) with (SHS.blocks p).
  destruct (SHS_hash_blocks (SHS.blocks (msg ++ OnePass.padding msg)) sha256.init
              (SHS_blocks_whole _) eq_refl word32_init) as [-> Hlen].
  rewrite SHS_digest by exact Hlen. reflexivity.
Qed.

(** *** The digest in hexadecimal *)

Lemma SHS_hex_digits b :
  udigit (Z.shiftr (u8 b) 4) = SHS.hex_digit (SHS.value b / 16)
  /\ udigit (Z.land (u8 b) 0xF) = SHS.hex_digit (SHS.value b mod 16).
Proof. destruct b; split; reflexivity. Qed.

Lemma SHS_hex_cons b bs :
  SHS.hex (b :: bs)
  = String (SHS.hex_digit (SHS.value b / 16))
      (String (SHS.hex_digit (SHS.value b mod 16)) (SHS.hex bs)).
Proof. reflexivity. Qed.

Lemma SHS_fmt_X bs : fmt_X bs = SHS.hex bs.
Proof.
  induction bs as [|b bs IH]; [reflexivity|].
  rewrite SHS_hex_cons. cbn [fmt_X].
  destruct (SHS_hex_digits b) as [-> ->]. by rewrite IH.
Qed.

(** The content hash is SHA-256 as the standard defines it, in upper-case
    hexadecimal. *)
Lemma computeSHA256_SHS (fs : filesystem) romFile data :
  fs !! romFile = Some data -> Z.of_nat (length data) < 2 ^ 61 ->
  computeSHA256 fs romFile = Ok (SHS.hex (SHS.SHA256 data)).
Proof.
  intros Hfs Hlen.
  by rewrite (computeSHA256_one_pass fs romFile data Hfs Hlen), SHS_one_pass, SHS_fmt_X.
Qed.

(** C1. For every cartridge-image file (of fewer than 2^61 bytes, the
    domain of SHA-256), the content hash is the SHA-256 digest of all the
    bytes of the file, as FIPS 180-4 defines it ([SHS.SHA256], which has
    nothing of the library model in it), written as upper-case
    hexadecimal digits without separators: 64 characters. It does not
    depend on the file system or the path but on the bytes alone, nor on
    the size of the read buffer; [processRom], in both versions, returns
    this hash. The hash of the empty file is
    E3B0C44298FC1C149AFBF4C8996FB92427AE41E4649B934CA495991B7852B855, and
    the hashes of the messages of one, two and four blocks of the
    standard's examples are the published ones. *)
Theorem C1_content_hash (fs : filesystem) (romFile : string) (data : list byte) :
  fs !! romFile = Some data ->
  Z.of_nat (length data) < 2 ^ 61 ->
  computeSHA256 fs romFile = Ok (SHS.hex (SHS.SHA256 data))
  /\ String.length (SHS.hex (SHS.SHA256 data)) = 64%nat
  /\ Forall upper_hex_char (list_ascii_of_string (SHS.hex (SHS.SHA256 data)))
  /\ (forall (fs' : filesystem) romFile',
        fs' !! romFile' = Some data ->
        computeSHA256 fs' romFile' = computeSHA256 fs romFile)
  /\ (forall k, sha256.Sum (io_CopyBuffer sha256.New data k)
                = Ok (SHS.SHA256 data))
  /\ sha256.Sum256 data = Ok (SHS.SHA256 data)
  /\ (forall cleanTitle hashHex,
        processRom fs romFile = Ok (cleanTitle, hashHex)
        \/ Legacy.processRom fs romFile = Ok (cleanTitle, hashHex) ->
        hashHex = SHS.hex (SHS.SHA256 data))
  /\ (data = [] ->
      computeSHA256 fs romFile
      = Ok "E3B0C44298FC1C149AFBF4C8996FB92427AE41E4649B934CA495991B7852B855"%string)
  /\ (data = list_byte_of_string "abc" ->
      computeSHA256 fs romFile
      = Ok "BA7816BF8F01CFEA414140DE5DAE2223B00361A396177A9CB410FF61F20015AD"%string)
  /\ (data = list_byte_of_string
               "abcdbcdecdefdefgefghfghighijhijkijkljklmklmnlmnomnopnopq" ->
      computeSHA256 fs romFile
      = Ok "248D6A61D20638B8E5C026930C3E6039A33CE45964FF2167F6ECEDD419DB06C1"%string)
  /\ (data = list_byte_of_string
               ("abcdefghbcdefghicdefghijdefghijkefghijklfghijklmghijklmn"
                ++ "hijklmnoijklmnopjklmnopqklmnopqrlmnopqrsmnopqrstnopqrstu") ->
      computeSHA256 fs romFile
      = Ok "CF5B16A778AF8380036CE59E7B0492370B249B11E8F07A51AFAC45037AFEE9D1"%string)
  /\ (data = replicate 200 "a"%byte ->
      computeSHA256 fs romFile
      = Ok "C2A908D98F5DF987ADE41B5FCE213067EFBCC21EF2240212A41E54B5E7C28AE5"%string).
Proof.
  intros Hfs Hlen.
  pose proof (computeSHA256_one_pass fs romFile data Hfs Hlen) as Hhash.
  rewrite <- (SHS_one_pass data), <- (SHS_fmt_X (OnePass.SHA256 data)).
  split; [exact Hhash|]. split.
  { rewrite fmt_X_length. unfold OnePass.SHA256.
    by rewrite state_bytes_length. }
  split; [apply fmt_X_upper_hex|]. split.
  { intros fs' romFile' Hfs'. rewrite Hhash. by apply computeSHA256_one_pass. }
  split; [intros k; by apply Sum_copyBuffer|].
  split; [by apply Sum256_one_pass|]. split.
  { intros cleanTitle hashHex Hrom.
    rewrite Legacy_processRom_eq in Hrom.
    assert (Hok : processRom fs romFile = Ok (cleanTitle, hashHex)) by tauto.
    apply processRom_hash in Hok. rewrite Hhash in Hok. by injection Hok. }
  repeat split; intros ->; rewrite Hhash; vm_compute; reflexivity.
Qed.

Lemma C1_content_hash_witness :
  computeSHA256
    {["rom.z64"%string :=
        list_byte_of_string
          ("abcdefghbcdefghicdefghijdefghijkefghijklfghijklmghijklmn"
           ++ "hijklmnoijklmnopjklmnopqklmnopqrlmnopqrsmnopqrstnopqrstu")]}
    "rom.z64"
  = Ok "CF5B16A778AF8380036CE59E7B0492370B249B11E8F07A51AFAC45037AFEE9D1"%string.
Proof.
  pose proof (C1_content_hash
                {["rom.z64"%string :=
                    list_byte_of_string
                      ("abcdefghbcdefghicdefghijdefghijkefghijklfghijklmghijklmn"
                       ++ "hijklmnoijklmnopjklmnopqklmnopqrlmnopqrsmnopqrstnopqrstu")]}
                "rom.z64" _ (lookup_singleton_eq _ _)
                ltac:(vm_compute; reflexivity))
    as (_ & _ & _ & _ & _ & _ & _ & _ & _ & _ & Hknown & _).
  apply Hknown. reflexivity.
Defined.

(** * Further properties of the cartridge identifier *)

(** ** The checksum never panics *)

Lemma checkSum_total d msg :
  absorbed d msg ->
  exists digest, sha256.checkSum d = Ok digest /\ length digest = 32%nat.
Proof.
  intros Hd. unfold sha256.checkSum.
  set (t := if sha256.len d mod 64 <? 56 then 56 - sha256.len d mod 64
            else 64 + 56 - sha256.len d mod 64).
  set (padlen := x80 :: replicate (Z.to_nat t - 1) x00
                 ++ BigEndian_PutUint64 (Z.shiftl (sha256.len d) 3 mod 2 ^ 64)).
  pose proof (absorbed_Write d msg padlen Hd) as (_ & Hx' & _).
  destruct Hd as (_ & _ & Hl).
  assert (Hpad : (length (msg ++ padlen) mod 64 = 0)%nat).
  { unfold padlen. rewrite length_app. cbn [length].
    rewrite length_app, length_replicate. cbn [length BigEndian_PutUint64].
    assert (Hr : sha256.len d mod 64 = Z.of_nat (length msg) mod 64).
    { rewrite Hl. change (2 ^ 64) with (64 * 2 ^ 58).
      rewrite Z.rem_mul_r by lia.
      rewrite Z.mul_comm, Z.mod_add by lia. apply Z.mod_mod. lia. }
    pose proof (Z.mod_pos_bound (Z.of_nat (length msg)) 64 ltac:(lia)) as Hb.
    pose proof (Z.div_mod (Z.of_nat (length msg)) 64 ltac:(lia)) as Hq.
    apply Nat2Z.inj. rewrite Nat2Z.inj_mod.
    assert (Ht : 1 <= t <= 64) by (unfold t; destruct (_ <? _) eqn:E; lia).
    replace (Z.of_nat (length msg + S (Z.to_nat t - 1 + 8)))
      with (Z.of_nat (length msg) + t + 8) by lia.
    unfold t. rewrite Hr.
    destruct (Z.of_nat (length msg) mod 64 <? 56) eqn:E.
    - replace (Z.of_nat (length msg) + (56 - Z.of_nat (length msg) mod 64) + 8)
        with ((Z.of_nat (length msg) / 64 + 1) * 64) by lia.
      by rewrite Z.mod_mul.
    - replace (Z.of_nat (length msg)
               + (64 + 56 - Z.of_nat (length msg) mod 64) + 8)
        with ((Z.of_nat (length msg) / 64 + 2) * 64) by lia.
      by rewrite Z.mod_mul. }
  assert (Hwhole : (length (msg ++ padlen) / 64 * 64
                    = length (msg ++ padlen))%nat).
  { pose proof (Nat.div_mod_eq (length (msg ++ padlen)) 64). lia. }
  rewrite Hwhole, drop_all in Hx'.
  rewrite Hx', decide_True by reflexivity.
  eexists. split; [reflexivity|apply state_bytes_length].
Qed.

(** The hash of any file that exists: no error, no panic, 64 characters. *)
Lemma computeSHA256_total (fs : filesystem) romFile data :
  fs !! romFile = Some data ->
  exists hashHex,
    computeSHA256 fs romFile = Ok hashHex
    /\ String.length hashHex = 64%nat
    /\ Forall upper_hex_char (list_ascii_of_string hashHex).
Proof.
  intros Hfs. unfold computeSHA256, io_CopyBuffer, sha256.Sum. rewrite Hfs.
  destruct (checkSum_total _ data (absorbed_copyBuffer data (Z.to_nat 4095)))
    as (digest & -> & Hlen).
  exists (fmt_X digest). split; [reflexivity|]. split.
  - rewrite fmt_X_length, Hlen. reflexivity.
  - apply fmt_X_upper_hex.
Qed.

(** ** [processRom], step by step *)

Lemma processRom_missing (fs : filesystem) romFile :
  fs !! romFile = None ->
  processRom fs romFile = Err ErrOpenRom.
Proof. intros Hfs. unfold processRom. by rewrite Hfs. Qed.

Lemma processRom_short (fs : filesystem) romFile data :
  fs !! romFile = Some data -> (length data < 64)%nat ->
  processRom fs romFile
  = Err (ErrReadRomHeader
           (if decide (data = []) then io_EOF else io_ErrUnexpectedEOF)).
Proof.
  intros Hfs Hlen. unfold processRom, io_ReadFull. rewrite Hfs.
  destruct data as [|b data]; [reflexivity|].
  rewrite decide_False by (simpl; lia).
  rewrite decide_True by exact Hlen.
  by rewrite (decide_False (P := b :: data = [])).
Qed.

Lemma processRom_header (fs : filesystem) romFile data :
  fs !! romFile = Some data -> (64 <= length data)%nat ->
  processRom fs romFile
  = (detectRomFormat (take 4 data) ≫= fun romMode =>
     convertHeaderEndianness (take 64 data) romMode ≫= fun convHeader =>
     extractCleanTitle convHeader ≫= fun cleanTitle =>
     computeSHA256 fs romFile ≫= fun hashHex =>
     Ok (cleanTitle, hashHex)).
Proof.
  intros Hfs Hlen. unfold processRom. rewrite Hfs.
  rewrite <- (take_drop 64 data) at 1.
  rewrite io_ReadFull_whole by (rewrite ?length_take; lia).
  by rewrite take_take.
Qed.

Lemma extractCleanTitle_Ok convHeader :
  (0x34 <= length convHeader)%nat ->
  extractCleanTitle convHeader
  = Ok (string_of_list_byte
          (List.filter title_char
             (bytes_TrimRight (take 20 (drop 0x20 convHeader)) x20))).
Proof.
  intros Hlen. unfold extractCleanTitle.
  rewrite decide_False by lia.
  by rewrite title_loop_filter by constructor.
Qed.

Lemma filter_length_le_bytes (f : byte -> bool) l :
  (length (List.filter f l) <= length l)%nat.
Proof.
  induction l as [|b l IH]; simpl; [lia|]. destruct (f b); simpl; lia.
Qed.

Lemma string_of_list_byte_length l :
  String.length (string_of_list_byte l) = length l.
Proof.
  induction l as [|b l IH]; simpl; [reflexivity|]. f_equal. exact IH.
Qed.

Lemma bytes_TrimRight_length s c :
  (length (bytes_TrimRight s c) <= length s)%nat.
Proof.
  unfold bytes_TrimRight. rewrite length_rev.
  destruct (trimLeftByte_split (rev s) c) as (k & Hs & _).
  apply (f_equal (@length byte)) in Hs.
  rewrite length_rev, length_app in Hs. lia.
Qed.

Lemma clean_title_total convHeader :
  (0x34 <= length convHeader)%nat ->
  exists cleanTitle,
    extractCleanTitle convHeader = Ok cleanTitle
    /\ (String.length cleanTitle <= 20)%nat.
Proof.
  intros Hlen. rewrite extractCleanTitle_Ok by exact Hlen.
  eexists. split; [reflexivity|].
  rewrite string_of_list_byte_length.
  etrans; [apply filter_length_le_bytes|].
  etrans; [apply bytes_TrimRight_length|].
  rewrite length_take. lia.
Qed.

(** X1. The clean title of a header of at least 0x34 bytes is a string of
    at most 20 characters, each of them a letter, a digit or a space:
    whatever bytes the header holds, the title holds no path separator,
    no dot and no byte outside ASCII. *)
Theorem X1_clean_title_safe (convHeader : list byte) :
  (0x34 <= length convHeader)%nat ->
  exists cleanTitle,
    extractCleanTitle convHeader = Ok cleanTitle
    /\ (String.length cleanTitle <= 20)%nat
    /\ Forall (fun b => title_char b = true) (list_byte_of_string cleanTitle)
    /\ Forall (fun b => b <> x2f /\ b <> x5c /\ b <> x2e /\ u8 b < 0x80)
              (list_byte_of_string cleanTitle).
Proof.
  intros Hlen. rewrite extractCleanTitle_Ok by exact Hlen.
  eexists. split; [reflexivity|].
  set (t := bytes_TrimRight (take 20 (drop 32 convHeader)) x20).
  rewrite string_of_list_byte_length, list_byte_of_string_of_list_byte.
  assert (Hchars : Forall (fun b => title_char b = true)
                          (List.filter title_char t)).
  { apply Forall_forall. intros b Hb. apply list_elem_of_In in Hb.
    by apply filter_In in Hb as [_ Hb]. }
  split; [|split; [exact Hchars|]].
  - etrans; [apply filter_length_le_bytes|].
    etrans; [apply bytes_TrimRight_length|].
    rewrite length_take. lia.
  - eapply Forall_impl; [exact Hchars|].
    intros b Hb. pose proof (title_char_ascii b Hb) as Hascii.
    repeat split; try exact Hascii; intros ->; discriminate Hb.
Qed.

Lemma X1_clean_title_safe_witness :
  exists cleanTitle,
    extractCleanTitle (replicate 64 x2f) = Ok cleanTitle
    /\ (String.length cleanTitle <= 20)%nat.
Proof.
  destruct (X1_clean_title_safe (replicate 64 x2f) ltac:(simpl; lia))
    as (cleanTitle & Hok & Hlen & _).
  exists cleanTitle. split; [exact Hok|exact Hlen].
Defined.

(** X2. [processRom] on a file of fewer than 64 bytes returns the error
    of reading the header: it wraps [io.EOF] when the file is empty and
    [io.ErrUnexpectedEOF] otherwise; neither the magic bytes nor the hash
    are looked at. On a path that names no file it returns the error of
    opening the ROM. Both versions of [processRom] do so. *)
Theorem X2_processRom_short_file (fs : filesystem) (romFile : string)
  (data : list byte) :
  fs !! romFile = Some data ->
  (length data < 64)%nat ->
  processRom fs romFile
  = Err (ErrReadRomHeader
           (if decide (data = []) then io_EOF else io_ErrUnexpectedEOF))
  /\ Legacy.processRom fs romFile = processRom fs romFile
  /\ processRom (delete romFile fs) romFile = Err ErrOpenRom
  /\ Legacy.processRom (delete romFile fs) romFile = Err ErrOpenRom.
Proof.
  intros Hfs Hlen. split; [by apply processRom_short|].
  split; [apply Legacy_processRom_eq|].
  rewrite Legacy_processRom_eq.
  split; apply processRom_missing, lookup_delete_eq.
Qed.

Lemma X2_processRom_short_file_witness :
  processRom {["rom.z64"%string := [x80; x37; x12; x40]]} "rom.z64"
  = Err (ErrReadRomHeader io_ErrUnexpectedEOF).
Proof.
  exact (proj1 (X2_processRom_short_file
                  {["rom.z64"%string := [x80; x37; x12; x40]]} "rom.z64"
                  [x80; x37; x12; x40] (lookup_singleton_eq _ _)
                  ltac:(simpl; lia))).
Defined.

Lemma detect_known magic :
  magic ∈ [magic_big_endian; magic_little_endian; magic_byte_swapped] ->
  exists romMode, detectRomFormat magic = Ok romMode.
Proof.
  intros Hin. repeat (apply elem_of_cons in Hin as [->|Hin]);
    [by eexists..|by apply elem_of_nil in Hin].
Qed.

Lemma detect_unknown magic :
  magic ∉ [magic_big_endian; magic_little_endian; magic_byte_swapped] ->
  detectRomFormat magic = Err (ErrUnsupportedRomFormat magic).
Proof. intros Hnot. apply detect_range_Err. by rewrite romFormats_magics. Qed.

(** X3. On a file of at least 64 bytes, [processRom] succeeds if and only
    if the first four bytes are one of the three magic sequences; it
    does not panic, however long the file is; and what it returns on
    success is the clean title of the first 64 bytes, converted in the
    detected mode, of at most 20 characters, with the 64-character hash
    that [computeSHA256] returns for the file. *)
Theorem X3_processRom_succeeds (fs : filesystem) (romFile : string)
  (data : list byte) :
  fs !! romFile = Some data ->
  (64 <= length data)%nat ->
  ((exists cleanTitle hashHex, processRom fs romFile = Ok (cleanTitle, hashHex))
   <-> take 4 data
       ∈ [magic_big_endian; magic_little_endian; magic_byte_swapped])
  /\ processRom fs romFile <> Panic
  /\ (forall cleanTitle hashHex,
        processRom fs romFile = Ok (cleanTitle, hashHex) ->
        computeSHA256 fs romFile = Ok hashHex
        /\ String.length hashHex = 64%nat
        /\ (String.length cleanTitle <= 20)%nat
        /\ exists romMode convHeader,
             detectRomFormat (take 4 data) = Ok romMode
             /\ convertHeaderEndianness (take 64 data) romMode = Ok convHeader
             /\ extractCleanTitle convHeader = Ok cleanTitle).
Proof.
  intros Hfs Hlen.
  pose proof (processRom_header fs romFile data Hfs Hlen) as Hrom.
  destruct (computeSHA256_total fs romFile data Hfs)
    as (hash & Hhash & Hhashlen & _).
  assert (Hlen64 : length (take 64 data) = 64%nat)
    by (rewrite length_take; lia).
  assert (Hsteps : forall romMode,
    detectRomFormat (take 4 data) = Ok romMode ->
    exists convHeader cleanTitle,
      convertHeaderEndianness (take 64 data) romMode = Ok convHeader
      /\ extractCleanTitle convHeader = Ok cleanTitle
      /\ (String.length cleanTitle <= 20)%nat
      /\ processRom fs romFile = Ok (cleanTitle, hash)).
  { intros romMode Hmode.
    destruct (convertHeaderEndianness_length _ romMode Hlen64)
      as (convHeader & Hconv & Hconvlen).
    destruct (clean_title_total convHeader
                ltac:(rewrite Hconvlen; simpl; lia))
      as (cleanTitle & Htitle & Htitlelen).
    exists convHeader, cleanTitle. repeat split; try assumption.
    rewrite Hrom, Hmode. cbn [mbind result_bind].
    rewrite Hconv. cbn [mbind result_bind].
    rewrite Htitle. cbn [mbind result_bind].
    rewrite Hhash. reflexivity. }
  destruct (decide (take 4 data
              ∈ [magic_big_endian; magic_little_endian; magic_byte_swapped]))
    as [Hknown|Hunknown].
  - destruct (detect_known _ Hknown) as (romMode & Hmode).
    destruct (Hsteps romMode Hmode)
      as (convHeader & cleanTitle & Hconv & Htitle & Htitlelen & Hok).
    split; [split; [done|by eauto]|].
    split; [by rewrite Hok|].
    intros cleanTitle' hashHex' Hok'. rewrite Hok in Hok'.
    injection Hok' as <- <-. by eauto 10.
  - pose proof (detect_unknown _ Hunknown) as Herr.
    assert (Hfail : processRom fs romFile
                    = Err (ErrUnsupportedRomFormat (take 4 data)))
      by (by rewrite Hrom, Herr).
    split; [split; [intros (t & h & Hok); congruence|done]|].
    split; [by rewrite Hfail|].
    intros t h Hok. congruence.
Qed.

Lemma X3_processRom_succeeds_witness :
  exists cleanTitle hashHex,
    processRom {["rom.n64"%string := [x40; x12; x37; x80] ++ replicate 60 x00]}
      "rom.n64" = Ok (cleanTitle, hashHex).
Proof.
  apply (X3_processRom_succeeds
           {["rom.n64"%string := [x40; x12; x37; x80] ++ replicate 60 x00]}
           "rom.n64" ([x40; x12; x37; x80] ++ replicate 60 x00)
           (lookup_singleton_eq _ _) ltac:(simpl; lia)).
  compute_done.
Defined.

(** ** One header, three byte orders *)

Lemma reverse_groups4_app (a b : list byte) :
  (length a mod 4 = 0)%nat ->
  reverse_groups 4 (a ++ b) = reverse_groups 4 a ++ reverse_groups 4 b.
Proof.
  revert a. apply (groups4_ind (fun a =>
    reverse_groups 4 (a ++ b) = reverse_groups 4 a ++ reverse_groups 4 b)).
  - by rewrite reverse_groups_nil.
  - intros b0 b1 b2 b3 rest IH.
    change ((b0 :: b1 :: b2 :: b3 :: rest) ++ b)
      with (b0 :: b1 :: b2 :: b3 :: (rest ++ b)).
    by rewrite !reverse_groups4_cons, IH.
Qed.

Lemma reverse_groups2_app (a b : list byte) :
  (length a mod 2 = 0)%nat ->
  reverse_groups 2 (a ++ b) = reverse_groups 2 a ++ reverse_groups 2 b.
Proof.
  revert a. apply (groups2_ind (fun a =>
    reverse_groups 2 (a ++ b) = reverse_groups 2 a ++ reverse_groups 2 b)).
  - by rewrite reverse_groups_nil.
  - intros b0 b1 rest IH.
    change ((b0 :: b1 :: rest) ++ b) with (b0 :: b1 :: (rest ++ b)).
    by rewrite !reverse_groups2_cons, IH.
Qed.

Lemma take64_reverse_groups4 (rom : list byte) :
  (64 <= length rom)%nat ->
  take 64 (reverse_groups 4 rom) = reverse_groups 4 (take 64 rom).
Proof.
  intros Hlen.
  assert (H64 : length (take 64 rom) = 64%nat) by (rewrite length_take; lia).
  rewrite <- (take_drop 64 rom) at 1.
  rewrite reverse_groups4_app by (by apply mod4_of_64).
  apply take_app_length'.
  rewrite reverse_groups4_length by (by apply mod4_of_64). by symmetry.
Qed.

Lemma take64_reverse_groups2 (rom : list byte) :
  (64 <= length rom)%nat ->
  take 64 (reverse_groups 2 rom) = reverse_groups 2 (take 64 rom).
Proof.
  intros Hlen.
  assert (H64 : length (take 64 rom) = 64%nat) by (rewrite length_take; lia).
  rewrite <- (take_drop 64 rom) at 1.
  rewrite reverse_groups2_app by (by apply mod2_of_64).
  apply take_app_length'.
  rewrite reverse_groups2_length by (by apply mod2_of_64). by symmetry.
Qed.

Lemma take4_of_take64 (l : list byte) : take 4 (take 64 l) = take 4 l.
Proof. rewrite take_take. reflexivity. Qed.

Lemma processRom_of_header (fs : filesystem) romFile data romMode header :
  fs !! romFile = Some data ->
  (64 <= length data)%nat ->
  detectRomFormat (take 4 data) = Ok romMode ->
  convertHeaderEndianness (take 64 data) romMode = Ok header ->
  length header = 64%nat ->
  exists cleanTitle hashHex,
    extractCleanTitle header = Ok cleanTitle
    /\ processRom fs romFile = Ok (cleanTitle, hashHex).
Proof.
  intros Hfs Hlen Hmode Hconv Hheader.
  destruct (clean_title_total header ltac:(rewrite Hheader; simpl; lia))
    as (cleanTitle & Htitle & _).
  destruct (computeSHA256_total fs romFile data Hfs) as (hash & Hhash & _).
  exists cleanTitle, hash. split; [exact Htitle|].
  rewrite (processRom_header fs romFile data Hfs Hlen), Hmode.
  cbn [mbind result_bind]. rewrite Hconv. cbn [mbind result_bind].
  rewrite Htitle. cbn [mbind result_bind]. by rewrite Hhash.
Qed.

(** X4. The title does not depend on the byte order of the dump: for a
    ROM image of at least 64 bytes that starts with the big-endian magic
    bytes, [processRom] returns the same clean title for the image
    itself, for the image with every group of four bytes reversed, and
    for the image with every pair of bytes swapped; that title is the
    clean title of the first 64 bytes of the big-endian image. *)
Theorem X4_title_independent_of_byte_order (fs : filesystem)
  (z64File n64File v64File : string) (rom : list byte) :
  (64 <= length rom)%nat ->
  take 4 rom = magic_big_endian ->
  fs !! z64File = Some rom ->
  fs !! n64File = Some (reverse_groups 4 rom) ->
  fs !! v64File = Some (reverse_groups 2 rom) ->
  exists cleanTitle hashZ hashN hashV,
    extractCleanTitle (take 64 rom) = Ok cleanTitle
    /\ processRom fs z64File = Ok (cleanTitle, hashZ)
    /\ processRom fs n64File = Ok (cleanTitle, hashN)
    /\ processRom fs v64File = Ok (cleanTitle, hashV).
Proof.
  intros Hlen Hmagic Hz Hn Hv.
  assert (H64 : length (take 64 rom) = 64%nat) by (rewrite length_take; lia).
  assert (Hhead : exists b rest,
             take 64 rom = x80 :: x37 :: x12 :: x40 :: b /\ rom = take 64 rom ++ rest).
  { exists (drop 4 (take 64 rom)), (drop 64 rom). split.
    - rewrite <- (take_drop 4 (take 64 rom)) at 1.
      by rewrite take4_of_take64, Hmagic.
    - by rewrite take_drop. }
  destruct Hhead as (b & rest & Hhead & _).
  assert (Hlen4 : (64 <= length (reverse_groups 4 rom))%nat).
  { pose proof (f_equal length (take64_reverse_groups4 rom Hlen)) as Heq.
    rewrite reverse_groups4_length, H64, length_take in Heq
      by (by apply mod4_of_64). lia. }
  assert (Hlen2 : (64 <= length (reverse_groups 2 rom))%nat).
  { pose proof (f_equal length (take64_reverse_groups2 rom Hlen)) as Heq.
    rewrite reverse_groups2_length, H64, length_take in Heq
      by (by apply mod2_of_64). lia. }
  destruct (processRom_of_header fs z64File rom "z64" (take 64 rom) Hz Hlen)
    as (title & hashZ & Htitle & HokZ);
    [by rewrite Hmagic|apply convertHeaderEndianness_z64|exact H64|].
  destruct (processRom_of_header fs n64File (reverse_groups 4 rom) "n64"
              (take 64 rom) Hn Hlen4)
    as (titleN & hashN & HtitleN & HokN).
  { rewrite <- take4_of_take64, take64_reverse_groups4, Hhead by exact Hlen.
    by rewrite reverse_groups4_cons. }
  { rewrite take64_reverse_groups4 by exact Hlen.
    rewrite convertHeaderEndianness_n64
      by (rewrite reverse_groups4_length; by apply mod4_of_64).
    by rewrite reverse_groups4_involutive by (by apply mod4_of_64). }
  { exact H64. }
  destruct (processRom_of_header fs v64File (reverse_groups 2 rom) "v64"
              (take 64 rom) Hv Hlen2)
    as (titleV & hashV & HtitleV & HokV).
  { rewrite <- take4_of_take64, take64_reverse_groups2, Hhead by exact Hlen.
    by rewrite !reverse_groups2_cons. }
  { rewrite take64_reverse_groups2 by exact Hlen.
    rewrite convertHeaderEndianness_v64
      by (rewrite reverse_groups2_length; by apply mod2_of_64).
    by rewrite reverse_groups2_involutive by (by apply mod2_of_64). }
  { exact H64. }
  assert (titleN = title) as -> by congruence.
  assert (titleV = title) as -> by congruence.
  by exists title, hashZ, hashN, hashV.
Qed.

Lemma X4_title_independent_of_byte_order_witness :
  let rom := [x80; x37; x12; x40] ++ replicate 60 x41 in
  let fs : filesystem :=
    <["a.z64"%string := rom]>
      (<["a.n64"%string := reverse_groups 4 rom]>
         {["a.v64"%string := reverse_groups 2 rom]}) in
  exists cleanTitle hashZ hashN hashV,
    extractCleanTitle (take 64 rom) = Ok cleanTitle
    /\ processRom fs "a.z64" = Ok (cleanTitle, hashZ)
    /\ processRom fs "a.n64" = Ok (cleanTitle, hashN)
    /\ processRom fs "a.v64" = Ok (cleanTitle, hashV).
Proof.
  intros rom fs.
  apply (X4_title_independent_of_byte_order fs "a.z64" "a.n64" "a.v64" rom).
  - simpl. lia.
  - reflexivity.
  - apply lookup_insert_eq.
  - unfold fs. rewrite lookup_insert_ne by done. apply lookup_insert_eq.
  - unfold fs. rewrite !lookup_insert_ne by done. apply lookup_singleton_eq.
Defined.

(** * Further properties of the save transformer *)

(** ** What the functions do to the file system *)



(** The writes of [copyFile] after the unit is fixed. *)
Lemma copyFile_writes (unit : list byte) (fileSize targetSize : Z) :
  fileSize = Z.of_nat (length unit) ->
  0 < fileSize ->
  let out := Write [] unit in
  let numCopies :=
    if decide (targetSize > fileSize)
    then 1 + Z.quot (targetSize - fileSize) fileSize else 1 in
  let bytesToPad :=
    if decide (targetSize > fileSize)
    then Z.rem (targetSize - fileSize) fileSize else 0 in
  let out :=
    if decide (numCopies > 1)
    then Nat.iter (Z.to_nat (numCopies - 1)) (fun out => Write out unit) out
    else out in
  (if decide (bytesToPad > 0)
   then Write out (replicate (Z.to_nat bytesToPad) x00) else out)
  = if decide (targetSize > fileSize) then tiled unit targetSize else unit.
Proof.
  intros Hsize Hpos. destruct (Z_gt_le_dec targetSize fileSize) as [Hgt|Hle].
  - etrans; [apply copyFile_writes_tiled; [exact Hsize|lia]|].
    by rewrite decide_True.
  - cbv zeta.
    destruct (decide (targetSize > fileSize)) as [Hgt|_]; [lia|].
    destruct (decide (1 > 1)) as [Hgt|_]; [lia|].
    destruct (decide (0 > 0)) as [Hgt|_]; [lia|].
    reflexivity.
Qed.

Lemma copyFile_spec (fs : filesystem) src dst payload targetSize :
  fs !! src = Some payload -> src <> dst -> payload <> [] ->
  targetSize <> 0 ->
  copyFile fs src dst targetSize
  = (Ok tt,
     <[dst := if decide (targetSize > Z.of_nat (length (unit_of payload)))
              then tiled (unit_of payload) targetSize
              else unit_of payload]> fs).
Proof.
  intros Hsrc Hne Hpayload Htarget. unfold copyFile. rewrite Hsrc.
  rewrite lookup_insert_ne, Hsrc by done.
  change (default [] (Some payload)) with payload. unfold io_ReadAll.
  destruct (decide (targetSize = 0)) as [Hz|_]; [done|].
  assert (Hlen : (0 < length payload)%nat)
    by (destruct payload; [done|simpl; lia]).
  destruct (decide (Z.of_nat (length payload) = 0)) as [Hz|_]; [lia|].
  pose proof (unit_of_length payload Hpayload) as Hunit.
  unfold unit_of in *. unfold fullmempakSize, mempakSize.
  change (128 * 1024) with 131072. change (32 * 1024) with 32768.
  destruct (decide (Z.of_nat (length payload) > 131072)) as [Hbig|Hbig];
    cbv beta iota zeta.
  - destruct (decide (131072 <= 32768)) as [Hz|_]; [lia|].
    cbv beta iota zeta.
    rewrite insert_insert_eq. do 2 f_equal.
    replace (Z.of_nat (length (take (Z.to_nat 131072) payload)))
      with 131072 by (rewrite length_take; lia).
    apply copyFile_writes; [rewrite length_take; lia|lia].
  - destruct (decide (Z.of_nat (length payload) <= 32768)) as [Hsmall|Hsmall];
      cbv beta iota zeta.
    + rewrite insert_insert_eq. do 2 f_equal.
      apply copyFile_writes; [reflexivity|lia].
    + rewrite insert_insert_eq. do 2 f_equal.
      apply copyFile_writes; [reflexivity|lia].
Qed.


Lemma Legacy_copyFile_eq (fs : filesystem) src dst :
  Legacy.copyFile fs src dst = copyFile fs src dst 0.
Proof.
  unfold Legacy.copyFile, copyFile. destruct (fs !! src); [|reflexivity].
  by rewrite decide_True.
Qed.




(** X6. A save of a kind that is neither byte-swapped nor size-normalised
    is copied as it is: for every extension other than [.fla], [.sra],
    [.mpk] and [.pak], the destination holds exactly the source's bytes,
    whatever their number, and the result is success. The kinds [.ram]
    and [.flash] are among them, although the destination takes the
    extension of a byte-swapped kind. *)
Theorem X6_direct_copy_kinds (fs : filesystem)
  (saveFile saveExt outputFile : string) (payload : list byte) :
  fs !! saveFile = Some payload ->
  saveFile <> outputFile ->
  saveExt ∉ [".fla"; ".sra"; ".mpk"; ".pak"]%string ->
  transformSave fs saveFile saveExt outputFile
  = (Ok tt, <[outputFile := payload]> fs)
  /\ (saveExt ∈ [".ram"; ".flash"]%string ->
      outputExt_of saveExt ∈ ConversionExtensions).
Proof.
  intros Hsrc Hne Hext. split.
  - rewrite transformSave_copy.
    + assert (targetSize_of saveExt = 0) as ->.
      { unfold targetSize_of.
        destruct (decide (saveExt = ".mpk"%string)) as [->|_];
          [exfalso; apply Hext; compute_done|].
        destruct (decide (saveExt = ".pak"%string)) as [->|_];
          [exfalso; apply Hext; compute_done|].
        reflexivity. }
      by apply copyFile_direct.
    + intros Hin. apply Hext. unfold ConversionExtensions in Hin.
      repeat (apply elem_of_cons in Hin as [->|Hin]);
        [compute_done..|by apply elem_of_nil in Hin].
  - intros Hin. repeat (apply elem_of_cons in Hin as [->|Hin]);
      [compute_done..|by apply elem_of_nil in Hin].
Qed.

Lemma X6_direct_copy_kinds_witness :
  transformSave {["a.ram"%string := [x01; x02; x03]]} "a.ram" ".ram" "out.sra"
  = (Ok tt, <["out.sra"%string := [x01; x02; x03]]>
              {["a.ram"%string := [x01; x02; x03]]}).
Proof.
  exact (proj1 (X6_direct_copy_kinds
                  {["a.ram"%string := [x01; x02; x03]]} "a.ram" ".ram"
                  "out.sra" [x01; x02; x03] (lookup_singleton_eq _ _)
                  ltac:(done) ltac:(compute_done))).
Defined.

(** X7. [copyFile] with any target size other than zero, on a source
    that is not empty: the unit is the payload cut at 131072 bytes, or
    zero-padded up to 32768; the destination holds the unit tiled to the
    target size when the target is larger than the unit, and the unit
    alone otherwise. So the destination is never shorter than 32768
    bytes nor than the target: its size is the larger of the target and
    the unit's. *)
Theorem X7_copyFile_any_target (fs : filesystem) (src dst : string)
  (payload : list byte) (targetSize : Z) :
  fs !! src = Some payload ->
  src <> dst ->
  payload <> [] ->
  targetSize <> 0 ->
  exists out,
    copyFile fs src dst targetSize = (Ok tt, <[dst := out]> fs)
    /\ out = (if decide (targetSize > Z.of_nat (length (unit_of payload)))
              then tiled (unit_of payload) targetSize
              else unit_of payload)
    /\ Z.of_nat (length out)
       = Z.max targetSize (Z.of_nat (length (unit_of payload)))
    /\ 32768 <= Z.of_nat (length out)
    /\ take (length (unit_of payload)) out = unit_of payload.
Proof.
  intros Hsrc Hne Hpayload Htarget.
  eexists. split; [by apply copyFile_spec|]. split; [reflexivity|].
  pose proof (unit_of_length payload Hpayload) as Hunit.
  destruct (decide (targetSize > Z.of_nat (length (unit_of payload))))
    as [Hgt|Hle].
  - rewrite tiled_length by lia. repeat split; [lia|lia|].
    unfold tiled.
    assert (Hq : 1 <= targetSize / Z.of_nat (length (unit_of payload))).
    { apply Z.div_le_lower_bound; lia. }
    replace (Z.to_nat (targetSize / Z.of_nat (length (unit_of payload))))
      with (S (Z.to_nat (targetSize / Z.of_nat (length (unit_of payload)) - 1)))
      by lia.
    change (mjoin (replicate (S ?n) ?u)) with (u ++ mjoin (replicate n u)).
    rewrite <- app_assoc. by rewrite take_app_length.
  - repeat split; [lia|lia|]. by rewrite firstn_all.
Qed.

Lemma X7_copyFile_any_target_witness :
  exists out,
    copyFile {["a.mpk"%string := [x01]]} "a.mpk" "out.mpk" 5
    = (Ok tt, <["out.mpk"%string := out]> {["a.mpk"%string := [x01]]})
    /\ 32768 <= Z.of_nat (length out).
Proof.
  destruct (X7_copyFile_any_target {["a.mpk"%string := [x01]]}
              "a.mpk" "out.mpk" [x01] 5 (lookup_singleton_eq _ _)
              ltac:(done) ltac:(done) ltac:(done))
    as (out & Hcopy & _ & _ & Hlen & _).
  exists out. split; [exact Hcopy|exact Hlen].
Defined.

Lemma tiled_exact (unit : list byte) :
  (0 < length unit)%nat -> tiled unit (Z.of_nat (length unit)) = unit.
Proof.
  intros Hlen. unfold tiled.
  rewrite Z.div_same, Z.mod_same by lia.
  change (mjoin (replicate (Z.to_nat 1) unit)) with (unit ++ mjoin []).
  change (mjoin []) with (@nil byte).
  by rewrite !app_nil_r.
Qed.

Lemma unit_of_unit (out : list byte) :
  32768 <= Z.of_nat (length out) <= 131072 -> unit_of out = out.
Proof.
  intros Hlen. unfold unit_of.
  destruct (decide (Z.of_nat (length out) > 131072)) as [Hbig|_]; [lia|].
  destruct (decide (Z.of_nat (length out) <= 32768)) as [Hsmall|_];
    [|reflexivity].
  replace (32768 - Z.of_nat (length out)) with 0 by lia.
  apply app_nil_r.
Qed.

(** X8. Size normalisation is idempotent up to 131072 bytes: for a
    target size that is not zero and at most 131072, running [copyFile]
    on its own output gives that output again, byte for byte. *)
Theorem X8_normalisation_idempotent (fs : filesystem)
  (src dst dst' : string) (payload : list byte) (targetSize : Z) :
  fs !! src = Some payload ->
  src <> dst ->
  dst <> dst' ->
  payload <> [] ->
  targetSize <> 0 ->
  targetSize <= fullmempakSize ->
  exists out,
    copyFile fs src dst targetSize = (Ok tt, <[dst := out]> fs)
    /\ copyFile (<[dst := out]> fs) dst dst' targetSize
       = (Ok tt, <[dst' := out]> (<[dst := out]> fs)).
Proof.
  intros Hsrc Hne Hne' Hpayload Htarget Hmax.
  unfold fullmempakSize in Hmax.
  pose proof (unit_of_length payload Hpayload) as Hunit.
  set (out := if decide (targetSize > Z.of_nat (length (unit_of payload)))
              then tiled (unit_of payload) targetSize
              else unit_of payload).
  assert (Hout : 32768 <= Z.of_nat (length out) <= 131072
                 /\ targetSize <= Z.of_nat (length out)).
  { unfold out. case_decide; [rewrite tiled_length by lia|]; lia. }
  exists out. split; [by apply copyFile_spec|].
  rewrite (copyFile_spec _ dst dst' out targetSize);
    [|apply lookup_insert_eq|exact Hne'| |exact Htarget].
  - rewrite unit_of_unit by lia.
    destruct (decide (targetSize > Z.of_nat (length out))) as [Hgt|_]; [lia|].
    reflexivity.
  - intros Hnil. rewrite Hnil in Hout. simpl in Hout. lia.
Qed.

Lemma X8_normalisation_idempotent_witness :
  exists out,
    copyFile {["a.mpk"%string := [x01]]} "a.mpk" "b.mpk" fullmempakSize
    = (Ok tt, <["b.mpk"%string := out]> {["a.mpk"%string := [x01]]})
    /\ copyFile (<["b.mpk"%string := out]> {["a.mpk"%string := [x01]]})
         "b.mpk" "c.mpk" fullmempakSize
       = (Ok tt, <["c.mpk"%string := out]>
                   (<["b.mpk"%string := out]> {["a.mpk"%string := [x01]]})).
Proof.
  apply (X8_normalisation_idempotent {["a.mpk"%string := [x01]]}
           "a.mpk" "b.mpk" "c.mpk" [x01] fullmempakSize
           (lookup_singleton_eq _ _));
    [done|done|done|done|reflexivity].
Defined.

(** ** The two versions of the save transformer *)

Lemma convertSaveFile_versions (fs : filesystem) (src dst : string) :
  (Legacy.convertSaveFile fs src dst).2 = (convertSaveFile fs src dst).2
  /\ ((Legacy.convertSaveFile fs src dst).1 = Ok tt
      <-> (convertSaveFile fs src dst).1 = Ok tt).
Proof.
  unfold Legacy.convertSaveFile, convertSaveFile.
  destruct (fs !! src) as [payload|]; [|by repeat split].
  rewrite convert_loop_spec, Legacy_convert_loop_spec.
  cbv beta iota zeta. cbn [fst snd].
  split; [reflexivity|]. case_decide; by repeat split.
Qed.

(** X9. The two versions of the save transformer leave the same file
    system behind on every input, and succeed on the same inputs: the
    first version's [copyFile] is the later one's with target size zero,
    and the two versions of [convertSaveFile] differ only in the error
    they return for a payload that does not end on a group of four
    bytes, which the first version names and the later one reports as an
    unexpected end of file. *)
Theorem X9_versions_agree_on_saves (fs : filesystem) (src dst : string) :
  Legacy.copyFile fs src dst = copyFile fs src dst 0
  /\ (Legacy.convertSaveFile fs src dst).2 = (convertSaveFile fs src dst).2
  /\ ((Legacy.convertSaveFile fs src dst).1 = Ok tt
      <-> (convertSaveFile fs src dst).1 = Ok tt)
  /\ ((Legacy.convertSaveFile fs src dst).1 = Err ErrOpenSave
      <-> (convertSaveFile fs src dst).1 = Err ErrOpenSave)
  /\ ((Legacy.convertSaveFile fs src dst).1 = Err ErrNotMultipleOf4
      <-> (convertSaveFile fs src dst).1 = Err (ErrReadSave io_ErrUnexpectedEOF)).
Proof.
  split; [apply Legacy_copyFile_eq|].
  unfold Legacy.convertSaveFile, convertSaveFile.
  destruct (fs !! src) as [payload|]; [|by repeat split].
  rewrite convert_loop_spec, Legacy_convert_loop_spec.
  cbv beta iota zeta. cbn [fst snd].
  split; [reflexivity|].
  case_decide; by repeat split.
Qed.

(** ** The values of the words *)

Lemma words_LE_cons b0 b1 b2 b3 rest :
  words_LE (b0 :: b1 :: b2 :: b3 :: rest)
  = LittleEndian_Uint32 [b0; b1; b2; b3] :: words_LE rest.
Proof.
  unfold words_LE.
  replace (length (b0 :: b1 :: b2 :: b3 :: rest))
    with (1 * 4 + length rest)%nat by (simpl; lia).
  rewrite Nat.div_add_l by lia. reflexivity.
Qed.

Lemma words_BE_cons b0 b1 b2 b3 rest :
  words_BE (b0 :: b1 :: b2 :: b3 :: rest)
  = BigEndian_Uint32 [b0; b1; b2; b3] :: words_BE rest.
Proof.
  unfold words_BE.
  replace (length (b0 :: b1 :: b2 :: b3 :: rest))
    with (1 * 4 + length rest)%nat by (simpl; lia).
  rewrite Nat.div_add_l by lia. reflexivity.
Qed.

Lemma words_of_reversed (l : list byte) :
  words_LE (reverse_groups 4 l) = words_BE l
  /\ words_BE (reverse_groups 4 l) = words_LE l
  /\ length (reverse_groups 4 l) = (length l / 4 * 4)%nat
  /\ length (words_BE l) = (length l / 4)%nat.
Proof.
  induction l as [tail Htail|b0 b1 b2 b3 rest IH] using groups4_tail_ind.
  - rewrite reverse_groups4_tail by exact Htail.
    unfold words_BE, words_LE.
    rewrite (Nat.div_small (length tail)) by exact Htail.
    by repeat split.
  - destruct IH as (IH1 & IH2 & IH3 & IH4).
    rewrite reverse_groups4_cons, !words_LE_cons, !words_BE_cons.
    rewrite IH1, IH2. cbn [length]. rewrite IH3, IH4.
    replace (S (S (S (S (length rest))))) with (1 * 4 + length rest)%nat
      by lia.
    rewrite Nat.div_add_l by lia. repeat split; lia.
Qed.

(** X10. The byte swap keeps the values: the 32-bit words of the
    destination of [convertSaveFile], read in little-endian order, are
    the words of the source read in big-endian order, one for every
    complete group of four bytes of the source and no more; and the
    words of a header converted in mode [n64], read in big-endian order,
    are the words of the raw header read in little-endian order. *)
Theorem X10_word_values_preserved (fs : filesystem) (src dst : string)
  (payload rawHeader : list byte) :
  fs !! src = Some payload ->
  src <> dst ->
  (length rawHeader mod 4 = 0)%nat ->
  (exists out,
      (convertSaveFile fs src dst).2 !! dst = Some out
      /\ words_LE out = words_BE payload
      /\ length (words_LE out) = (length payload / 4)%nat
      /\ length out = (4 * length (words_LE out))%nat)
  /\ (exists convHeader,
        convertHeaderEndianness rawHeader "n64" = Ok convHeader
        /\ words_BE convHeader = words_LE rawHeader).
Proof.
  intros Hsrc Hne Hmod.
  destruct (words_of_reversed payload) as (Hle & _ & Hlen & Hwords).
  destruct (words_of_reversed rawHeader) as (_ & Hbe & _ & _).
  split.
  - exists (reverse_groups 4 payload).
    rewrite (convertSaveFile_spec fs src dst payload Hsrc Hne). cbn [snd].
    rewrite lookup_insert_eq, Hle, Hwords, Hlen.
    repeat split. lia.
  - exists (reverse_groups 4 rawHeader).
    by rewrite convertHeaderEndianness_n64.
Qed.

Lemma X10_word_values_preserved_witness :
  exists out,
    (convertSaveFile {["a.sra"%string := [x12; x34; x56; x78; x9a]]}
       "a.sra" "out.sra").2 !! "out.sra"%string = Some out
    /\ words_LE out = words_BE [x12; x34; x56; x78; x9a].
Proof.
  destruct (X10_word_values_preserved
              {["a.sra"%string := [x12; x34; x56; x78; x9a]]}
              "a.sra" "out.sra" [x12; x34; x56; x78; x9a] []
              (lookup_singleton_eq _ _) ltac:(done) ltac:(reflexivity))
    as ((out & Hout & Hwords & _) & _).
  exists out. split; [exact Hout|exact Hwords].
Defined.

(** * Properties of the command line *)

(** ** [filepath.Ext] *)


Lemma list_ascii_of_string_app (a b : string) :
  list_ascii_of_string (a ++ b)%string
  = list_ascii_of_string a ++ list_ascii_of_string b.
Proof. induction a as [|c a IH]; simpl; [reflexivity|]. by rewrite IH. Qed.

Lemma dot_no_separator goos : os_IsPathSeparator goos "."%char = false.
Proof. by destruct goos. Qed.



Lemma Ext_loop_extension goos e before suffix :
  Forall (fun c => c <> "."%char /\ os_IsPathSeparator goos c = false) e ->
  Ext_loop goos (e ++ "."%char :: before) suffix
  = "."%char :: rev e ++ suffix.
Proof.
  revert suffix. induction e as [|c e IH]; intros suffix Hplain.
  - cbn [app Ext_loop rev]. by rewrite dot_no_separator.
  - apply Forall_cons in Hplain as [[Hdot Hsep] Hplain].
    cbn [app Ext_loop]. rewrite Hsep.
    rewrite bool_decide_eq_false_2 by exact Hdot.
    rewrite IH by exact Hplain. cbn [rev]. by rewrite <- app_assoc.
Qed.



Lemma filepath_Ext_extension goos stem ext :
  plain_extension goos ext ->
  filepath_Ext goos (stem ++ ext) = ext.
Proof.
  intros (e & -> & Hplain). unfold filepath_Ext.
  rewrite list_ascii_of_string_app. cbn [list_ascii_of_string].
  rewrite rev_app_distr. cbn [rev]. rewrite <- app_assoc. cbn [app].
  rewrite Ext_loop_extension by (by apply Forall_rev).
  rewrite rev_involutive, app_nil_r. cbn [string_of_list_ascii].
  by rewrite string_of_list_ascii_of_string.
Qed.

(** ** [os.Stat] and [validateFile] *)

Lemma os_Stat_file (sys : system) (fs : filesystem) name content :
  directories sys !! resolve sys name = None ->
  fs !! resolve sys name = Some content ->
  os_Stat sys fs name
  = Some {| IsDir := false; Size := Z.of_nat (length content) |}.
Proof. intros Hdir Hfs. unfold os_Stat. by rewrite Hdir, Hfs. Qed.

Lemma os_Stat_regular (sys : system) (fs : filesystem) name fileInfo :
  os_Stat sys fs name = Some fileInfo ->
  IsDir fileInfo = false ->
  directories sys !! resolve sys name = None
  /\ exists content,
       fs !! resolve sys name = Some content
       /\ Size fileInfo = Z.of_nat (length content).
Proof.
  unfold os_Stat. destruct (directories sys !! resolve sys name) as [size|].
  { by intros [= <-]. }
  destruct (fs !! resolve sys name) as [content|]; [|done].
  intros [= <-] _. split; [done|]. by exists content.
Qed.


Lemma validateFile_None (sys : system) (fs : filesystem) filePath maxSize
  allowed fileType :
  validateFile sys fs filePath false maxSize (Some allowed) fileType = None
  <-> directories sys !! resolve sys filePath = None
      /\ exists content,
           fs !! resolve sys filePath = Some content
           /\ Z.of_nat (length content) <= maxSize
           /\ filepath_Ext (runtime_GOOS sys) filePath ∈ allowed.
Proof.
  unfold validateFile. split.
  - destruct (os_Stat sys fs filePath) as [fileInfo|] eqn:Hstat; [|done].
    destruct (decide (IsDir fileInfo <> false)) as [|Hfile]; [done|].
    assert (Hreg : IsDir fileInfo = false) by (by apply dec_stable).
    destruct (os_Stat_regular sys fs filePath fileInfo Hstat Hreg)
      as (Hdir & content & Hfs & Hsize).
    destruct (decide (false = false /\ Size fileInfo > maxSize)) as [|Hfits];
      [done|].
    destruct (decide (filepath_Ext (runtime_GOOS sys) filePath ∈ allowed));
      [|done].
    intros _. split; [exact Hdir|]. exists content.
    repeat split; [exact Hfs| |assumption].
    rewrite <- Hsize. destruct (decide (Size fileInfo > maxSize)); [|lia].
    by exfalso; apply Hfits.
  - intros (Hdir & content & Hfs & Hsize & Hext).
    rewrite (os_Stat_file sys fs filePath content Hdir Hfs). cbn [IsDir Size].
    rewrite decide_False by (by intros H; apply H).
    rewrite decide_False by (intros [_ H]; lia).
    by rewrite decide_True.
Qed.

(** X11. [validateFile] goes by the name alone, and by its last
    extension: for an extension made of a dot and of characters that are
    neither a dot nor a path separator, [filepath.Ext] of any stem
    followed by the extension is the extension; so a path of that name
    for which [os.Stat] finds a file, not a directory, of a size within
    the limit is accepted exactly when the extension is in the allowed
    set, and refused otherwise with the error that names the extension.
    The content is not looked at. *)
Theorem X11_validateFile_by_extension (sys : system) (fs : filesystem)
  (stem ext fileType : string) (size maxSize : Z) (allowed : list string) :
  plain_extension (runtime_GOOS sys) ext ->
  os_Stat sys fs (stem ++ ext) = Some {| IsDir := false; Size := size |} ->
  size <= maxSize ->
  filepath_Ext (runtime_GOOS sys) (stem ++ ext) = ext
  /\ (validateFile sys fs (stem ++ ext) false maxSize (Some allowed) fileType
      = None <-> ext ∈ allowed)
  /\ (ext ∉ allowed ->
      validateFile sys fs (stem ++ ext) false maxSize (Some allowed) fileType
      = Some (ErrUnsupportedExtension fileType ext)).
Proof.
  intros Hplain Hstat Hsize.
  pose proof (filepath_Ext_extension (runtime_GOOS sys) stem ext Hplain)
    as Hext.
  destruct (os_Stat_regular sys fs _ _ Hstat eq_refl)
    as (Hdir & content & Hfs & Hlen). cbn [Size] in Hlen.
  split; [exact Hext|]. split.
  - rewrite validateFile_None, Hext. split.
    + by intros (_ & _ & _ & _ & Hin).
    + intros Hin. split; [done|]. exists content.
      repeat split; [done|lia|done].
  - intros Hnot. unfold validateFile. rewrite Hstat, Hext. cbn [IsDir Size].
    rewrite decide_False by (by intros H; apply H).
    rewrite decide_False by (intros [_ H]; lia).
    by rewrite decide_False.
Qed.

Lemma X11_validateFile_by_extension_witness :
  validateFile (plain windows) {["C:\saves\Zelda.v2.sra"%string := [x00]]}
    "C:\saves\Zelda.v2.sra" false maxSaveFileSize
    (Some allowedSaveExtensions) "Save:" = None.
Proof.
  apply (X11_validateFile_by_extension (plain windows)
           {["C:\saves\Zelda.v2.sra"%string := [x00]]}
           "C:\saves\Zelda.v2" ".sra" "Save:" 1 maxSaveFileSize
           allowedSaveExtensions);
    [|reflexivity|done|compute_done].
  exists "sra"%string. split; [reflexivity|]. by repeat constructor.
Defined.



(** ** [main] *)

Lemma processRom_total (fs : filesystem) romFile :
  (exists e, processRom fs romFile = Err e)
  \/ (exists cleanTitle hashHex,
        processRom fs romFile = Ok (cleanTitle, hashHex)).
Proof.
  destruct (fs !! romFile) as [data|] eqn:Hfs;
    [|left; eexists; by apply processRom_missing].
  destruct (decide (length data < 64)%nat) as [Hshort|Hlong].
  { left. eexists. by apply processRom_short. }
  assert (Hlen : (64 <= length data)%nat) by lia.
  destruct (decide (take 4 data
              ∈ [magic_big_endian; magic_little_endian; magic_byte_swapped]))
    as [Hknown|Hunknown].
  - right. destruct (detect_known _ Hknown) as (romMode & Hmode).
    destruct (convertHeaderEndianness_length (take 64 data) romMode)
      as (header & Hconv & Hheader); [rewrite length_take; lia|].
    destruct (processRom_of_header fs romFile data romMode header
                Hfs Hlen Hmode Hconv Hheader) as (title & hash & _ & Hok).
    by eauto.
  - left. eexists.
    by rewrite (processRom_header fs romFile data Hfs Hlen),
      (detect_unknown _ Hunknown).
Qed.

Lemma processRom_known (fs : filesystem) romFile rom :
  fs !! romFile = Some rom ->
  (64 <= length rom)%nat ->
  take 4 rom ∈ [magic_big_endian; magic_little_endian; magic_byte_swapped] ->
  exists cleanTitle hashHex, processRom fs romFile = Ok (cleanTitle, hashHex).
Proof.
  intros Hfs Hlen Hknown.
  destruct (detect_known _ Hknown) as (romMode & Hmode).
  destruct (convertHeaderEndianness_length (take 64 rom) romMode)
    as (header & Hconv & Hheader); [rewrite length_take; lia|].
  destruct (processRom_of_header fs romFile rom romMode header
              Hfs Hlen Hmode Hconv Hheader) as (title & hash & _ & Hok).
  by eauto.
Qed.

Lemma transformSave_results (fs : filesystem) src saveExt dst :
  is_Some (fs !! src) ->
  exists r out,
    transformSave fs src saveExt dst = (r, <[dst := out]> fs)
    /\ (r = Ok tt
        \/ r = Err (ErrReadSave io_ErrUnexpectedEOF)
        \/ (r = Err ErrSourceEmpty /\ out = [])).
Proof.
  intros [payload Hsrc]. unfold transformSave. case_decide.
  - destruct (decide (src = dst)) as [<-|Hne].
    + rewrite (proj1 (convertSaveFile_same_path fs src ltac:(by eexists))).
      eexists _, _. split; [reflexivity|by left].
    + rewrite (convertSaveFile_spec fs src dst payload Hsrc Hne).
      eexists _, _. split; [reflexivity|]. case_decide; [by left|by right; left].
  - destruct (decide (src = dst)) as [<-|Hne].
    { rewrite copyFile_same_path by (by eexists).
      eexists _, _. split; [reflexivity|].
      case_decide; [by left|by right; right]. }
    destruct (decide (payload = [])) as [->|Hpayload].
    { rewrite (copyFile_empty fs src dst _ Hsrc).
      eexists _, _. split; [reflexivity|].
      case_decide; [by left|by right; right]. }
    destruct (decide (targetSize_of saveExt = 0)) as [->|Htarget].
    { rewrite (copyFile_direct fs src dst payload Hsrc Hne).
      eexists _, _. split; [reflexivity|by left]. }
    rewrite (copyFile_spec fs src dst payload _ Hsrc Hne Hpayload Htarget).
    eexists _, _. split; [reflexivity|by left].
Qed.

Lemma transformSave_content (fs : filesystem) saveFile saveExt outputFile
  payload :
  fs !! saveFile = Some payload -> payload <> [] -> saveFile <> outputFile ->
  transformSave fs saveFile saveExt outputFile
  = (if decide (saveExt ∈ ConversionExtensions
                /\ (length payload mod 4 <> 0)%nat)
     then Err (ErrReadSave io_ErrUnexpectedEOF) else Ok tt,
     <[outputFile :=
         if decide (saveExt ∈ ConversionExtensions)
         then reverse_groups 4 payload
         else if decide (targetSize_of saveExt = 0) then payload
         else tiled (unit_of payload) fullmempakSize]> fs).
Proof.
  intros Hsrc Hpayload Hne. unfold transformSave.
  destruct (decide (saveExt ∈ ConversionExtensions)) as [Hconv|Hcopy].
  - rewrite (convertSaveFile_spec fs saveFile outputFile payload Hsrc Hne).
    f_equal.
    destruct (decide (length payload mod 4 = 0)%nat) as [Hmod|Hmod].
    + by rewrite decide_False by (by intros [_ ?]).
    + by rewrite decide_True.
  - rewrite decide_False by (by intros [? _]).
    destruct (decide (targetSize_of saveExt = 0)) as [Hzero|Hsize].
    + rewrite Hzero. by apply copyFile_direct.
    + assert (targetSize_of saveExt = fullmempakSize) as ->.
      { unfold targetSize_of in *. by repeat case_decide. }
      by apply copyFile_normalised.
Qed.

Lemma arguments_three prog prog' saveFile romFile saveDialog romDialog :
  arguments prog [prog'; saveFile; romFile] saveDialog romDialog
  = Some [prog'; saveFile; romFile].
Proof. reflexivity. Qed.

Lemma arguments_cases prog Args saveDialog romDialog :
  (length Args = 1%nat
   /\ ((saveDialog = None \/ romDialog = None)
       /\ arguments prog Args saveDialog romDialog = None
       \/ exists saveFile romFile,
            saveDialog = Some saveFile /\ romDialog = Some romFile
            /\ arguments prog Args saveDialog romDialog
               = Some [prog; saveFile; romFile]))
  \/ (length Args <> 1%nat
      /\ arguments prog Args saveDialog romDialog = Some Args).
Proof.
  unfold arguments. destruct (decide (length Args = 1%nat)); [left|by right].
  split; [done|].
  destruct saveDialog as [saveFile|]; [|by left; split; [left|]].
  destruct romDialog as [romFile|]; [|by left; split; [right|]].
  right. by exists saveFile, romFile.
Qed.

Lemma arguments_empty prog Args saveDialog romDialog :
  arguments prog Args saveDialog romDialog = Some [] -> Args = [].
Proof.
  destruct (arguments_cases prog Args saveDialog romDialog)
    as [[_ [[_ ->]|(saveFile & romFile & _ & _ & ->)]]|[_ ->]]; congruence.
Qed.

Lemma os_Create_directory (sys : system) name :
  is_Some (directories sys !! resolve sys name) ->
  os_Create_fails sys name = true.
Proof. intros Hdir. by apply bool_decide_eq_true_2. Qed.

Lemma os_Create_free (sys : system) name :
  directories sys !! resolve sys name = None ->
  os_Create_fails sys name = false.
Proof.
  intros Hdir. apply bool_decide_eq_false_2. rewrite Hdir. by intros [? ?].
Qed.

Ltac three_arguments Hargs Hsave Hrom :=
  unfold main; rewrite Hargs; cbv beta iota; cbn [existsb nth];
  rewrite Hsave, Hrom; cbn [orb];
  match goal with
  | |- context [decide (length ?args <> 3%nat)] =>
      destruct (decide (length args <> 3%nat)) as [Hn|_];
      [by exfalso; apply Hn|]
  end.

Lemma main_outcomes (sys : system) (fs : filesystem) (Args : list string)
  (saveDialog romDialog : option string) :
  let run := main sys fs Args saveDialog romDialog in
  match arguments "save-converter" Args saveDialog romDialog with
  | None => run = (Cancelled, fs)
  | Some Args' =>
    let saveFile := nth 1 Args' EmptyString in
    let romFile := nth 2 Args' EmptyString in
    (Args' = [] /\ run = (Crashed, fs))
    \/ run = (Usage, fs)
    \/ run = (InvalidArgument, fs)
    \/ (exists e, run = (Invalid e, fs))
    \/ (exists e,
          processRom fs (resolve sys romFile) = Err e
          /\ run = (Failed e, fs))
    \/ (exists cleanTitle hashHex,
          processRom fs (resolve sys romFile) = Ok (cleanTitle, hashHex)
          /\ is_Some (fs !! resolve sys saveFile)
          /\ let outputFile :=
               (cleanTitle ++ "-" ++ hashHex
                ++ outputExt_of
                     (filepath_Ext (runtime_GOOS sys) saveFile))%string in
             (is_Some (directories sys !! resolve sys outputFile)
              /\ run = (NotCreated, fs))
             \/ (directories sys !! resolve sys outputFile = None
                 /\ exists out,
                      run = (Converted outputFile,
                             <[resolve sys outputFile := out]> fs)
                      \/ run = (Failed (ErrReadSave io_ErrUnexpectedEOF),
                                <[resolve sys outputFile := out]> fs)
                      \/ run = (Failed ErrSourceEmpty,
                                <[resolve sys outputFile := []]> fs)))
  end.
Proof.
  cbv zeta. unfold main.
  destruct (arguments "save-converter" Args saveDialog romDialog)
    as [[|prog flags]|]; [by left| |reflexivity].
  set (saveFile := nth 1 (prog :: flags) EmptyString).
  set (romFile := nth 2 (prog :: flags) EmptyString).
  destruct (existsb is_help flags); [by right; left|].
  destruct (decide (length (prog :: flags) <> 3%nat));
    [by right; right; left|].
  destruct (validateFile sys fs saveFile false maxSaveFileSize
              (Some allowedSaveExtensions) "Save:") as [e|] eqn:Hsave;
    [right; right; right; left; by eexists|].
  destruct (validateFile sys fs romFile false maxRomFileSize
              (Some allowedRomExtensions) "ROM:") as [e|] eqn:Hrom;
    [right; right; right; left; by eexists|].
  apply validateFile_None in Hsave as (_ & payload & Hpayload & _).
  destruct (processRom_total fs (resolve sys romFile))
    as [(e & Hfail)|(cleanTitle & hashHex & Hok)].
  { rewrite Hfail. right; right; right; right; left. by eexists. }
  rewrite Hok. right; right; right; right; right.
  exists cleanTitle, hashHex. split; [reflexivity|].
  split; [by eexists|].
  set (outputFile :=
         (cleanTitle ++ "-" ++ hashHex
          ++ outputExt_of (filepath_Ext (runtime_GOOS sys) saveFile))%string).
  destruct (directories sys !! resolve sys outputFile) as [size|] eqn:Hout.
  { left. rewrite os_Create_directory by (by rewrite Hout).
    split; [by eexists|reflexivity]. }
  right. rewrite os_Create_free by exact Hout. split; [reflexivity|].
  destruct (transformSave_results fs (resolve sys saveFile)
              (filepath_Ext (runtime_GOOS sys) saveFile)
              (resolve sys outputFile) ltac:(by eexists))
    as (r & out & Hrun & Hr).
  exists out. rewrite Hrun.
  destruct Hr as [->|[->|[-> ->]]]; by eauto.
Qed.

(** X13. Every run of [main] in a system that answers by its file tree
    alone: a path names a file, a directory or nothing, [os.Create]
    fails on a directory, and no other open, read, write or sync fails.
    The run panics exactly when [os.Args] is empty, at [os.Args[1:]].
    Otherwise a file picker is cancelled, the usage is printed, the
    number of arguments is refused, a path is refused by [validateFile],
    or [processRom] fails and its error is printed: in all of these the
    file system is untouched. Or the ROM gave a title and a hash, and
    the output is named title, dash, hash and the mapped extension of
    the save file. Where that name is a directory, the error of
    [os.Create] is printed and nothing is written. Where it is not, the
    only file written is the one of that name: the run reports the name,
    or the error of the transformer, which is an unexpected end of file
    or an empty source, and in the last case the file is left empty. *)
Theorem X13_main_outcomes (sys : system) (fs : filesystem)
  (Args : list string) (saveDialog romDialog : option string) :
  let run := main sys fs Args saveDialog romDialog in
  (run.1 = Crashed <-> Args = [])
  /\ match arguments "save-converter" Args saveDialog romDialog with
     | None => run = (Cancelled, fs)
     | Some Args' =>
       let saveFile := nth 1 Args' EmptyString in
       let romFile := nth 2 Args' EmptyString in
       (Args' = [] /\ run = (Crashed, fs))
       \/ run = (Usage, fs)
       \/ run = (InvalidArgument, fs)
       \/ (exists e, run = (Invalid e, fs))
       \/ (exists e,
             processRom fs (resolve sys romFile) = Err e
             /\ run = (Failed e, fs))
       \/ (exists cleanTitle hashHex,
             processRom fs (resolve sys romFile) = Ok (cleanTitle, hashHex)
             /\ is_Some (fs !! resolve sys saveFile)
             /\ let outputFile :=
                  (cleanTitle ++ "-" ++ hashHex
                   ++ outputExt_of
                        (filepath_Ext (runtime_GOOS sys) saveFile))%string in
                (is_Some (directories sys !! resolve sys outputFile)
                 /\ run = (NotCreated, fs))
                \/ (directories sys !! resolve sys outputFile = None
                    /\ exists out,
                         run = (Converted outputFile,
                                <[resolve sys outputFile := out]> fs)
                         \/ run = (Failed (ErrReadSave io_ErrUnexpectedEOF),
                                   <[resolve sys outputFile := out]> fs)
                         \/ run = (Failed ErrSourceEmpty,
                                   <[resolve sys outputFile := []]> fs)))
     end.
Proof.
  cbv zeta. split; [|apply main_outcomes]. split; [|by intros ->].
  intros Hcrash.
  pose proof (main_outcomes sys fs Args saveDialog romDialog) as Hcases.
  cbv zeta in Hcases.
  destruct (arguments "save-converter" Args saveDialog romDialog)
    as [Args'|] eqn:Hargs; [|by rewrite Hcases in Hcrash].
  destruct Hcases
    as [[-> _]|[Hrun|[Hrun|[[e Hrun]|[(e & _ & Hrun)
       |(cleanTitle & hashHex & _ & _
         & [[_ Hrun]|[_ (out & [Hrun|[Hrun|Hrun]])]])]]]]];
    [by apply arguments_empty in Hargs|by rewrite Hrun in Hcrash..].
Qed.

Lemma registry_extensions_plain goos :
  Forall (plain_extension goos) (allowedSaveExtensions ++ allowedRomExtensions).
Proof.
  repeat apply Forall_cons_2; try apply Forall_nil_2;
    (eexists; split; [reflexivity|]);
    repeat apply Forall_cons_2; try apply Forall_nil_2;
    (split; [done|by destruct goos]).
Qed.

(** X14. A run of [main] that converts, the two files given on the
    command line or picked in the dialogs: for a save path that names a
    file which is not empty, within 256 KiB and of an allowed extension,
    and a ROM path that names a file within 64 MiB, of an allowed
    extension, of at least 64 bytes and starting with one of the three
    magic sequences, [processRom] gives a title and a hash, and the
    output is named title, dash, hash and one of the four extensions
    [.eep], [.fla], [.mpk], [.sra]. Where that name is a directory
    nothing is written. Where it names no directory and not the save
    file itself, under any spelling, the run writes that one file: the
    payload with every group of four bytes reversed for the byte-swapped
    kinds, the payload as it is for the kinds of target size zero, and
    the unit tiled to 131072 bytes for the others; and it reports the
    output, unless the payload of a byte-swapped kind does not end on a
    group of four bytes. *)
Theorem X14_main_converts (sys : system) (fs : filesystem)
  (Args : list string) (saveDialog romDialog : option string)
  (prog saveFile romFile : string) (payload rom : list byte) :
  arguments "save-converter" Args saveDialog romDialog
  = Some [prog; saveFile; romFile] ->
  is_help saveFile = false ->
  is_help romFile = false ->
  directories sys !! resolve sys saveFile = None ->
  fs !! resolve sys saveFile = Some payload ->
  payload <> [] ->
  Z.of_nat (length payload) <= maxSaveFileSize ->
  filepath_Ext (runtime_GOOS sys) saveFile ∈ allowedSaveExtensions ->
  directories sys !! resolve sys romFile = None ->
  fs !! resolve sys romFile = Some rom ->
  Z.of_nat (length rom) <= maxRomFileSize ->
  filepath_Ext (runtime_GOOS sys) romFile ∈ allowedRomExtensions ->
  (64 <= length rom)%nat ->
  take 4 rom ∈ [magic_big_endian; magic_little_endian; magic_byte_swapped] ->
  exists cleanTitle hashHex,
    processRom fs (resolve sys romFile) = Ok (cleanTitle, hashHex)
    /\ let saveExt := filepath_Ext (runtime_GOOS sys) saveFile in
       let outputFile :=
         (cleanTitle ++ "-" ++ hashHex ++ outputExt_of saveExt)%string in
       outputExt_of saveExt ∈ [".eep"; ".fla"; ".mpk"; ".sra"]%string
       /\ (is_Some (directories sys !! resolve sys outputFile) ->
           main sys fs Args saveDialog romDialog = (NotCreated, fs))
       /\ (directories sys !! resolve sys outputFile = None ->
           resolve sys saveFile <> resolve sys outputFile ->
           main sys fs Args saveDialog romDialog
           = (if decide (saveExt ∈ ConversionExtensions
                         /\ (length payload mod 4 <> 0)%nat)
              then Failed (ErrReadSave io_ErrUnexpectedEOF)
              else Converted outputFile,
              <[resolve sys outputFile :=
                  if decide (saveExt ∈ ConversionExtensions)
                  then reverse_groups 4 payload
                  else if decide (targetSize_of saveExt = 0) then payload
                  else tiled (unit_of payload) fullmempakSize]> fs)).
Proof.
  intros Hargs HhelpS HhelpR HsaveDir Hsave Hpayload HsaveSize HsaveExt
    HromDir Hrom HromSize HromExt Hlen Hmagic.
  destruct (processRom_known fs (resolve sys romFile) rom Hrom Hlen Hmagic)
    as (cleanTitle & hashHex & Hok).
  exists cleanTitle, hashHex. split; [exact Hok|]. cbv zeta.
  assert (HvalidS : validateFile sys fs saveFile false maxSaveFileSize
                      (Some allowedSaveExtensions) "Save:" = None).
  { apply validateFile_None. split; [done|by exists payload]. }
  assert (HvalidR : validateFile sys fs romFile false maxRomFileSize
                      (Some allowedRomExtensions) "ROM:" = None).
  { apply validateFile_None. split; [done|by exists rom]. }
  split; [|split].
  - revert HsaveExt. generalize (filepath_Ext (runtime_GOOS sys) saveFile).
    intros saveExt Hin. unfold allowedSaveExtensions in Hin.
    repeat (apply elem_of_cons in Hin as [->|Hin]);
      [compute_done..|by apply elem_of_nil in Hin].
  - intros Hdir. three_arguments Hargs HhelpS HhelpR.
    rewrite HvalidS, HvalidR, Hok. by rewrite os_Create_directory.
  - intros Hfree Hne. three_arguments Hargs HhelpS HhelpR.
    rewrite HvalidS, HvalidR, Hok. rewrite os_Create_free by exact Hfree.
    rewrite (transformSave_content fs _ _ _ payload Hsave Hpayload Hne).
    by case_decide.
Qed.

Lemma X14_main_converts_witness :
  let rom := [x80; x37; x12; x40] ++ replicate 28 x00
             ++ [x41; x42; x20; x43] ++ replicate 28 x20 in
  let fs : filesystem :=
    <["game.ram"%string := [x01; x02; x03; x04; x05]]>
      {["game.z64"%string := rom]} in
  exists cleanTitle hashHex,
    processRom fs "game.z64" = Ok (cleanTitle, hashHex)
    /\ (directories (dotted linux)
          !! resolve (dotted linux) (cleanTitle ++ "-" ++ hashHex ++ ".sra")
        = None ->
        resolve (dotted linux) "./game.ram"
        <> resolve (dotted linux) (cleanTitle ++ "-" ++ hashHex ++ ".sra") ->
        main (dotted linux) fs ["save-converter.exe"%string]
          (Some "./game.ram"%string) (Some "game.z64"%string)
        = (Converted (cleanTitle ++ "-" ++ hashHex ++ ".sra"),
           <[resolve (dotted linux) (cleanTitle ++ "-" ++ hashHex ++ ".sra")
               := [x01; x02; x03; x04; x05]]> fs)).
Proof.
  intros rom fs.
  destruct (X14_main_converts (dotted linux) fs
              ["save-converter.exe"%string]
              (Some "./game.ram"%string) (Some "game.z64"%string)
              "save-converter" "./game.ram" "game.z64"
              [x01; x02; x03; x04; x05] rom)
    as (cleanTitle & hashHex & Hok & _ & _ & Hmain);
    [reflexivity|reflexivity|reflexivity|reflexivity
    |apply lookup_insert_eq|done|done|compute_done|reflexivity
    |unfold fs; rewrite lookup_insert_ne by done; apply lookup_singleton_eq
    |done|compute_done|simpl; lia|compute_done|].
  exists cleanTitle, hashHex. split; [exact Hok|exact Hmain].
Defined.

(** X15. A save that is the output file is emptied: when the two paths
    pass [validateFile], [processRom] succeeds and the output name,
    title, dash, hash and mapped extension, names the save file itself,
    be it spelled the same or not, [main] leaves that file empty, its
    content lost; it reports a conversion for the kinds of target size
    zero, and an empty source for the others. *)
Theorem X15_main_same_name_empties_save (sys : system) (fs : filesystem)
  (Args : list string) (saveDialog romDialog : option string)
  (prog saveFile romFile cleanTitle hashHex : string) :
  arguments "save-converter" Args saveDialog romDialog
  = Some [prog; saveFile; romFile] ->
  is_help saveFile = false ->
  is_help romFile = false ->
  validateFile sys fs saveFile false maxSaveFileSize
    (Some allowedSaveExtensions) "Save:" = None ->
  validateFile sys fs romFile false maxRomFileSize
    (Some allowedRomExtensions) "ROM:" = None ->
  processRom fs (resolve sys romFile) = Ok (cleanTitle, hashHex) ->
  resolve sys saveFile
  = resolve sys
      (cleanTitle ++ "-" ++ hashHex
       ++ outputExt_of (filepath_Ext (runtime_GOOS sys) saveFile)) ->
  main sys fs Args saveDialog romDialog
  = (if decide (targetSize_of (filepath_Ext (runtime_GOOS sys) saveFile) = 0)
     then Converted
            (cleanTitle ++ "-" ++ hashHex
             ++ outputExt_of (filepath_Ext (runtime_GOOS sys) saveFile))
     else Failed ErrSourceEmpty,
     <[resolve sys saveFile := []]> fs).
Proof.
  intros Hargs HhelpS HhelpR Hsave Hrom Hok Hname.
  three_arguments Hargs HhelpS HhelpR.
  rewrite Hsave, Hrom, Hok.
  apply validateFile_None in Hsave as (Hdir & payload & Hpayload & _ & Hext).
  rewrite os_Create_free by (by rewrite <- Hname).
  rewrite <- Hname. unfold transformSave.
  destruct (decide (filepath_Ext (runtime_GOOS sys) saveFile
                    ∈ ConversionExtensions)) as [Hconv|Hcopy].
  - rewrite (proj1 (convertSaveFile_same_path fs (resolve sys saveFile)
                      ltac:(by eexists))).
    rewrite decide_True; [reflexivity|].
    unfold targetSize_of, ConversionExtensions in *.
    repeat case_decide; [..|reflexivity];
      exfalso; repeat (apply elem_of_cons in Hconv as [Heq|Hconv]);
      try congruence; by apply elem_of_nil in Hconv.
  - rewrite copyFile_same_path by (by eexists). by case_decide.
Qed.

Lemma X15_main_same_name_empties_save_witness :
  let rom := [x80; x37; x12; x40] ++ replicate 28 x00
             ++ [x41; x42; x20; x43] ++ replicate 28 x20 in
  let outputFile :=
    "AB C-B39F5114AB738267A0323B6BBECE44717488A8319E621EA88CC4A351D9025F91.sra"%string in
  let fs : filesystem :=
    <[outputFile := [x01; x02; x03; x04]]> {["game.z64"%string := rom]} in
  main (dotted linux) fs
    ["save-converter"%string; ("./" ++ outputFile)%string; "game.z64"%string]
    None None
  = (Converted outputFile, <[outputFile := []]> fs).
Proof.
  intros rom outputFile fs.
  apply (X15_main_same_name_empties_save (dotted linux) fs
           ["save-converter"%string; ("./" ++ outputFile)%string;
            "game.z64"%string] None None
           "save-converter" ("./" ++ outputFile)%string
           "game.z64" "AB C"
           "B39F5114AB738267A0323B6BBECE44717488A8319E621EA88CC4A351D9025F91");
    vm_compute; reflexivity.
Defined.

(** ** The two versions of [main] *)

Ltac closed_membership :=
  repeat match goal with
         | |- context [decide (?x ∈ ?l)] =>
             first [ rewrite (decide_True (P := x ∈ l)) by compute_done
                   | rewrite (decide_False (P := x ∈ l)) by compute_done ]
         end.

Lemma main_versions_same_result (run run' : result unit * filesystem)
  (outputFile : string) :
  run.2 = run'.2 /\ (run.1 = Ok tt <-> run'.1 = Ok tt) ->
  let old : outcome * filesystem :=
    match run with
    | (Err e, fs') => (Failed e, fs')
    | (Panic, fs') => (Crashed, fs')
    | (Ok _, fs') => (Converted outputFile, fs')
    end in
  let new : outcome * filesystem :=
    match run' with
    | (Err e, fs') => (Failed e, fs')
    | (Panic, fs') => (Crashed, fs')
    | (Ok _, fs') => (Converted outputFile, fs')
    end in
  old.2 = new.2
  /\ (forall out, old.1 = Converted out <-> new.1 = Converted out)
  /\ (old.1 = Usage <-> new.1 = Usage)
  /\ (old.1 = InvalidArgument <-> new.1 = InvalidArgument)
  /\ (old.1 = Cancelled <-> new.1 = Cancelled).
Proof.
  destruct run as [r fs1], run' as [r' fs2]. cbn [fst snd].
  intros [-> Hok]. destruct r as [[]|e|], r' as [[]|e'|]; cbn;
    repeat split; try done; intros; exfalso;
    destruct Hok as [Hok1 Hok2];
    try (specialize (Hok1 eq_refl)); try (specialize (Hok2 eq_refl));
    discriminate.
Qed.

Ltac each_extension Hext :=
  repeat (apply elem_of_cons in Hext as [->|Hext]);
  [closed_membership; by repeat split..|by apply elem_of_nil in Hext].

Lemma main_versions_three (sys : system) (fs : filesystem)
  (prog prog' saveFile romFile : string) (saveDialog romDialog : option string) :
  filepath_Ext (runtime_GOOS sys) saveFile ∈ [".sra"; ".fla"; ".eep"]%string ->
  let old :=
    Legacy_main.main sys fs [prog'; saveFile; romFile] saveDialog romDialog in
  let new := main sys fs [prog; saveFile; romFile] saveDialog romDialog in
  old.2 = new.2
  /\ (forall out, old.1 = Converted out <-> new.1 = Converted out)
  /\ (old.1 = Usage <-> new.1 = Usage)
  /\ (old.1 = InvalidArgument <-> new.1 = InvalidArgument)
  /\ (old.1 = Cancelled <-> new.1 = Cancelled).
Proof.
  intros Hext. cbv zeta. unfold Legacy_main.main, main.
  rewrite !arguments_three. cbv beta iota. cbn [nth].
  destruct (existsb is_help [saveFile; romFile]); [by repeat split|].
  destruct (decide (length [prog'; saveFile; romFile] <> 3%nat)) as [Hn|_];
    [by exfalso; apply Hn|].
  destruct (decide (length [prog; saveFile; romFile] <> 3%nat)) as [Hn|_];
    [by exfalso; apply Hn|].
  unfold Legacy_main.validate, validateFile.
  destruct (os_Stat sys fs saveFile) as [saveInfo|]; [|by repeat split].
  destruct (IsDir saveInfo).
  { rewrite (decide_True (P := true <> false)) by done. by repeat split. }
  rewrite (decide_False (P := false <> false)) by (by intros H; apply H).
  destruct (decide (Size saveInfo > maxSaveFileSize)).
  { rewrite (decide_True (P := false = false /\ _)) by done.
    by repeat split. }
  rewrite (decide_False (P := false = false /\ _)) by (by intros [_ ?]).
  revert Hext. generalize (filepath_Ext (runtime_GOOS sys) saveFile).
  intros saveExt Hext.
  destruct (os_Stat sys fs romFile) as [romInfo|]; [|each_extension Hext].
  destruct (IsDir romInfo).
  { rewrite (decide_True (P := true <> false)) by done.
    each_extension Hext. }
  rewrite (decide_False (P := false <> false)) by (by intros H; apply H).
  destruct (decide (Size romInfo > maxRomFileSize)).
  { rewrite (decide_True (P := false = false /\ _)) by done.
    each_extension Hext. }
  rewrite (decide_False (P := false = false /\ _)) by (by intros [_ ?]).
  destruct (decide (filepath_Ext (runtime_GOOS sys) romFile
                    ∈ allowedRomExtensions)); [|each_extension Hext].
  rewrite Legacy_processRom_eq.
  destruct (processRom fs (resolve sys romFile))
    as [[cleanTitle hashHex]|err|]; [|each_extension Hext..].
  unfold transformSave.
  repeat (apply elem_of_cons in Hext as [->|Hext]);
    [..|by apply elem_of_nil in Hext]; closed_membership.
  - change (outputExt_of ".sra") with ".sra"%string.
    destruct (os_Create_fails sys _); [by repeat split|].
    apply main_versions_same_result; apply convertSaveFile_versions.
  - change (outputExt_of ".fla") with ".fla"%string.
    destruct (os_Create_fails sys _); [by repeat split|].
    apply main_versions_same_result; apply convertSaveFile_versions.
  - change (outputExt_of ".eep") with ".eep"%string.
    change (targetSize_of ".eep") with 0.
    destruct (os_Create_fails sys _); [by repeat split|].
    rewrite Legacy_copyFile_eq.
    by apply main_versions_same_result.
Qed.

(** X16. The two versions of [main] do the same for the save kinds
    [.sra], [.fla] and [.eep]: on the same arguments, the same answers of
    the file pickers and the same files, they leave the same file system
    behind, report a conversion in the same runs and under the same
    output name, and stop on a cancelled picker, print the usage or
    refuse the number of arguments in the same runs. *)
Theorem X16_versions_agree_on_main (sys : system) (fs : filesystem)
  (Args : list string) (saveDialog romDialog : option string) :
  (forall Args',
      arguments "save-converter" Args saveDialog romDialog = Some Args' ->
      filepath_Ext (runtime_GOOS sys) (nth 1 Args' EmptyString)
      ∈ [".sra"; ".fla"; ".eep"]%string) ->
  let old := Legacy_main.main sys fs Args saveDialog romDialog in
  let new := main sys fs Args saveDialog romDialog in
  old.2 = new.2
  /\ (forall outputFile,
        old.1 = Converted outputFile <-> new.1 = Converted outputFile)
  /\ (old.1 = Usage <-> new.1 = Usage)
  /\ (old.1 = InvalidArgument <-> new.1 = InvalidArgument)
  /\ (old.1 = Cancelled <-> new.1 = Cancelled).
Proof.
  intros Hext. cbv zeta.
  destruct (arguments_cases "save-converter" Args saveDialog romDialog)
    as [[Hone [[Hnone Hargs]|(saveFile & romFile & -> & -> & Hargs)]]
       |[Hmore Hargs]].
  - unfold Legacy_main.main, main. rewrite Hargs.
    assert (arguments "save-converter.exe" Args saveDialog romDialog = None)
      as ->; [|by repeat split].
    unfold arguments. rewrite decide_True by exact Hone.
    destruct Hnone as [->| ->]; [done|by destruct saveDialog].
  - specialize (Hext _ Hargs). cbn [nth] in Hext.
    pose proof (main_versions_three sys fs "save-converter"
                  "save-converter.exe" saveFile romFile
                  (Some saveFile) (Some romFile) Hext) as Hthree.
    cbv zeta in Hthree.
    unfold Legacy_main.main, main in *.
    rewrite !arguments_three in Hthree. rewrite Hargs.
    assert (arguments "save-converter.exe" Args (Some saveFile) (Some romFile)
            = Some ["save-converter.exe"%string; saveFile; romFile]) as ->.
    { unfold arguments. by rewrite decide_True by exact Hone. }
    exact Hthree.
  - specialize (Hext _ Hargs).
    assert (Hargs' : arguments "save-converter.exe" Args saveDialog romDialog
                     = Some Args).
    { unfold arguments. by rewrite decide_False by exact Hmore. }
    destruct Args as [|prog [|saveFile [|romFile [|extra Args]]]].
    + unfold Legacy_main.main, main. rewrite Hargs, Hargs'. by repeat split.
    + by exfalso; apply Hmore.
    + unfold Legacy_main.main, main. rewrite Hargs, Hargs'.
      cbv beta iota.
      destruct (existsb is_help [saveFile]); by repeat split.
    + cbn [nth] in Hext.
      pose proof (main_versions_three sys fs prog prog saveFile romFile
                    saveDialog romDialog Hext) as Hthree.
      exact Hthree.
    + unfold Legacy_main.main, main. rewrite Hargs, Hargs'.
      cbv beta iota.
      destruct (existsb is_help (saveFile :: romFile :: extra :: Args));
        by repeat split.
Qed.

Lemma X16_versions_agree_on_main_witness :
  (Legacy_main.main (plain linux) {["a.sra"%string := [x01; x02; x03; x04]]}
     ["save-converter"%string] (Some "a.sra"%string) (Some "a.z64"%string)).2
  = (main (plain linux) {["a.sra"%string := [x01; x02; x03; x04]]}
       ["save-converter"%string] (Some "a.sra"%string) (Some "a.z64"%string)).2.
Proof.
  refine (proj1 (X16_versions_agree_on_main (plain linux)
                  {["a.sra"%string := [x01; x02; x03; x04]]}
                  ["save-converter"%string]
                  (Some "a.sra"%string) (Some "a.z64"%string) _)).
  intros Args' [= <-]. compute_done.
Defined.
